(** * Job orchestration engine of the video/image studio

    A shallow embedding of the job scheduler, the prepare pipeline and the
    asset persistence / rehydration layer of [src/app/page.tsx], and of the
    aspect-ratio mapping of [src/lib/image-models.ts].

    Further parts embed the download of a finished video, the asset store
    of the development server ([vite.config.ts]), the model catalogue and
    the provider call ([lib/models.ts], [lib/fal.ts]), the catalogue of
    image models and the history, assets and references of the image tab
    ([components/ImageTab.tsx]).

    Conventions of the embedding
    - JavaScript strings are [string]s of ASCII characters; on these
      [toLowerCase] changes the letters A-Z and nothing else.  Text outside
      ASCII, some of which [toLowerCase] maps into a-z (the Kelvin sign
      becomes k), is not represented.
    - An optional field [f?: T] is an [option T]; [undefined] is [None].
    - [setJobs] updaters are applied in the order in which they are issued;
      the model applies each one at the point where the code issues it.
    - Browser and provider behaviour (uploads, fetches, [JSON.parse], the
      clock, [createId]) enters as explicit inputs of the functions. *)

From Stdlib Require Import ZArith QArith Qround Lia Lqa.
From Stdlib Require Import Strings.Ascii Strings.String Numbers.DecimalString.
From stdpp Require Import base decidable list strings gmap.

#[local] Open Scope string_scope.
#[local] Open Scope list_scope.
#[local] Set Warnings "-register-all,-clear-no-such-hyp".

(** ** JavaScript values used by the code *)

Module Js.

(** Truthiness of a string: only the empty string is falsy. *)
Definition truthy (s : string) : bool := negb (String.eqb s "").

(** Truthiness of [string | undefined]. *)
Definition truthyOpt (o : option string) : bool :=
  match o with
  | Some s => truthy s
  | None => false
  end.

(** [a || b] on strings. *)
Definition orElse (a b : string) : string := if truthy a then a else b.

(** [a ?? b] on possibly-undefined values. *)
Definition nullish {A} (a b : option A) : option A :=
  match a with
  | Some _ => a
  | None => b
  end.

(** [`${n}`] for an integer-valued number: its decimal notation, which
    is what JavaScript prints for the integers up to 2^53 in absolute
    value (above, it prints the shortest digits that read back as the same
    number, and an exponent from 10^21 on). *)
Definition numberToString (n : Z) : string :=
  NilZero.string_of_int (Z.to_int n).

(** The largest integer up to which every integer is a number:
    [Number.MAX_SAFE_INTEGER + 1]. *)
Definition MAX_EXACT_INTEGER : Z := 2 ^ 53.

(** [xs.slice(-n)]: the last [n] elements. *)
Definition sliceLast {A} (n : nat) (xs : list A) : list A :=
  drop (length xs - n) xs.

(** A value thrown or used as a rejection reason; the code only asks
    whether it is an [Error] and, if so, reads its message. *)
Inductive Thrown :=
| ErrorObject (message : string)
| NotAnError.

(** Values produced by [JSON.parse].  The code reads numbers only as
    timestamps, which are integers; the fields of an object have distinct
    names. *)
Inductive JSON :=
| JNull
| JBool (b : bool)
| JNum (n : Z)
| JStr (s : string)
| JArr (items : list JSON)
| JObj (fields : list (string * JSON)).

Fixpoint assoc (k : string) (fields : list (string * JSON)) : option JSON :=
  match fields with
  | [] => None
  | (k', v) :: rest => if String.eqb k k' then Some v else assoc k rest
  end.

(** Property read [v.k] on a parsed value that is known to be an object
    (arrays carry none of the names the code reads). *)
Definition get (k : string) (v : JSON) : option JSON :=
  match v with
  | JObj fields => assoc k fields
  | _ => None
  end.

(** [typeof v === "string" ? v : undefined] on a property. *)
Definition asString (o : option JSON) : option string :=
  match o with
  | Some (JStr s) => Some s
  | _ => None
  end.

Definition asNumber (o : option JSON) : option Z :=
  match o with
  | Some (JNum n) => Some n
  | _ => None
  end.

(** [!entry || typeof entry !== "object"] is false exactly on arrays and
    objects ([null] is falsy). *)
Definition isObjectLike (v : JSON) : bool :=
  match v with
  | JArr _ | JObj _ => true
  | _ => false
  end.

End Js.

(** ** The host environment

    Everything the code obtains from the browser, from the clock or from
    modules of the repository that are not part of this development
    ([lib/time], [lib/models]). *)

Record Host := {
  (** [JSON.parse]; [None] when it throws. *)
  JSON_parse : string -> option Js.JSON;
  (** [JSON.stringify] on a parsed value. *)
  JSON_stringify : Js.JSON -> string;
  (** [createId("job")] as called for the entry at a given position of the
      stored array. *)
  createId : nat -> string;
  (** [Date.now()] as called for the entry at a given position of the
      stored array. *)
  Date_now : nat -> Z;
  (** [encodeURIComponent]. *)
  encodeURIComponent : string -> string;
  (** [formatCompactTimestamp(new Date(ms))] of [lib/time]. *)
  formatCompactTimestamp : Z -> string;
  (** [DEFAULT_MODEL_ID] of [lib/models]. *)
  DEFAULT_MODEL_ID : string
}.

(** ** Unified payload (the fields assembled by [handleGenerate]) *)

Module Payload.

Inductive Duration :=
| DurationText (s : string)
| DurationNumber (n : Z).

Record UnifiedPayload := {
  modelId : string;
  prompt : string;
  start_frame_url : string;
  end_frame_url : option string;
  duration : option Duration;
  aspect_ratio : option string;
  resolution : option string;
  fps : option Z;
  generate_audio : option bool;
  negative_prompt : option string;
  cfg_scale : option Q;
  prompt_optimizer : option bool
}.

(** [{ ...p, start_frame_url: url }]. *)
Definition withStart (p : UnifiedPayload) (url : string) : UnifiedPayload :=
  {| modelId := modelId p; prompt := prompt p;
     start_frame_url := url;
     end_frame_url := end_frame_url p;
     duration := duration p; aspect_ratio := aspect_ratio p;
     resolution := resolution p; fps := fps p;
     generate_audio := generate_audio p;
     negative_prompt := negative_prompt p;
     cfg_scale := cfg_scale p; prompt_optimizer := prompt_optimizer p |}.

(** [p.end_frame_url = url]. *)
Definition withEnd (p : UnifiedPayload) (url : string) : UnifiedPayload :=
  {| modelId := modelId p; prompt := prompt p;
     start_frame_url := start_frame_url p;
     end_frame_url := Some url;
     duration := duration p; aspect_ratio := aspect_ratio p;
     resolution := resolution p; fps := fps p;
     generate_audio := generate_audio p;
     negative_prompt := negative_prompt p;
     cfg_scale := cfg_scale p; prompt_optimizer := prompt_optimizer p |}.

End Payload.

(** ** Jobs and the read-modify-write updates of the job list *)

Module Jobs.

Inductive JobStatus := uploading | queued | running | success | error.

#[global] Instance JobStatus_eq_dec : EqDecision JobStatus.
Proof. solve_decision. Defined.

Record Job := {
  id : string;
  modelId : string;
  prompt : string;
  status : JobStatus;
  createdAt : Z;
  attempts : nat;
  payload : option Payload.UnifiedPayload;
  videoUrl : option string;
  errorMessage : option string;       (* the field [error] *)
  raw : option Js.JSON;
  preview : option string;            (* [null] and [undefined] are [None] *)
  events : list string;
  storagePath : string;
  localKey : option string;
  localUrl : option string;
  saving : option bool;
  saved : option bool;
  saveError : option string
}.

Definition MAX_CONCURRENT_JOBS : nat := 2.

(** A [Partial<Job>] restricted to the keys that the updates of
    [page.tsx] carry.  [None] means the key is absent from the object;
    for an optional field, [Some None] is the key present with the value
    [undefined]. *)
Record Patch := {
  p_status : option JobStatus;
  p_attempts : option nat;
  p_videoUrl : option (option string);
  p_error : option (option string);
  p_raw : option (option Js.JSON);
  p_events : option (list string);
  p_localKey : option (option string);
  p_localUrl : option (option string);
  p_saving : option (option bool);
  p_saved : option (option bool);
  p_saveError : option (option string)
}.

Definition emptyPatch : Patch :=
  {| p_status := None; p_attempts := None; p_videoUrl := None;
     p_error := None; p_raw := None; p_events := None;
     p_localKey := None; p_localUrl := None; p_saving := None;
     p_saved := None; p_saveError := None |}.

(** The value of one key of [{ ...job, ...patch }]. *)
Definition spread {A} (old : A) (new : option A) : A :=
  match new with
  | Some v => v
  | None => old
  end.

(** [{ ...job, ...patch }]. *)
Definition applyPatch (job : Job) (patch : Patch) : Job :=
  {| id := id job;
     modelId := modelId job;
     prompt := prompt job;
     status := spread (status job) (p_status patch);
     createdAt := createdAt job;
     attempts := spread (attempts job) (p_attempts patch);
     payload := payload job;
     videoUrl := spread (videoUrl job) (p_videoUrl patch);
     errorMessage := spread (errorMessage job) (p_error patch);
     raw := spread (raw job) (p_raw patch);
     preview := preview job;
     events := spread (events job) (p_events patch);
     storagePath := storagePath job;
     localKey := spread (localKey job) (p_localKey patch);
     localUrl := spread (localUrl job) (p_localUrl patch);
     saving := spread (saving job) (p_saving patch);
     saved := spread (saved job) (p_saved patch);
     saveError := spread (saveError job) (p_saveError patch) |}.

(** The second argument of [notifyJobUpdate]: an object or a function of
    the previous job. *)
Inductive UpdateData :=
| Plain (patch : Patch)
| Computed (f : Job -> Patch).

Definition notifyJobUpdate (jobId : string) (data : UpdateData)
    (prev : list Job) : list Job :=
  map (fun job =>
         if decide (id job = jobId) then
           let patch := match data with
                        | Computed f => f job
                        | Plain p => p
                        end in
           applyPatch job patch
         else job)
      prev.

Definition enqueueJob (jobId : string) (p : Payload.UnifiedPayload)
    (prev : list Job) : list Job :=
  map (fun job =>
         if decide (id job = jobId) then
           {| id := id job; modelId := modelId job; prompt := prompt job;
              status := queued;
              createdAt := createdAt job; attempts := attempts job;
              payload := Some p;
              videoUrl := videoUrl job; errorMessage := errorMessage job;
              raw := raw job; preview := preview job; events := events job;
              storagePath := storagePath job; localKey := localKey job;
              localUrl := localUrl job; saving := saving job;
              saved := saved job; saveError := saveError job |}
         else job)
      prev.

(** [handleRetry]. *)
Definition handleRetry (job : Job) (prev : list Job) : list Job :=
  match payload job with
  | None => prev
  | Some _ =>
      notifyJobUpdate (id job)
        (Plain {| p_status := Some queued; p_attempts := None;
                  p_videoUrl := None; p_error := Some None; p_raw := None;
                  p_events := None; p_localKey := None; p_localUrl := None;
                  p_saving := None; p_saved := None; p_saveError := None |})
        prev
  end.

(** The condition under which the history panel renders the Retry button
    of a job: [job.status === "error" && job.payload]. *)
Definition retryOffered (job : Job) : bool :=
  bool_decide (status job = error) && bool_decide (is_Some (payload job)).

(** The job that [handleGenerate] puts in front of the list. *)
Definition newJob (jobId model promptText : string) (now : Z)
    (startPreview : option string) (downloadPath : string) : Job :=
  {| id := jobId; modelId := model; prompt := promptText;
     status := uploading; createdAt := now; attempts := 0;
     payload := None; videoUrl := None; errorMessage := None; raw := None;
     preview := startPreview; events := [];
     storagePath := downloadPath;
     localKey := None; localUrl := None;
     saving := Some false; saved := Some false; saveError := None |}.

End Jobs.

(** ** File names of stored videos *)

Module FileName.

Definition isUpper (c : ascii) : bool :=
  let n := nat_of_ascii c in (65 <=? n)%nat && (n <=? 90)%nat.

(** [toLowerCase] on a character of ASCII text. *)
Definition lowerChar (c : ascii) : ascii :=
  if isUpper c then ascii_of_nat (nat_of_ascii c + 32) else c.

(** The character class [[a-z0-9]]. *)
Definition isTokenChar (c : ascii) : bool :=
  let n := nat_of_ascii c in
  ((97 <=? n)%nat && (n <=? 122)%nat) || ((48 <=? n)%nat && (n <=? 57)%nat).

Definition hyphen : ascii := "-"%char.

Definition isHyphen (c : ascii) : bool := Ascii.eqb c hyphen.

(** The characters a sanitized segment is made of. *)
Definition segmentChar (c : ascii) : Prop :=
  isTokenChar c = true \/ c = hyphen.

(** [.replace(/[^a-z0-9]+/g, "-")]; [inRun] says that the previous
    character already belonged to the run being replaced. *)
Fixpoint replaceRuns (inRun : bool) (cs : list ascii) : list ascii :=
  match cs with
  | [] => []
  | c :: rest =>
      if isTokenChar c then c :: replaceRuns false rest
      else if inRun then replaceRuns true rest
      else hyphen :: replaceRuns true rest
  end.

Fixpoint dropHyphens (cs : list ascii) : list ascii :=
  match cs with
  | [] => []
  | c :: rest => if isHyphen c then dropHyphens rest else cs
  end.

(** [.replace(/^-+|-+$/g, "")]. *)
Definition trimHyphens (cs : list ascii) : list ascii :=
  rev (dropHyphens (rev (dropHyphens cs))).

Definition sanitizeChars (cs : list ascii) : list ascii :=
  take 40 (trimHyphens (replaceRuns false (map lowerChar cs))).

Definition sanitizeFileSegment (value : string) : string :=
  string_of_list_ascii (sanitizeChars (list_ascii_of_string value)).

(** [s.slice(-6)]. *)
Definition lastSix (s : string) : string :=
  string_of_list_ascii (Js.sliceLast 6 (list_ascii_of_string s)).

(** The [Pick<Job, "id" | "modelId" | "createdAt" | "storagePath">]
    argument of [buildVideoFileName]. *)
Record NameParts := {
  id : string;
  modelId : string;
  createdAt : Z;
  storagePath : string
}.

Definition baseSegment (job : NameParts) : string :=
  Js.orElse (sanitizeFileSegment (Js.orElse (storagePath job) "downloads"))
            "downloads".

Definition modelSegment (job : NameParts) : string :=
  Js.orElse (sanitizeFileSegment (modelId job)) "model".

Definition idSegment (job : NameParts) : string :=
  Js.orElse (lastSix (sanitizeFileSegment (id job))) (lastSix (id job)).

Definition buildVideoFileName (h : Host) (job : NameParts) : string :=
  let stamp := formatCompactTimestamp h (createdAt job) in
  (baseSegment job ++ "-" ++ modelSegment job ++ "-" ++ stamp ++ "-"
     ++ idSegment job ++ ".mp4")%string.

End FileName.

(** ** Aspect ratio of an image size ([lib/image-models.ts])

    The two dimensions are finite numbers, modelled as rationals with exact
    arithmetic; the code rounds them with [Math.round] before anything is
    printed, and the printed numbers are integers or infinities. *)

Module Aspect.

Inductive Size :=
| Preset (name : string)
| Dimensions (width height : Q).

(** A number after [Math.round]: an integer, or what IEEE division by
    zero leaves. *)
Inductive Rounded :=
| Finite (n : Z)
| Infinity
| NegInfinity.

Definition roundedToString (r : Rounded) : string :=
  match r with
  | Finite n => Js.numberToString n
  | Infinity => "Infinity"
  | NegInfinity => "-Infinity"
  end.

(** [Math.round]: the nearest integer, ties towards plus infinity. *)
Definition Math_round (x : Q) : Z := Qfloor (x + (1 # 2)).

(** The local [gcd] with a bound on the recursion depth; [a % b] is the
    remainder of truncated division. *)
Fixpoint gcdFuel (fuel : nat) (a b : Z) : Z :=
  match fuel with
  | O => a
  | S fuel' => if (b =? 0)%Z then a else gcdFuel fuel' b (Z.rem a b)
  end.

(** The second argument shrinks in absolute value at every call, so
    [|b| + 1] steps always reach [b === 0]. *)
Definition gcd (a b : Z) : Z := gcdFuel (S (Z.abs_nat b)) a b.

Definition isZero (x : Q) : bool := Qeq_bool x 0.

Definition sameSign (x y : Q) : bool :=
  Bool.eqb (Qle_bool 0 x) (Qle_bool 0 y).

(** [Math.round(x / factor)].  When [factor] is zero it is the zero that
    [Math.round(width)] produced, whose sign is the sign of [width]; the
    quotient is then an infinity whose sign is that of [x] times that of
    [width]. *)
Definition roundQuotient (x width : Q) (factor : Z) : Rounded :=
  if (factor =? 0)%Z then
    if sameSign x width then Infinity else NegInfinity
  else Finite (Math_round (x / inject_Z factor)).

Definition resolveAspectRatio (size : option Size) : option string :=
  match size with
  | None => None
  | Some (Preset name) =>
      if String.eqb name "square_hd" then Some "1:1"
      else if String.eqb name "square" then Some "1:1"
      else if String.eqb name "portrait_4_3" then Some "3:4"
      else if String.eqb name "portrait_16_9" then Some "9:16"
      else if String.eqb name "landscape_4_3" then Some "4:3"
      else if String.eqb name "landscape_16_9" then Some "16:9"
      else None
  | Some (Dimensions width height) =>
      if isZero width || isZero height then None
      else
        let factor := gcd (Math_round width) (Math_round height) in
        let w := roundQuotient width width factor in
        let h := roundQuotient height width factor in
        Some (roundedToString w ++ ":" ++ roundedToString h)%string
  end.

End Aspect.

(** ** Rehydration and the persisted index *)

Module Store.
Import Jobs.

Definition VIDEO_JOBS_STORAGE_KEY : string := "video-job-history".

(** The [events] of a stored record: strings are kept, other values are
    stringified, and the last ten survive. *)
Definition loadEvents (h : Host) (o : option Js.JSON) : list string :=
  match o with
  | Some (Js.JArr evs) =>
      Js.sliceLast 10
        (map (fun event => match event with
                           | Js.JStr s => s
                           | _ => JSON_stringify h event
                           end) evs)
  | _ => []
  end.

(** The callback of [data.map] in [loadStoredJobs]; [None] is the [null]
    that the following [filter] removes.  [i] is the position of the
    entry, which tells the calls of [createId] and [Date.now] apart. *)
Definition loadEntry (h : Host) (i : nat) (entry : Js.JSON) : option Job :=
  if negb (Js.isObjectLike entry) then None
  else
    let localUrl := Js.asString (Js.get "localUrl" entry) in
    let localKey := Js.asString (Js.get "localKey" entry) in
    if negb (Js.truthyOpt localUrl) || negb (Js.truthyOpt localKey) then None
    else
      Some {| id := default (createId h i) (Js.asString (Js.get "id" entry));
              modelId := default (DEFAULT_MODEL_ID h)
                                 (Js.asString (Js.get "modelId" entry));
              prompt := default "" (Js.asString (Js.get "prompt" entry));
              status := success;
              createdAt := default (Date_now h i)
                                   (Js.asNumber (Js.get "createdAt" entry));
              attempts := 1;
              payload := None;
              videoUrl := localUrl;
              errorMessage := None;
              raw := None;
              preview := Js.asString (Js.get "preview" entry);
              events := loadEvents h (Js.get "events" entry);
              storagePath := default "downloads"
                               (Js.asString (Js.get "storagePath" entry));
              localKey := localKey;
              localUrl := localUrl;
              saving := Some false;
              saved := Some true;
              saveError := None |}.

(** [loadStoredJobs]; [stored] is the result of
    [localStorage.getItem(VIDEO_JOBS_STORAGE_KEY)]. *)
Definition loadStoredJobs (h : Host) (stored : option string) : list Job :=
  match stored with
  | None => []
  | Some text =>
      if negb (Js.truthy text) then []
      else
        match JSON_parse h text with
        | None => []                          (* the [catch] branch *)
        | Some (Js.JArr data) => omap (fun x => x) (imap (loadEntry h) data)
        | Some _ => []
        end
  end.

(** What [persistStoredJobs] asks of [localStorage]. *)
Inductive StorageOp :=
| RemoveItem (key : string)
| SetItem (key value : string).

(** The filter of [persistStoredJobs]:
    [job.status === "success" && job.localKey && job.localUrl]. *)
Definition isCompleted (job : Job) : bool :=
  bool_decide (status job = success)
  && Js.truthyOpt (localKey job) && Js.truthyOpt (localUrl job).

(** A key whose value is [undefined] is left out by [JSON.stringify]. *)
Definition optionalField (name : string) (o : option string)
    : list (string * Js.JSON) :=
  match o with
  | Some s => [(name, Js.JStr s)]
  | None => []
  end.

(** The object that [completed.map] builds for one job. *)
Definition storedRecord (job : Job) : Js.JSON :=
  Js.JObj
    ([("id", Js.JStr (id job));
      ("modelId", Js.JStr (modelId job));
      ("prompt", Js.JStr (prompt job));
      ("createdAt", Js.JNum (createdAt job));
      ("preview", match preview job with
                  | Some p => Js.JStr p
                  | None => Js.JNull
                  end);
      ("events", Js.JArr (map Js.JStr (Js.sliceLast 10 (events job))))]
     ++ optionalField "localKey" (localKey job)
     ++ optionalField "localUrl" (localUrl job)
     ++ [("storagePath", Js.JStr (storagePath job))]).

(** The array handed to [JSON.stringify]. *)
Definition persistedIndex (jobs : list Job) : list Js.JSON :=
  map storedRecord (filter (fun job => isCompleted job = true) jobs).

Definition persistStoredJobs (h : Host) (jobs : list Job) : StorageOp :=
  let completed := filter (fun job => isCompleted job = true) jobs in
  match completed with
  | [] => RemoveItem VIDEO_JOBS_STORAGE_KEY
  | _ :: _ =>
      SetItem VIDEO_JOBS_STORAGE_KEY
              (JSON_stringify h (Js.JArr (map storedRecord completed)))
  end.

End Store.

(** ** A small monad for code that calls collaborators and may throw *)

Module Attempt.

(** A computation leaves a log of the calls it made and either returns
    or throws. *)
Inductive Outcome (A : Type) :=
| Returned (a : A)
| Threw (e : Js.Thrown).
Arguments Returned {A} a.
Arguments Threw {A} e.

Definition M (C A : Type) : Type := list C * Outcome A.

Definition ret {C A} (a : A) : M C A := ([], Returned a).

Definition throw {C A} (e : Js.Thrown) : M C A := ([], Threw e).

Definition call {C} (c : C) : M C unit := ([c], Returned tt).

Definition bind {C A B} (m : M C A) (k : A -> M C B) : M C B :=
  match m with
  | (log, Returned a) => let (log', r) := k a in (log ++ log', r)
  | (log, Threw e) => (log, Threw e)
  end.

(** [error instanceof Error ? error.message : fallback]. *)
Definition messageOr (fallback : string) (e : Js.Thrown) : string :=
  match e with
  | Js.ErrorObject message => message
  | Js.NotAnError => fallback
  end.

End Attempt.

#[global] Instance attempt_mbind {C} : MBind (Attempt.M C) :=
  fun A B k m => Attempt.bind m k.
#[global] Instance attempt_mret {C} : MRet (Attempt.M C) :=
  fun A a => Attempt.ret a.

(** ** The prepare pipeline *)

Module Prepare.
Import Jobs.

(** The shapes of an upload result that [extractUploadUrl] tells apart. *)
Record UploadData := {
  data_url : option string;
  data_signed_url : option string;
  data_signedUrl : option string
}.

Record UploadResponseRecord := {
  url : option string;
  signedUrl : option string;
  signed_url : option string;
  data : option UploadData
}.

Inductive UploadResult :=
| UploadFalsy                                (* undefined, null, 0, false *)
| UploadText (s : string)
| UploadObject (record : UploadResponseRecord)
| UploadOther.                               (* any other truthy value *)

Definition extractUploadUrl (uploadResult : UploadResult) : option string :=
  match uploadResult with
  | UploadFalsy => None
  | UploadText s => if Js.truthy s then Some s else None
  | UploadObject record =>
      Js.nullish (url record)
        (Js.nullish (signedUrl record)
           (Js.nullish (signed_url record)
              (Js.nullish (data record ≫= data_url)
                 (Js.nullish (data record ≫= data_signed_url)
                    (data record ≫= data_signedUrl)))))
  | UploadOther => None
  end.

(** The answer of [client.storage.upload(file)]. *)
Inductive UploadOutcome :=
| UploadRejected (e : Js.Thrown)
| UploadResolved (result : UploadResult).

(** Capability flags of a model: [boolean | "unstable" | "unspecified" |
    undefined]. *)
Inductive SupportFlag :=
| FlagTrue | FlagFalse | FlagUnstable | FlagUnspecified | FlagUndefined.

Definition isSupportEnabled (flag : SupportFlag) : bool :=
  match flag with
  | FlagTrue => true
  | _ => false
  end.

(** The part of a [ModelSpec] that the pipeline reads. *)
Record Supports := { endFrame : SupportFlag; audio : SupportFlag }.
Record ModelSpec := { specId : string; supports : Supports }.

(** Calls that [prepareJobPayload] makes, in order. *)
Inductive Call (File : Type) :=
| CallUpload (file : File)
| CallEnqueue (jobId : string) (payload : Payload.UnifiedPayload).
Arguments CallUpload {File} file.
Arguments CallEnqueue {File} jobId payload.

Section Pipeline.
Context {File : Type}.
Variable storage_upload : File -> UploadOutcome.

(** [await client.storage.upload(file)]. *)
Definition upload (file : File) : Attempt.M (Call File) UploadResult :=
  Attempt.call (CallUpload file) ;;
  match storage_upload file with
  | UploadRejected e => Attempt.throw e
  | UploadResolved result => mret result
  end.

(** [extractUploadUrl(...)] followed by [if (!url) throw new Error(msg)]. *)
Definition requireUrl (message : string) (result : UploadResult)
    : Attempt.M (Call File) string :=
  match extractUploadUrl result with
  | Some u => if Js.truthy u then mret u
              else Attempt.throw (Js.ErrorObject message)
  | None => Attempt.throw (Js.ErrorObject message)
  end.

Definition prepareJobPayload (jobId : string) (model : ModelSpec)
    (basePayload : Payload.UnifiedPayload) (start : File)
    (end_ : option File) : Attempt.M (Call File) unit :=
  startUpload ← upload start;
  startUrl ← requireUrl "Unable to upload start frame." startUpload;
  let payload := Payload.withStart basePayload startUrl in
  payload ←
    match end_ with
    | Some endFile =>
        if isSupportEnabled (endFrame (supports model)) then
          endUpload ← upload endFile;
          endUrl ← requireUrl "Unable to upload end frame." endUpload;
          mret (Payload.withEnd payload endUrl)
        else mret payload
    | None => mret payload
    end;
  Attempt.call (CallEnqueue jobId payload).

(** The effect of the logged calls on the job list: only [enqueueJob]
    touches it. *)
Definition applyCall (c : Call File) (jobs : list Job) : list Job :=
  match c with
  | CallUpload _ => jobs
  | CallEnqueue jobId payload => enqueueJob jobId payload jobs
  end.

(** The [try { await prepareJobPayload(...) } catch (error) { ... }] of
    [handleGenerate], acting on the job list. *)
Definition settlePrepare (jobId : string)
    (run : Attempt.M (Call File) unit) (jobs : list Job) : list Job :=
  let jobs' := fold_left (fun js c => applyCall c js) (fst run) jobs in
  match snd run with
  | Attempt.Returned _ => jobs'
  | Attempt.Threw e =>
      notifyJobUpdate jobId
        (Plain {| p_status := Some error; p_attempts := None;
                  p_videoUrl := None;
                  p_error := Some (Some (Attempt.messageOr "Upload failed." e));
                  p_raw := None; p_events := None; p_localKey := None;
                  p_localUrl := None; p_saving := None; p_saved := None;
                  p_saveError := None |})
        jobs'
  end.

End Pipeline.

End Prepare.

(** ** Persistence of a finished video *)

Module Persist.
Import Jobs.

(** The answer of a [fetch]: a rejection, or a response of which the code
    reads [ok] and [status]. *)
Inductive FetchOutcome :=
| FetchRejected (e : Js.Thrown)
| FetchResponse (ok : bool) (status : Z).

(** What the collaborators answer during one run of [persistVideoAsset]:
    the download, the reading and encoding of its body
    ([blob], [arrayBuffer], [arrayBufferToBase64]) and the POST to
    [/api/assets]. *)
Record Run := {
  download : FetchOutcome;
  readBody : option Js.Thrown;       (* [Some e]: reading the body threw *)
  store : FetchOutcome
}.

Inductive Call :=
| CallFetch (url : string)
| CallReadBody
| CallStore (name : string).

Definition fetch (c : Call) (answer : FetchOutcome)
    : Attempt.M Call (bool * Z) :=
  Attempt.call c ;;
  match answer with
  | FetchRejected e => Attempt.throw e
  | FetchResponse ok status => mret (ok, status)
  end.

(** [if (!ok) throw new Error(message)]. *)
Definition requireOk (ok : bool) (message : string) : Attempt.M Call unit :=
  if ok then mret tt else Attempt.throw (Js.ErrorObject message).

(** [await response.blob()], [await blob.arrayBuffer()] and
    [arrayBufferToBase64(...)]. *)
Definition encodeBody (answer : option Js.Thrown) : Attempt.M Call unit :=
  Attempt.call CallReadBody ;;
  match answer with
  | Some e => Attempt.throw e
  | None => mret tt
  end.

(** The [try] block of [persistVideoAsset] up to the point where the
    asset is stored. *)
Definition storeAsset (run : Run) (fileName videoUrl : string)
    : Attempt.M Call unit :=
  response ← fetch (CallFetch videoUrl) (download run);
  requireOk (fst response)
    ("Failed to fetch video (" ++ Js.numberToString (snd response) ++ ")")%string ;;
  encodeBody (readBody run) ;;
  saveResponse ← fetch (CallStore fileName) (store run);
  requireOk (fst saveResponse) "Failed to persist video locally.".

(** [persistVideoAsset], acting on the job list. *)
Definition persistVideoAsset (h : Host) (run : Run)
    (jobId fileName videoUrl : string) (jobs : list Job) : list Job :=
  match snd (storeAsset run fileName videoUrl) with
  | Attempt.Returned _ =>
      let localUrl := ("/assets/" ++ encodeURIComponent h fileName)%string in
      notifyJobUpdate jobId
        (Plain {| p_status := None; p_attempts := None;
                  p_videoUrl := Some (Some localUrl);
                  p_error := None; p_raw := None; p_events := None;
                  p_localKey := Some (Some fileName);
                  p_localUrl := Some (Some localUrl);
                  p_saving := Some (Some false);
                  p_saved := Some (Some true);
                  p_saveError := Some None |})
        jobs
  | Attempt.Threw e =>
      notifyJobUpdate jobId
        (Plain {| p_status := None; p_attempts := None; p_videoUrl := None;
                  p_error := None; p_raw := None; p_events := None;
                  p_localKey := None; p_localUrl := None;
                  p_saving := Some (Some false);
                  p_saved := Some (Some false);
                  p_saveError :=
                    Some (Some (Attempt.messageOr
                                  "Unable to persist video locally." e)) |})
        jobs
  end.

End Persist.

(** ** The scheduler *)

Module Scheduler.
Import Jobs.

(** Where the asynchronous body of [startJobExecution] is suspended. *)
Inductive Phase :=
| AwaitRun (job : Job)                          (* [await runFal(...)] *)
| AwaitPersist (fileName videoUrl : string).    (* [await persistVideoAsset(...)] *)

Record State := {
  jobs : list Job;                  (* the [jobs] state of the page *)
  runningJobs : gset string;        (* the [runningJobs] ref *)
  preparing : gset string;          (* jobs whose [prepareJobPayload] is pending *)
  executing : gmap string Phase     (* suspended [startJobExecution] bodies *)
}.

(** The page after its mount effect: the rehydrated history, nothing in
    flight. *)
Definition initial (stored : list Job) : State :=
  {| jobs := stored; runningJobs := ∅; preparing := ∅; executing := ∅ |}.

(** [handleGenerate] up to its first [await]: the new job goes in front. *)
Definition submit (job : Job) (s : State) : State :=
  {| jobs := job :: jobs s;
     runningJobs := runningJobs s;
     preparing := {[ id job ]} ∪ preparing s;
     executing := executing s |}.

(** [handleGenerate] after [prepareJobPayload] has settled. *)
Definition prepared {File} (jobId : string)
    (run : Attempt.M (Prepare.Call File) unit) (s : State) : State :=
  {| jobs := Prepare.settlePrepare jobId run (jobs s);
     runningJobs := runningJobs s;
     preparing := preparing s ∖ {[ jobId ]};
     executing := executing s |}.

(** [startJobExecution] up to [await runFal(...)]. *)
Definition startJobExecution (job : Job) (s : State) : State :=
  match payload job with
  | None => s
  | Some _ =>
      {| jobs :=
           notifyJobUpdate (id job)
             (Plain {| p_status := Some running;
                       p_attempts := Some (attempts job + 1);
                       p_videoUrl := None; p_error := None; p_raw := None;
                       p_events := None; p_localKey := None;
                       p_localUrl := None; p_saving := None;
                       p_saved := None; p_saveError := None |})
             (jobs s);
         runningJobs := {[ id job ]} ∪ runningJobs s;
         preparing := preparing s;
         executing := <[ id job := AwaitRun job ]> (executing s) |}
  end.

(** The predicate of [jobs.find] in the scheduling effect. *)
Definition eligible (running : gset string) (job : Job) : bool :=
  bool_decide (status job = queued) && negb (bool_decide (id job ∈ running)).

(** The scheduling effect. *)
Definition tick (s : State) : State :=
  if decide (MAX_CONCURRENT_JOBS ≤ size (runningJobs s))%nat then s
  else
    match List.find (eligible (runningJobs s)) (jobs s) with
    | None => s
    | Some nextJob => startJobExecution nextJob s
    end.

(** A queue update of the provider, as far as the callback inspects it. *)
Inductive QueueEvent :=
| EventFalsy
| EventText (s : string)
| EventObject (status message : option string) (json : string).

(** The message that the callback of [runFal] appends; [None] when it
    returns early. *)
Definition eventMessage (event : QueueEvent) : option string :=
  match event with
  | EventFalsy => None
  | EventText s => if Js.truthy s then Some s else None
  | EventObject st msg json => Js.nullish st (Js.nullish msg (Some json))
  end.

Definition queueUpdate (jobId : string) (event : QueueEvent) (s : State)
    : State :=
  match eventMessage event with
  | None => s
  | Some message =>
      {| jobs :=
           notifyJobUpdate jobId
             (Computed (fun prevJob =>
                {| p_status := None; p_attempts := None; p_videoUrl := None;
                   p_error := None; p_raw := None;
                   p_events := Some (events prevJob ++ [message]);
                   p_localKey := None; p_localUrl := None; p_saving := None;
                   p_saved := None; p_saveError := None |}))
             (jobs s);
         runningJobs := runningJobs s;
         preparing := preparing s;
         executing := executing s |}
  end.

(** [startJobExecution] from the resolution of [runFal] to
    [await persistVideoAsset(...)]. *)
Definition runResolved (h : Host) (job : Job) (resultUrl : string)
    (resultRaw : option Js.JSON) (s : State) : State :=
  let fileName :=
    FileName.buildVideoFileName h
      {| FileName.id := id job; FileName.modelId := modelId job;
         FileName.createdAt := createdAt job;
         FileName.storagePath := storagePath job |} in
  {| jobs :=
       notifyJobUpdate (id job)
         (Plain {| p_status := Some success; p_attempts := None;
                   p_videoUrl := Some (Some resultUrl);
                   p_error := None;
                   p_raw := Some resultRaw;
                   p_events := None;
                   p_localKey := Some (Some fileName);
                   p_localUrl := Some None;
                   p_saving := Some (Some true);
                   p_saved := Some (Some false);
                   p_saveError := Some None |})
         (jobs s);
     runningJobs := runningJobs s;
     preparing := preparing s;
     executing := <[ id job := AwaitPersist fileName resultUrl ]> (executing s) |}.

(** [startJobExecution] when [runFal] rejects: the [catch] and the
    [finally]. *)
Definition runRejected (job : Job) (e : Js.Thrown) (s : State) : State :=
  {| jobs :=
       notifyJobUpdate (id job)
         (Plain {| p_status := Some error; p_attempts := None;
                   p_videoUrl := None;
                   p_error := Some (Some (Attempt.messageOr "Generation failed." e));
                   p_raw := None; p_events := None; p_localKey := None;
                   p_localUrl := None; p_saving := None; p_saved := None;
                   p_saveError := None |})
         (jobs s);
     runningJobs := runningJobs s ∖ {[ id job ]};
     preparing := preparing s;
     executing := delete (id job) (executing s) |}.

(** [startJobExecution] after [persistVideoAsset] has settled: its update
    and the [finally]. *)
Definition persistSettled (h : Host) (jobId fileName videoUrl : string)
    (run : Persist.Run) (s : State) : State :=
  {| jobs := Persist.persistVideoAsset h run jobId fileName videoUrl (jobs s);
     runningJobs := runningJobs s ∖ {[ jobId ]};
     preparing := preparing s;
     executing := delete jobId (executing s) |}.

(** A click on Retry. *)
Definition retry (job : Job) (s : State) : State :=
  {| jobs := handleRetry job (jobs s);
     runningJobs := runningJobs s;
     preparing := preparing s;
     executing := executing s |}.

(** One step of the page.  The premises say what the environment
    guarantees: [createId] returns an id that no job carries yet, and
    asynchronous continuations run only for work that is pending.  Retry
    may be invoked on any job of the list; the button is rendered for
    fewer ([retryOffered]). *)
Inductive step (h : Host) : State -> State -> Prop :=
| step_submit s jobId model promptText now startPreview path :
    jobId ∉ map id (jobs s) ->
    step h s (submit (newJob jobId model promptText now startPreview path) s)
| step_prepared s File (storage_upload : File -> Prepare.UploadOutcome)
      jobId model basePayload start end_ :
    jobId ∈ preparing s ->
    step h s (prepared jobId
                (Prepare.prepareJobPayload storage_upload jobId model
                   basePayload start end_) s)
| step_tick s :
    step h s (tick s)
| step_queueUpdate s job event :
    executing s !! id job = Some (AwaitRun job) ->
    step h s (queueUpdate (id job) event s)
| step_runResolved s job resultUrl resultRaw :
    executing s !! id job = Some (AwaitRun job) ->
    step h s (runResolved h job resultUrl resultRaw s)
| step_runRejected s job e :
    executing s !! id job = Some (AwaitRun job) ->
    step h s (runRejected job e s)
| step_persistSettled s jobId fileName videoUrl run :
    executing s !! jobId = Some (AwaitPersist fileName videoUrl) ->
    step h s (persistSettled h jobId fileName videoUrl run s)
| step_retry s job :
    job ∈ jobs s ->
    step h s (retry job s).

(** The states the page can be in after rehydrating [stored]. *)
Inductive reachable (h : Host) (stored : list Job) : State -> Prop :=
| reachable_initial : reachable h stored (initial stored)
| reachable_step s s' :
    reachable h stored s -> step h s s' -> reachable h stored s'.

(** The number of jobs whose status is ["running"]. *)
Definition runningCount (js : list Job) : nat :=
  length (filter (fun job => status job = running) js).

End Scheduler.

(** ** Vocabulary of the properties *)

Module Props.
Import Jobs.

(** A run of [persistVideoAsset] in which the download is answered with
    an ok response, its body can be read and the store accepts it. *)
Definition persistSucceeds (run : Persist.Run) : bool :=
  match Persist.download run, Persist.readBody run, Persist.store run with
  | Persist.FetchResponse true _, None, Persist.FetchResponse true _ => true
  | _, _, _ => false
  end.

(** The upload of [file] resolves with a result that carries a usable
    URL. *)
Definition uploadedUrl {File} (storage_upload : File -> Prepare.UploadOutcome)
    (file : File) : option string :=
  match storage_upload file with
  | Prepare.UploadRejected _ => None
  | Prepare.UploadResolved result =>
      match Prepare.extractUploadUrl result with
      | Some u => if Js.truthy u then Some u else None
      | None => None
      end
  end.

(** The end reference that the pipeline uploads: the supplied file, when
    the model's end-frame capability is enabled. *)
Definition endReference {File} (model : Prepare.ModelSpec)
    (end_ : option File) : option File :=
  match end_ with
  | Some endFile =>
      if Prepare.isSupportEnabled (Prepare.endFrame (Prepare.supports model))
      then Some endFile else None
  | None => None
  end.

Definition isEnqueue {File} (c : Prepare.Call File) : bool :=
  match c with
  | Prepare.CallEnqueue _ _ => true
  | Prepare.CallUpload _ => false
  end.

(** A stored record carries a durable key and an access URL, both
    strings. *)
Definition carriesKeyAndUrl (entry : Js.JSON) : Prop :=
  exists key url,
    Js.get "localKey" entry = Some (Js.JStr key)
    /\ Js.get "localUrl" entry = Some (Js.JStr url).

(** The names of the fields of a stored record, in the order in which
    [persistStoredJobs] lists them. *)
Definition recordFields : list string :=
  ["id"; "modelId"; "prompt"; "createdAt"; "preview"; "events"; "localKey";
   "localUrl"; "storagePath"].

(** A stored record describes a job: read field by field it gives the
    job's id, model, prompt, creation time, preview ([null] when there is
    none), last ten events, key, URL and storage path. *)
Definition describes (job : Job) (record : Js.JSON) : Prop :=
  Js.get "id" record = Some (Js.JStr (id job))
  /\ Js.get "modelId" record = Some (Js.JStr (modelId job))
  /\ Js.get "prompt" record = Some (Js.JStr (prompt job))
  /\ Js.get "createdAt" record = Some (Js.JNum (createdAt job))
  /\ Js.get "preview" record
     = Some (match preview job with
             | Some p => Js.JStr p
             | None => Js.JNull
             end)
  /\ Js.get "events" record
     = Some (Js.JArr (map Js.JStr (Js.sliceLast 10 (events job))))
  /\ Js.get "localKey" record = Js.JStr <$> localKey job
  /\ Js.get "localUrl" record = Js.JStr <$> localUrl job
  /\ Js.get "storagePath" record = Some (Js.JStr (storagePath job)).

(** A completed job as it comes back from the persisted index. *)
Definition rehydrate (job : Job) : Job :=
  {| id := id job; modelId := modelId job; prompt := prompt job;
     status := success; createdAt := createdAt job; attempts := 1;
     payload := None; videoUrl := localUrl job; errorMessage := None;
     raw := None; preview := preview job;
     events := Js.sliceLast 10 (events job);
     storagePath := storagePath job;
     localKey := localKey job; localUrl := localUrl job;
     saving := Some false; saved := Some true; saveError := None |}.

End Props.

Module PrepareSpec.
Import Jobs.

Section Pipeline.
Context {File : Type}.
Variable storage_upload : File -> Prepare.UploadOutcome.

(** The payload that the pipeline is to enqueue: defined when the start
    upload yields a URL and, if an end reference is to be uploaded,
    that upload yields a URL too. *)
Definition completedPayload (model : Prepare.ModelSpec)
    (basePayload : Payload.UnifiedPayload) (start : File)
    (end_ : option File) : option Payload.UnifiedPayload :=
  match Props.uploadedUrl storage_upload start with
  | None => None
  | Some startUrl =>
      match Props.endReference model end_ with
      | None => Some (Payload.withStart basePayload startUrl)
      | Some endFile =>
          match Props.uploadedUrl storage_upload endFile with
          | None => None
          | Some endUrl =>
              Some (Payload.withEnd
                      (Payload.withStart basePayload startUrl) endUrl)
          end
      end
  end.

(** The uploads that the pipeline is to attempt, in order: the start
    reference, then the end reference if the start upload succeeded. *)
Definition uploadsAttempted (model : Prepare.ModelSpec) (start : File)
    (end_ : option File) : list (Prepare.Call File) :=
  Prepare.CallUpload start ::
  match Props.uploadedUrl storage_upload start,
        Props.endReference model end_ with
  | Some _, Some endFile => [Prepare.CallUpload endFile]
  | _, _ => []
  end.




End Pipeline.


End PrepareSpec.

Module SchedulerSpec.
Import Jobs Scheduler.

(** The shape shared by [notifyJobUpdate] and [enqueueJob]: the jobs
    carrying [jobId] are replaced, the others are kept. *)
Definition updateById (jobId : string) (g : Job -> Job) (prev : list Job)
    : list Job :=
  map (fun job => if decide (id job = jobId) then g job else job) prev.

(** What rehydration guarantees about a job (claim C10). *)
Definition rehydrated (job : Job) : Prop :=
  status job = success /\ payload job = None.

(** The invariant of the page: the job list is the jobs submitted in this
    session, newest first, followed by the rehydrated history. *)
Record Invariant (stored session : list Job) (s : State) : Prop := {
  inv_jobs : jobs s = session ++ stored;
  inv_nodup : NoDup (map id session);
  inv_fresh : forall i, i ∈ map id session -> i ∉ map id stored;
  inv_bound : (size (runningJobs s) <= MAX_CONCURRENT_JOBS)%nat;
  inv_executing : dom (executing s) = runningJobs s;
  inv_running_session : forall i, i ∈ runningJobs s -> i ∈ map id session;
  inv_preparing_session : forall i, i ∈ preparing s -> i ∈ map id session;
  inv_status : forall j, j ∈ session -> status j = running ->
               exists snapshot,
                 executing s !! id j = Some (AwaitRun snapshot)
}.

(** A job enters ["running"] between two states of the list. *)
Definition entersRunning (before after : Job) : Prop :=
  status before <> running /\ status after = running.

(** The attempt counter of a job across one step: plus one when the job
    enters ["running"], unchanged otherwise. *)
Definition attemptsFollow (before after : Job) : Prop :=
  id after = id before
  /\ (entersRunning before after -> attempts after = attempts before + 1)
  /\ (~ entersRunning before after -> attempts after = attempts before).

(** The job list across one step: possibly one new job in front, with
    its counter at zero, and every older job in place. *)
Definition attemptsStep (before after : list Job) : Prop :=
  exists fresh kept,
    after = fresh ++ kept
    /\ Forall (fun job => attempts job = 0 /\ status job = uploading) fresh
    /\ Forall2 attemptsFollow before kept.

End SchedulerSpec.

(** ** Sample data *)

Module Samples.
Import Jobs.

(** A persisted index with one complete record, one record whose write
    was cut short and one value that is not a record. *)
Definition sampleIndex : Js.JSON :=
  Js.JArr
    [ Js.JObj [ ("id", Js.JStr "job_1_abc123");
                ("modelId", Js.JStr "kling");
                ("prompt", Js.JStr "a cat on a skateboard");
                ("createdAt", Js.JNum 1700000000000);
                ("events", Js.JArr [Js.JStr "IN_QUEUE"; Js.JNum 7]);
                ("localKey", Js.JStr "downloads-kling-1-abc123.mp4");
                ("localUrl", Js.JStr "/assets/downloads-kling-1-abc123.mp4");
                ("storagePath", Js.JStr "downloads") ];
      Js.JObj [ ("id", Js.JStr "job_2_def456");
                ("localKey", Js.JStr "downloads-kling-2-def456.mp4") ];
      Js.JStr "not a record" ].

Definition sampleHost : Host :=
  {| JSON_parse := fun text =>
       if String.eqb text "index" then Some sampleIndex
       else if String.eqb text "{}" then Some (Js.JObj [])
       else None;
     JSON_stringify := fun _ => "7";
     createId := fun _ => "job_0_zzzzzz";
     Date_now := fun _ => 1700000000500%Z;
     encodeURIComponent := fun s => s;
     formatCompactTimestamp := Js.numberToString;
     DEFAULT_MODEL_ID := "kling" |}.

Definition samplePayload : Payload.UnifiedPayload :=
  {| Payload.modelId := "kling"; Payload.prompt := "a dog on a surfboard";
     Payload.start_frame_url := ""; Payload.end_frame_url := None;
     Payload.duration := Some (Payload.DurationNumber 5);
     Payload.aspect_ratio := Some "16:9"; Payload.resolution := None;
     Payload.fps := None; Payload.generate_audio := None;
     Payload.negative_prompt := None; Payload.cfg_scale := None;
     Payload.prompt_optimizer := None |}.

Definition sampleModel : Prepare.ModelSpec :=
  {| Prepare.specId := "kling";
     Prepare.supports := {| Prepare.endFrame := Prepare.FlagTrue;
                            Prepare.audio := Prepare.FlagFalse |} |}.

(** Files are named by strings; the start frame uploads, anything else
    is refused by the network. *)
Definition sampleUpload (file : string) : Prepare.UploadOutcome :=
  if String.eqb file "start.png"
  then Prepare.UploadResolved (Prepare.UploadText "https://cdn.example/start.png")
  else Prepare.UploadRejected (Js.ErrorObject "network down").

Definition sampleJob : Job :=
  newJob "job_3_new001" "kling" "a dog on a surfboard" 1700000001000
         None "downloads".

Definition sampleStored : list Job :=
  Store.loadStoredJobs sampleHost (Some "index").

(** The job that rehydration builds from the complete record. *)
Definition sampleRehydrated : Job :=
  {| id := "job_1_abc123"; modelId := "kling";
     prompt := "a cat on a skateboard";
     status := success; createdAt := 1700000000000; attempts := 1;
     payload := None;
     videoUrl := Some "/assets/downloads-kling-1-abc123.mp4";
     errorMessage := None; raw := None; preview := None;
     events := ["IN_QUEUE"; "7"];
     storagePath := "downloads";
     localKey := Some "downloads-kling-1-abc123.mp4";
     localUrl := Some "/assets/downloads-kling-1-abc123.mp4";
     saving := Some false; saved := Some true; saveError := None |}.

Definition sampleSubmitted : Scheduler.State :=
  Scheduler.submit sampleJob (Scheduler.initial sampleStored).

Definition samplePrepared : Scheduler.State :=
  Scheduler.prepared "job_3_new001"
    (Prepare.prepareJobPayload sampleUpload "job_3_new001" sampleModel
       samplePayload "start.png" None)
    sampleSubmitted.

Definition sampleRunning : Scheduler.State := Scheduler.tick samplePrepared.

(** The provider rejects the run of the new job, the user retries it and
    the scheduling effect starts it again. *)
Definition sampleRejected : Scheduler.State :=
  match head (Scheduler.jobs samplePrepared) with
  | Some job =>
      Scheduler.runRejected job (Js.ErrorObject "provider unavailable")
        sampleRunning
  | None => sampleRunning
  end.

Definition sampleRetried : Scheduler.State :=
  match head (Scheduler.jobs sampleRejected) with
  | Some job => Scheduler.retry job sampleRejected
  | None => sampleRejected
  end.

Definition sampleSecondRun : Scheduler.State := Scheduler.tick sampleRetried.

(** A job whose run failed after it had been enqueued. *)
Definition sampleFailed : Job :=
  {| id := "job_4_err002"; modelId := "kling"; prompt := "a bird";
     status := error; createdAt := 1700000002000; attempts := 1;
     payload := Some samplePayload; videoUrl := None;
     errorMessage := Some "Video URL not found in response";
     raw := None; preview := None; events := ["IN_QUEUE"];
     storagePath := "downloads"; localKey := None; localUrl := None;
     saving := Some false; saved := Some false; saveError := None |}.

(** A job that succeeded at the provider and whose video is being
    saved. *)
Definition sampleSucceeded : Job :=
  {| id := "job_5_ok0003"; modelId := "kling"; prompt := "a fish";
     status := success; createdAt := 1700000003000; attempts := 1;
     payload := Some samplePayload;
     videoUrl := Some "https://provider.example/out.mp4";
     errorMessage := None; raw := None; preview := None; events := [];
     storagePath := "downloads";
     localKey := Some "downloads-kling-1700000003000-ok0003.mp4";
     localUrl := None;
     saving := Some true; saved := Some false; saveError := None |}.

Definition sampleFailedPersist : Persist.Run :=
  {| Persist.download := Persist.FetchResponse false 404;
     Persist.readBody := None;
     Persist.store := Persist.FetchResponse true 200 |}.

Definition sampleClips : FileName.NameParts :=
  {| FileName.id := "job_1700000000000_a1b2c3"; FileName.modelId := "Kling 2.5";
     FileName.createdAt := 1700000000000; FileName.storagePath := "Clips" |}.


End Samples.

(** ** The page as rendered: retry only through its button *)

Module Lifecycle.
Import Jobs Scheduler.

(** The steps of [Scheduler.step], with Retry clicked only where the
    history panel renders the button. *)
Inductive uiStep (h : Host) : State -> State -> Prop :=
| ui_submit s jobId model promptText now startPreview path :
    jobId ∉ map id (jobs s) ->
    uiStep h s (submit (newJob jobId model promptText now startPreview path) s)
| ui_prepared s File (storage_upload : File -> Prepare.UploadOutcome)
      jobId model basePayload start end_ :
    jobId ∈ preparing s ->
    uiStep h s (prepared jobId
                  (Prepare.prepareJobPayload storage_upload jobId model
                     basePayload start end_) s)
| ui_tick s :
    uiStep h s (tick s)
| ui_queueUpdate s job event :
    executing s !! id job = Some (AwaitRun job) ->
    uiStep h s (queueUpdate (id job) event s)
| ui_runResolved s job resultUrl resultRaw :
    executing s !! id job = Some (AwaitRun job) ->
    uiStep h s (runResolved h job resultUrl resultRaw s)
| ui_runRejected s job e :
    executing s !! id job = Some (AwaitRun job) ->
    uiStep h s (runRejected job e s)
| ui_persistSettled s jobId fileName videoUrl run :
    executing s !! jobId = Some (AwaitPersist fileName videoUrl) ->
    uiStep h s (persistSettled h jobId fileName videoUrl run s)
| ui_retry s job :
    job ∈ jobs s ->
    retryOffered job = true ->
    uiStep h s (retry job s).

Inductive uiReachable (h : Host) (stored : list Job) : State -> Prop :=
| ui_initial : uiReachable h stored (initial stored)
| ui_step s s' :
    uiReachable h stored s -> uiStep h s s' -> uiReachable h stored s'.

(** The status changes that one step may make to a job. *)
Definition allowedTransition (before after : JobStatus) : bool :=
  match before, after with
  | uploading, queued | uploading, error
  | queued, running
  | running, success | running, error
  | error, queued => true
  | _, _ => bool_decide (before = after)
  end.

(** The fields of a job that no update writes. *)
Definition sameIdentity (before after : Job) : Prop :=
  id after = id before /\ modelId after = modelId before
  /\ prompt after = prompt before /\ createdAt after = createdAt before
  /\ storagePath after = storagePath before
  /\ preview after = preview before.

(** What every step keeps of a job: its identity, and its event log
    up to what the step appends. *)
Definition keeps (before after : Job) : Prop :=
  sameIdentity before after /\ events before `prefix_of` events after.

(** What one entry of the job list may do across a step. *)
Definition moves (before after : Job) : Prop :=
  sameIdentity before after
  /\ allowedTransition (status before) (status after) = true.

(** What a step of the rendered page may do to the status of a job:
    ["success"] is final, and a job reaches ["running"] only from
    ["queued"] and ["success"] only from ["running"]. *)
Definition advances (before after : Job) : Prop :=
  allowedTransition (status before) (status after) = true
  /\ (status before = success -> status after = success)
  /\ (status after = success ->
      status before = running \/ status before = success)
  /\ (status after = running ->
      status before = queued \/ status before = running).

(** The payload of a job goes with its status. *)
Definition payloadFits (job : Job) : Prop :=
  (status job = uploading -> payload job = None)
  /\ (status job = queued \/ status job = running -> is_Some (payload job)).

(** What the suspended work says about the status of its job. *)
Record Tracked (s : State) : Prop := {
  tr_payload : Forall payloadFits (jobs s);
  tr_preparing : forall i j,
      i ∈ preparing s -> j ∈ jobs s -> id j = i -> status j = uploading;
  tr_run : forall i snapshot j,
      executing s !! i = Some (AwaitRun snapshot) ->
      j ∈ jobs s -> id j = i -> status j = running;
  tr_persist : forall i fileName videoUrl j,
      executing s !! i = Some (AwaitPersist fileName videoUrl) ->
      j ∈ jobs s -> id j = i -> status j = success
}.

(** The job list across one step, compared entry by entry with [R]; a
    submitted job is new in front. *)
Definition related (R : Job -> Job -> Prop) (before after : list Job)
    : Prop :=
  exists fresh kept,
    after = fresh ++ kept
    /\ (length fresh <= 1)%nat
    /\ Forall (fun job => status job = uploading) fresh
    /\ Forall2 R before kept.

End Lifecycle.

(** ** Shape of a sanitized segment *)

Module Segment.
Import FileName.

(** No two hyphens in a row. *)
Definition spaced (cs : list ascii) : Prop :=
  forall i, cs !! i = Some hyphen -> cs !! S i <> Some hyphen.

(** Text of ASCII characters (code units below 128), the text on which
    [toLowerCase] is [lowerChar] character by character. *)
Definition isAsciiText (value : string) : bool :=
  forallb (fun c => (nat_of_ascii c <? 128)%nat) (list_ascii_of_string value).

End Segment.

(** ** The local copy of a finished video *)

Module Saving.
Import Jobs Scheduler.

(** The argument that [startJobExecution] hands to
    [buildVideoFileName]. *)
Definition nameParts (job : Job) : FileName.NameParts :=
  {| FileName.id := id job; FileName.modelId := modelId job;
     FileName.createdAt := createdAt job;
     FileName.storagePath := storagePath job |}.

(** What the responses to [handleDownload]'s requests are. *)
Record DownloadRun := {
  response : Persist.FetchOutcome;     (* [await fetch(sourceUrl)] *)
  blob : option Js.Thrown              (* [Some e]: [response.blob()] threw *)
}.

(** What the user sees of [handleDownload]. *)
Inductive DownloadResult :=
| Ignored                                   (* returned before any request *)
| Offered (sourceUrl filename : string)     (* the anchor was clicked *)
| Alerted (sourceUrl message : string).     (* [window.alert] *)

Definition fallbackName (h : Host) (job : Job) : string :=
  (Js.orElse (FileName.sanitizeFileSegment (modelId job)) "video" ++ "-"
     ++ formatCompactTimestamp h (createdAt job) ++ ".mp4")%string.

(** [handleDownload]. *)
Definition handleDownload (h : Host) (run : DownloadRun) (job : Job)
    : DownloadResult :=
  match Js.nullish (localUrl job) (videoUrl job) with
  | None => Ignored
  | Some sourceUrl =>
      if negb (Js.truthy sourceUrl) then Ignored
      else
        match response run with
        | Persist.FetchRejected e =>
            Alerted sourceUrl (Attempt.messageOr "Unable to download video." e)
        | Persist.FetchResponse false status =>
            Alerted sourceUrl
              ("Failed to fetch video (" ++ Js.numberToString status ++ ")")%string
        | Persist.FetchResponse true _ =>
            match blob run with
            | Some e =>
                Alerted sourceUrl
                  (Attempt.messageOr "Unable to download video." e)
            | None =>
                Offered sourceUrl
                  (default (fallbackName h job) (localKey job))
            end
        end
  end.

(** The fields that describe the result of a job and its local copy. *)
Definition sameCopy (before after : Job) : Prop :=
  videoUrl after = videoUrl before /\ localKey after = localKey before
  /\ localUrl after = localUrl before /\ saved after = saved before.

(** A job whose video is still to be stored under [fileName]. *)
Definition awaitsCopy (h : Host) (fileName : string) (job : Job) : Prop :=
  saved job = Some false /\ localUrl job = None
  /\ localKey job = Some fileName
  /\ fileName = FileName.buildVideoFileName h (nameParts job).

(** The local copy of a job goes with its status. *)
Definition copyFits (job : Job) : Prop :=
  (status job <> success ->
     saved job = Some false /\ videoUrl job = None
     /\ localKey job = None /\ localUrl job = None)
  /\ (status job = success ->
        (saved job = Some true /\ Store.isCompleted job = true
         /\ videoUrl job = localUrl job)
        \/ (saved job = Some false /\ localUrl job = None
            /\ is_Some (videoUrl job))).

(** What the suspended work says about the local copy of its job. *)
Record Saved (h : Host) (s : State) : Prop := {
  sv_jobs : Forall copyFits (jobs s);
  sv_run : forall i snapshot j,
      executing s !! i = Some (AwaitRun snapshot) ->
      j ∈ jobs s -> id j = i -> nameParts j = nameParts snapshot;
  sv_persist : forall i fileName url j,
      executing s !! i = Some (AwaitPersist fileName url) ->
      j ∈ jobs s -> id j = i -> awaitsCopy h fileName j
}.

End Saving.

(** ** More of JavaScript: substring search and the truthiness of parsed
    values *)

Module JsMore.

(** [s.includes(needle)]. *)
Fixpoint includes (needle s : string) : bool :=
  String.prefix needle s
  || match s with
     | EmptyString => false
     | String _ rest => includes needle rest
     end.

(** Truthiness of a parsed value. *)
Definition truthyValue (v : Js.JSON) : bool :=
  match v with
  | Js.JNull => false
  | Js.JBool b => b
  | Js.JNum n => negb (n =? 0)%Z
  | Js.JStr s => Js.truthy s
  | Js.JArr _ | Js.JObj _ => true
  end.

End JsMore.

(** ** The asset store of the development server ([vite.config.ts]) *)

Module AssetServer.
Import JsMore.

(** [url.split("?")[0]]. *)
Fixpoint beforeQuery (url : string) : string :=
  match url with
  | EmptyString => EmptyString
  | String c rest =>
      if Ascii.eqb c "?" then EmptyString else String c (beforeQuery rest)
  end.

(** [s.slice(n)]. *)
Fixpoint sliceFrom (n : nat) (s : string) : string :=
  match n, s with
  | O, _ => s
  | S n', String _ rest => sliceFrom n' rest
  | S _, EmptyString => EmptyString
  end.

(** What the handler uses of Node. *)
Record Node := {
  (** [OUT_DIR]. *)
  OUT_DIR : string;
  (** [decodeURIComponent]. *)
  decodeURIComponent : string -> string + Js.Thrown;
  (** [path.isAbsolute]. *)
  path_isAbsolute : string -> bool;
  (** [path.join(OUT_DIR, relative)]. *)
  path_join : string -> string;
  (** [path.extname(filePath).toLowerCase()]. *)
  extension : string -> string;
  (** [JSON.parse] of a request body. *)
  parse : string -> Js.JSON + Js.Thrown;
  (** [Buffer.from(data, "base64")]. *)
  Buffer_from : Js.JSON -> list Byte.byte + Js.Thrown;
  (** The error of calling a method that the value does not have. *)
  notAFunction : Js.Thrown;
  (** The error of [path.join] on an argument that is not a string. *)
  invalidPath : Js.Thrown
}.

(** The files and directories of the disk, by path. *)
Inductive Entry :=
| File (content : list Byte.byte)
| Directory.

(** Whether the calls that change the disk throw this time. *)
Record Faults := {
  mkdirThrows : option Js.Thrown;
  writeThrows : option Js.Thrown
}.

Record Request := {
  method : string;
  url : option string;
  body : string          (* the chunks, once [end] is emitted *)
}.

Inductive Response :=
| Reply (statusCode : Z) (text : string)            (* [res.end(text)] *)
| Stream (contentType : string) (content : list Byte.byte)
| Next                                              (* [next()] *)
| Uncaught (e : Js.Thrown).           (* the exception leaves the handler *)

Definition getMimeType (node : Node) (filePath : string) : string :=
  let ext := extension node filePath in
  if String.eqb ext ".png" then "image/png"
  else if String.eqb ext ".jpg" then "image/jpeg"
  else if String.eqb ext ".jpeg" then "image/jpeg"
  else if String.eqb ext ".webp" then "image/webp"
  else if String.eqb ext ".gif" then "image/gif"
  else "application/octet-stream".

(** [fs.mkdirSync(OUT_DIR, { recursive: true })], when it does not
    throw. *)
Definition ensureOutDir (node : Node) (disk : gmap string Entry) : gmap string Entry :=
  match disk !! OUT_DIR node with
  | Some _ => disk
  | None => <[ OUT_DIR node := Directory ]> disk
  end.

(** [!payload?.field]. *)
Definition missing (field : string) (payload : Js.JSON) : bool :=
  match Js.get field payload with
  | Some v => negb (truthyValue v)
  | None => true
  end.

Definition isText (text : string) (v : Js.JSON) : bool :=
  match v with
  | Js.JStr s => String.eqb s text
  | _ => false
  end.

(** [name.includes(part)] on the value of [payload.name]: the method of
    a string or of an array; no other value has it. *)
Definition nameIncludes (node : Node) (part : string) (name : Js.JSON)
    : bool + Js.Thrown :=
  match name with
  | Js.JStr s => inl (includes part s)
  | Js.JArr items => inl (existsb (isText part) items)
  | _ => inr (notAFunction node)
  end.

(** The [GET /assets/...] branch. *)
Definition serveAsset (node : Node) (faults : Faults) (disk : gmap string Entry)
    (pathname : string) : Response * gmap string Entry :=
  let relativeEncoded := sliceFrom (String.length "/assets/") pathname in
  match decodeURIComponent node relativeEncoded with
  | inr e => (Uncaught e, disk)
  | inl relative =>
      if negb (Js.truthy relative) || includes ".." relative
         || includes "\" relative || path_isAbsolute node relative
      then (Reply 400 "Invalid asset path", disk)
      else
        match mkdirThrows faults with
        | Some e => (Uncaught e, disk)
        | None =>
            let disk' := ensureOutDir node disk in
            let targetPath := path_join node relative in
            match disk' !! targetPath with
            | Some (File content) =>
                (Stream (getMimeType node targetPath) content, disk')
            | _ => (Reply 404 "Not found", disk')
            end
        end
  end.

(** The [try] block of the [POST /api/assets] branch; the disk is
    returned as the block leaves it. *)
Definition storeAsset (node : Node) (faults : Faults) (disk : gmap string Entry)
    (raw : string) : (Response + Js.Thrown) * gmap string Entry :=
  match parse node raw with
  | inr e => (inr e, disk)
  | inl payload =>
      if missing "name" payload || missing "data" payload
      then (inl (Reply 400 "Invalid payload"), disk)
      else
        let name := default Js.JNull (Js.get "name" payload) in
        let data := default Js.JNull (Js.get "data" payload) in
        match nameIncludes node ".." name with
        | inr e => (inr e, disk)
        | inl true => (inl (Reply 400 "Invalid filename"), disk)
        | inl false =>
        match nameIncludes node "/" name with
        | inr e => (inr e, disk)
        | inl true => (inl (Reply 400 "Invalid filename"), disk)
        | inl false =>
        match nameIncludes node "\" name with
        | inr e => (inr e, disk)
        | inl true => (inl (Reply 400 "Invalid filename"), disk)
        | inl false =>
            match mkdirThrows faults with
            | Some e => (inr e, disk)
            | None =>
                let disk' := ensureOutDir node disk in
                match name with
                | Js.JStr fileName =>
                    let targetPath := path_join node fileName in
                    match Buffer_from node data with
                    | inr e => (inr e, disk')
                    | inl buffer =>
                        match writeThrows faults with
                        | Some e => (inr e, disk')
                        | None =>
                            (inl (Reply 200 "ok"),
                             <[ targetPath := File buffer ]> disk')
                        end
                    end
                | _ => (inr (invalidPath node), disk')
                end
            end
        end end end
  end.

(** The [POST /api/assets] branch, once the body has arrived. *)
Definition receiveAsset (node : Node) (faults : Faults) (disk : gmap string Entry)
    (raw : string) : Response * gmap string Entry :=
  match storeAsset node faults disk raw with
  | (inl response, disk') => (response, disk')
  | (inr e, disk') =>
      (Reply 500 (Attempt.messageOr "Failed to store asset." e), disk')
  end.

(** The middleware. *)
Definition handler (node : Node) (faults : Faults) (disk : gmap string Entry)
    (req : Request) : Response * gmap string Entry :=
  let pathname := beforeQuery (default "" (url req)) in
  if String.eqb (method req) "GET" && String.prefix "/assets/" pathname
  then serveAsset node faults disk pathname
  else if String.eqb (method req) "POST" && String.prefix "/api/assets" pathname
  then receiveAsset node faults disk (body req)
  else (Next, disk).

(** The characters that the name check of the store looks for. *)
Definition plainChar (c : ascii) : Prop :=
  c <> "."%char /\ c <> "/"%char /\ c <> "\"%char.

(** The files of a disk. *)
Definition fileAt (disk : gmap string Entry) (p : string) : option (list Byte.byte) :=
  match disk !! p with
  | Some (File content) => Some content
  | _ => None
  end.

End AssetServer.

(** ** The history item of [localStorage] *)

Module History.

(** The answer of [localStorage] to a request: the request is carried
    out, or it throws (the quota is exceeded, storage is disabled) and
    nothing is stored. *)
Inductive Answer :=
| Done
| Refused (e : Js.Thrown).

(** The item stored under [key] after a request and its answer.
    [persistStoredJobs] and [persistRenders] make the request inside a
    [try] whose [catch] is empty, so a refused request leaves the item as
    it was and nothing is reported. *)
Definition itemAfter (key : string) (op : Store.StorageOp)
    (answer : Answer) (before : option string) : option string :=
  match answer with
  | Refused _ => before
  | Done =>
      match op with
      | Store.RemoveItem k => if String.eqb k key then None else before
      | Store.SetItem k v => if String.eqb k key then Some v else before
      end
  end.

End History.

(** ** The model catalogue and the provider call ([lib/models.ts],
    [lib/fal.ts])

    Property reads see own properties only: parameter names, payload keys
    and path segments are not names of members of [Object.prototype].  The
    model id is the caller's, and its lookup in [MODEL_SPEC_MAP] does see
    the members that the map inherits. *)

Module Models.

(** A [FalInputValue] other than [undefined]. *)
Inductive Value :=
| VText (s : string)
| VNumber (q : Q)
| VFlag (b : bool).

(** [a === b]. *)
Definition strictEq (a b : Value) : bool :=
  match a, b with
  | VText s, VText t => String.eqb s t
  | VNumber p, VNumber q => Qeq_bool p q
  | VFlag x, VFlag y => Bool.eqb x y
  | _, _ => false
  end.

Inductive ParamType := TString | TEnum | TNumber | TBoolean.

Record ParamDefinition := {
  type : ParamType;
  required : option bool;
  values : option (list Value);
  defaultValue : option Value;       (* the field [default] *)
  uiKey : option string
}.

(** An object keyed by strings, in the order in which the keys were
    added. *)
Definition Input : Type := list (string * Value).

Record Adapter := {
  mapInput : Payload.UnifiedPayload -> Input;
  getVideoUrl : Js.JSON -> option string
}.

Record Supports := {
  startFrame : Prepare.SupportFlag;
  endFrame : Prepare.SupportFlag;
  audio : Prepare.SupportFlag;
  resolution : Prepare.SupportFlag;
  aspectRatio : Prepare.SupportFlag;
  fps : Prepare.SupportFlag
}.

Record ModelSpec := {
  id : string;
  endpoint : string;
  label : option string;
  supports : Supports;
  (** [Object.entries(model.params)]. *)
  params : list (string * option ParamDefinition);
  videoPath : string;                (* [output.videoPath] *)
  adapter : option Adapter
}.

(** [unified[key]]. *)
Definition unifiedValue (unified : Payload.UnifiedPayload) (key : string)
    : option Value :=
  if String.eqb key "modelId" then Some (VText (Payload.modelId unified))
  else if String.eqb key "prompt" then Some (VText (Payload.prompt unified))
  else if String.eqb key "start_frame_url"
  then Some (VText (Payload.start_frame_url unified))
  else if String.eqb key "end_frame_url"
  then VText <$> Payload.end_frame_url unified
  else if String.eqb key "duration"
  then match Payload.duration unified with
       | Some (Payload.DurationText s) => Some (VText s)
       | Some (Payload.DurationNumber n) => Some (VNumber (inject_Z n))
       | None => None
       end
  else if String.eqb key "aspect_ratio"
  then VText <$> Payload.aspect_ratio unified
  else if String.eqb key "resolution"
  then VText <$> Payload.resolution unified
  else if String.eqb key "fps"
  then (fun n => VNumber (inject_Z n)) <$> Payload.fps unified
  else if String.eqb key "generate_audio"
  then VFlag <$> Payload.generate_audio unified
  else if String.eqb key "negative_prompt"
  then VText <$> Payload.negative_prompt unified
  else if String.eqb key "cfg_scale"
  then VNumber <$> Payload.cfg_scale unified
  else if String.eqb key "prompt_optimizer"
  then VFlag <$> Payload.prompt_optimizer unified
  else None.

Definition SAFE_END_KEYS : list string :=
  ["tail_image_url"; "last_frame_url"].

Definition coerceEnumValue (value : option Value) (allowed : list Value)
    (fallback : option Value) : option Value :=
  match value with
  | None => fallback
  | Some v => if existsb (fun option => strictEq option v) allowed
              then Some v else fallback
  end.

Definition hasKey (key : string) (input : Input) : bool :=
  existsb (fun entry => String.eqb (fst entry) key) input.

(** [input[key] = v]. *)
Definition assign (key : string) (v : Value) (input : Input) : Input :=
  if hasKey key input
  then map (fun entry => if String.eqb (fst entry) key then (key, v)
                         else entry) input
  else input ++ [(key, v)].

(** [delete input[key]]. *)
Definition deleteKey (key : string) (input : Input) : Input :=
  filter (fun entry => fst entry <> key) input.

Definition isRequired (definition : ParamDefinition) : bool :=
  match required definition with
  | Some b => b
  | None => false
  end.

(** One turn of the loop over [Object.entries(model.params)]. *)
Definition collectParam (unified : Payload.UnifiedPayload)
    (entry : string * option ParamDefinition) (input : Input)
    : Attempt.Outcome Input :=
  let paramKey := fst entry in
  match snd entry with
  | None => Attempt.Returned input
  | Some definition =>
      let key := default paramKey (uiKey definition) in
      let value := unifiedValue unified key in
      match type definition, values definition with
      | TEnum, Some allowed =>
          match coerceEnumValue value allowed (defaultValue definition) with
          | Some coerced => Attempt.Returned (assign paramKey coerced input)
          | None =>
              if isRequired definition
              then Attempt.Threw
                     (Js.ErrorObject
                        ("Missing required enum value for " ++ paramKey))
              else Attempt.Returned input
          end
      | _, _ =>
          match value with
          | Some v => Attempt.Returned (assign paramKey v input)
          | None =>
              match defaultValue definition with
              | Some v => Attempt.Returned (assign paramKey v input)
              | None =>
                  if isRequired definition
                  then Attempt.Threw
                         (Js.ErrorObject
                            ("Missing required param: " ++ key ++ " → "
                               ++ paramKey))
                  else Attempt.Returned input
              end
          end
      end
  end.

(** The loop. *)
Fixpoint collectParams (unified : Payload.UnifiedPayload)
    (entries : list (string * option ParamDefinition)) (input : Input)
    : Attempt.Outcome Input :=
  match entries with
  | [] => Attempt.Returned input
  | entry :: rest =>
      match collectParam unified entry input with
      | Attempt.Returned input' => collectParams unified rest input'
      | Attempt.Threw e => Attempt.Threw e
      end
  end.

Definition stripEndKeys (input : Input) : Input :=
  fold_left (fun acc key => deleteKey key acc) SAFE_END_KEYS input.

Definition buildFalInput (model : ModelSpec)
    (unified : Payload.UnifiedPayload) : Attempt.Outcome Input :=
  match adapter model with
  | Some a => Attempt.Returned (mapInput a unified)
  | None =>
      match collectParams unified (params model) [] with
      | Attempt.Threw e => Attempt.Threw e
      | Attempt.Returned input =>
          if negb (Prepare.isSupportEnabled (endFrame (supports model)))
          then Attempt.Returned (stripEndKeys input)
          else if negb (Js.truthyOpt (Payload.end_frame_url unified))
          then Attempt.Returned (stripEndKeys input)
          else Attempt.Returned input
      end
  end.

(** [path.split(".")]. *)
Fixpoint splitDots (path : string) : list string :=
  match path with
  | EmptyString => [EmptyString]
  | String c rest =>
      if Ascii.eqb c "." then EmptyString :: splitDots rest
      else match splitDots rest with
           | first :: others => String c first :: others
           | [] => [String c EmptyString]
           end
  end.

Definition getPathSegments (path : string) : list string :=
  filter (fun segment => segment <> "") (splitDots path).

Definition digitValue (c : ascii) : option nat :=
  let n := nat_of_ascii c in
  if (48 <=? n)%nat && (n <=? 57)%nat then Some (n - 48)%nat else None.

Fixpoint digitsValue (acc : nat) (s : string) : option nat :=
  match s with
  | EmptyString => Some acc
  | String c rest =>
      match digitValue c with
      | Some d => digitsValue (10 * acc + d) rest
      | None => None
      end
  end.

(** The array index that a property name denotes, if any: a decimal
    numeral without superfluous zeros. *)
Definition arrayIndex (name : string) : option nat :=
  match name with
  | EmptyString => None
  | String c rest =>
      if Ascii.eqb c "0" then
        match rest with EmptyString => Some O | _ => None end
      else digitsValue 0 name
  end.

(** [current[segment]] on an object or an array; [None] is
    [undefined]. *)
Definition member (segment : string) (current : Js.JSON) : option Js.JSON :=
  match current with
  | Js.JObj fields => Js.assoc segment fields
  | Js.JArr items =>
      if String.eqb segment "length"
      then Some (Js.JNum (Z.of_nat (length items)))
      else match arrayIndex segment with
           | Some i => items !! i
           | None => None
           end
  | _ => None
  end.

(** The loop of [extractVideoUrl]; [None] says that it returned
    [undefined] early, otherwise the final [current]. *)
Fixpoint walk (segments : list string) (current : option Js.JSON)
    : option (option Js.JSON) :=
  match segments with
  | [] => Some current
  | segment :: rest =>
      match current with
      | Some (Js.JObj _ as v) | Some (Js.JArr _ as v) =>
          walk rest (member segment v)
      | _ => None
      end
  end.

Definition extractVideoUrl (model : ModelSpec) (data : Js.JSON)
    : option string :=
  match adapter model with
  | Some a => getVideoUrl a data
  | None =>
      match walk (getPathSegments (videoPath model)) (Some data) with
      | Some current => Js.asString current
      | None => None
      end
  end.

(** The names of the members that a plain object inherits from
    [Object.prototype]. *)
Definition OBJECT_PROTOTYPE_KEYS : list string :=
  ["constructor"; "hasOwnProperty"; "isPrototypeOf"; "propertyIsEnumerable";
   "toLocaleString"; "toString"; "valueOf"; "__proto__";
   "__defineGetter__"; "__defineSetter__"; "__lookupGetter__";
   "__lookupSetter__"].

(** What [MODEL_SPEC_MAP[modelId]] evaluates to when it is not
    [undefined]: a spec of the catalogue, or a member inherited from
    [Object.prototype] (a function, or the prototype itself for
    ["__proto__"]).  An inherited member is truthy and has neither
    [adapter] nor [params]. *)
Inductive Entry :=
| Registered (spec : ModelSpec)
| Inherited.

(** [MODEL_SPEC_MAP[modelId]] for the catalogue [MODEL_SPECS].  The map is
    a plain object made by [Object.fromEntries]: of two specs with one id
    it keeps the later, an own property hides an inherited one, and an id
    that is no own property is looked up in [Object.prototype]. *)
Definition MODEL_SPEC_MAP (catalogue : list ModelSpec) (modelId : string)
    : option Entry :=
  match last (filter (fun spec => id spec = modelId) catalogue) with
  | Some spec => Some (Registered spec)
  | None =>
      if existsb (String.eqb modelId) OBJECT_PROTOTYPE_KEYS
      then Some Inherited
      else None
  end.

Definition getModelSpec (catalogue : list ModelSpec) (modelId : string)
    : Attempt.Outcome Entry :=
  match MODEL_SPEC_MAP catalogue modelId with
  | Some spec => Attempt.Returned spec
  | None => Attempt.Threw (Js.ErrorObject ("Unknown model id: " ++ modelId))
  end.

(** The answer of [client.subscribe]: a rejection, or a result of which
    the code reads [data]. *)
Inductive SubscribeOutcome :=
| SubscribeRejected (e : Js.Thrown)
| SubscribeResolved (data : Js.JSON).

Inductive Call :=
| CallSubscribe (endpoint : string) (input : Input).

Definition lift {A} (o : Attempt.Outcome A) : Attempt.M Call A := ([], o).

Definition subscribe (answer : string -> Input -> SubscribeOutcome)
    (endpoint : string) (input : Input) : Attempt.M Call Js.JSON :=
  Attempt.call (CallSubscribe endpoint input) ;;
  match answer endpoint input with
  | SubscribeRejected e => Attempt.throw e
  | SubscribeResolved data => mret data
  end.

(** [if (!url) throw ...; return { url, raw }]. *)
Definition requireVideoUrl (url : option string) (data : Js.JSON)
    : Attempt.M Call (string * Js.JSON) :=
  match url with
  | Some u =>
      if Js.truthy u then mret (u, data)
      else Attempt.throw (Js.ErrorObject "Video URL not found in response")
  | None => Attempt.throw (Js.ErrorObject "Video URL not found in response")
  end.

(** [runFal]; the queue updates that [client.subscribe] reports are
    the scheduler's [queueUpdate] steps.  When [getModelSpec] returns an
    inherited member, [buildFalInput] finds [model.adapter] undefined and
    calls [Object.entries] on [model.params], which is undefined too: that
    throws the [TypeError] [noObject]. *)
Definition runFal (noObject : Js.Thrown) (catalogue : list ModelSpec)
    (answer : string -> Input -> SubscribeOutcome)
    (modelId : string) (payload : Payload.UnifiedPayload)
    : Attempt.M Call (string * Js.JSON) :=
  entry ← lift (getModelSpec catalogue modelId);
  match entry with
  | Registered spec =>
      input ← lift (buildFalInput spec payload);
      data ← subscribe answer (endpoint spec) input;
      requireVideoUrl (extractVideoUrl spec data) data
  | Inherited => Attempt.throw noObject
  end.

End Models.

Module ModelsSpec.
Import Models.

(** The key of the unified payload that a parameter reads. *)
Definition sourceKey (paramKey : string) (definition : ParamDefinition)
    : string :=
  default paramKey (uiKey definition).

(** A parameter that is an enumeration with a list of values. *)
Definition enumValues (definition : ParamDefinition) : option (list Value) :=
  match type definition with
  | TEnum => values definition
  | _ => None
  end.

(** The value that [buildFalInput] sends for a parameter, if any. *)
Definition chosen (unified : Payload.UnifiedPayload) (paramKey : string)
    (definition : ParamDefinition) : option Value :=
  let value := unifiedValue unified (sourceKey paramKey definition) in
  match enumValues definition with
  | Some allowed => coerceEnumValue value allowed (defaultValue definition)
  | None => Js.nullish value (defaultValue definition)
  end.

(** A required parameter for which there is nothing to send. *)
Definition unprovided (unified : Payload.UnifiedPayload)
    (entry : string * option ParamDefinition) : bool :=
  match snd entry with
  | Some definition =>
      isRequired definition
      && negb (bool_decide (is_Some (chosen unified (fst entry) definition)))
  | None => false
  end.

Definition missingMessage (paramKey : string) (definition : ParamDefinition)
    : string :=
  match enumValues definition with
  | Some _ => "Missing required enum value for " ++ paramKey
  | None => "Missing required param: " ++ sourceKey paramKey definition
              ++ " → " ++ paramKey
  end.

(** Whether the end-frame keys survive: the model takes an end frame and
    the payload has one. *)
Definition endFrameSent (model : ModelSpec)
    (unified : Payload.UnifiedPayload) : bool :=
  Prepare.isSupportEnabled (endFrame (supports model))
  && Js.truthyOpt (Payload.end_frame_url unified).

(** A response that holds [leaf] at the end of a path. *)
Definition nest (segments : list string) (leaf : Js.JSON) : Js.JSON :=
  fold_right (fun segment inner => Js.JObj [(segment, inner)]) leaf segments.

End ModelsSpec.

(** ** The image models ([lib/image-models.ts]) *)

Module ImageModels.

(** The values of the object that [mapInput] builds. *)
Inductive Value :=
| VText (s : string)
| VNumber (q : Q)
| VFlag (b : bool)
| VUrls (urls : list string)
| VSize (size : Aspect.Size)
| VUndefined.

Record ImageJob := {
  prompt : string;
  imageUrls : list string;
  size : option Aspect.Size;
  seed : option Q;
  temporal : option bool;
  steps : option Q
}.

Inductive Mode := ModeEdit | ModeHybrid | ModeText.

(** An object keyed by strings, in the order of its keys. *)
Definition Input : Type := list (string * Value).

Record ImageModelSpec := {
  id : string;
  label : string;
  endpoint : string;
  mode : Mode;
  maxRefs : nat;
  mapInput : ImageJob -> Input;
  getUrls : option Js.JSON -> Attempt.Outcome (list Js.JSON)
}.

(** [...(value !== undefined ? { key: value } : {})]. *)
Definition whenDefined {A} (key : string) (inject : A -> Value)
    (value : option A) : Input :=
  match value with
  | Some v => [(key, inject v)]
  | None => []
  end.

(** [...(aspectRatio ? { aspect_ratio: aspectRatio } : {})]. *)
Definition aspectEntry (size : option Aspect.Size) : Input :=
  match Aspect.resolveAspectRatio size with
  | Some ratio => if Js.truthy ratio then [("aspect_ratio", VText ratio)]
                  else []
  | None => []
  end.

(** [...(size ? { image_size: size } : {})]. *)
Definition sizeEntry (size : option Aspect.Size) : Input :=
  match size with
  | Some (Aspect.Preset name) =>
      if Js.truthy name then [("image_size", VSize (Aspect.Preset name))]
      else []
  | Some s => [("image_size", VSize s)]
  | None => []
  end.

(** The [getUrls] that every model of the catalogue carries;
    [notAFunction] is the error of calling [map] on a value that has no
    such method. *)
Definition getUrlsOf (notAFunction : Js.Thrown) (output : option Js.JSON)
    : Attempt.Outcome (list Js.JSON) :=
  match output ≫= Js.get "images" with
  | None | Some Js.JNull => Attempt.Returned []
  | Some (Js.JArr images) =>
      Attempt.Returned
        (filter (fun url => JsMore.truthyValue url = true)
                (omap (Js.get "url") images))
  | Some _ => Attempt.Threw notAFunction
  end.

Definition IMAGE_MODELS (notAFunction : Js.Thrown) : list ImageModelSpec :=
  [ {| id := "flux-kontext-pro";
       label := "Flux Kontext Pro";
       endpoint := "fal-ai/flux/kontext/pro";
       mode := ModeEdit;
       maxRefs := 4;
       mapInput := fun job =>
         [("prompt", VText (prompt job))]
         ++ (if (0 <? length (imageUrls job))%nat
             then [("image_urls", VUrls (take 4 (imageUrls job)))]
             else [])
         ++ aspectEntry (size job)
         ++ [("num_images", VNumber 1);
             ("output_format", VText "png");
             ("guidance_scale", VNumber (9 # 2))]
         ++ whenDefined "num_inference_steps" VNumber (steps job)
         ++ whenDefined "seed" VNumber (seed job);
       getUrls := getUrlsOf notAFunction |};
    {| id := "nano-banana-edit";
       label := "Nano Banana — Edit";
       endpoint := "fal-ai/nano-banana/edit";
       mode := ModeEdit;
       maxRefs := 4;
       mapInput := fun job =>
         [("prompt", VText (prompt job));
          ("image_urls", VUrls (take 4 (imageUrls job)))]
         ++ sizeEntry (size job)
         ++ whenDefined "seed" VNumber (seed job);
       getUrls := getUrlsOf notAFunction |};
    {| id := "nano-banana";
       label := "Nano Banana — Text";
       endpoint := "fal-ai/nano-banana";
       mode := ModeText;
       maxRefs := 0;
       mapInput := fun job =>
         [("prompt", VText (prompt job))]
         ++ aspectEntry (size job)
         ++ [("num_images", VNumber 1);
             ("output_format", VText "jpeg")];
       getUrls := getUrlsOf notAFunction |};
    {| id := "qwen-image-edit-plus";
       label := "Qwen Image Edit Plus (2509)";
       endpoint := "fal-ai/qwen-image-edit-plus";
       mode := ModeEdit;
       maxRefs := 4;
       mapInput := fun job =>
         [("prompt", VText (prompt job));
          ("image_urls", VUrls (take 4 (imageUrls job)));
          ("image_size",
           VSize (default (Aspect.Preset "square_hd") (size job)));
          ("num_inference_steps", VNumber (default 50%Q (steps job)));
          ("guidance_scale", VNumber 4);
          ("num_images", VNumber 1);
          ("enable_safety_checker", VFlag true);
          ("output_format", VText "png");
          ("acceleration", VText "regular")]
         ++ whenDefined "seed" VNumber (seed job);
       getUrls := getUrlsOf notAFunction |};
    {| id := "seedream-v4-edit";
       label := "Seedream v4 — Edit";
       endpoint := "fal-ai/bytedance/seedream/v4/edit";
       mode := ModeEdit;
       maxRefs := 4;
       mapInput := fun job =>
         [("prompt", VText (prompt job));
          ("image_urls", VUrls (take 4 (imageUrls job)))]
         ++ sizeEntry (size job)
         ++ whenDefined "seed" VNumber (seed job);
       getUrls := getUrlsOf notAFunction |};
    {| id := "chrono-edit";
       label := "Temporal Edit — Chrono Edit";
       endpoint := "fal-ai/chrono-edit";
       mode := ModeEdit;
       maxRefs := 1;
       mapInput := fun job =>
         [("prompt", VText (prompt job));
          ("image_url", match head (imageUrls job) with
                        | Some url => VText url
                        | None => VUndefined
                        end);
          ("enable_prompt_expansion", VFlag true);
          ("enable_safety_checker", VFlag true);
          ("enable_temporal_reasoning",
           VFlag (default true (temporal job)));
          ("num_inference_steps", VNumber (default 8%Q (steps job)));
          ("num_temporal_reasoning_steps", VNumber 8);
          ("output_format", VText "jpeg")]
         ++ whenDefined "seed" VNumber (seed job);
       getUrls := getUrlsOf notAFunction |} ].

(** What [client.subscribe] resolves with, as far as the code reads
    it. *)
Record SubscribeResult := {
  request_id : option string;
  requestId : option string;
  data : option Js.JSON
}.

Inductive SubscribeOutcome :=
| SubscribeRejected (e : Js.Thrown)
| SubscribeResolved (result : SubscribeResult).

(** [runImageJob]: one request, to the endpoint of the model and with
    the input that the model maps the job to. *)
Definition runImageJob
    (subscribe : string -> Input -> SubscribeOutcome)
    (spec : ImageModelSpec) (job : ImageJob) : SubscribeOutcome :=
  subscribe (endpoint spec) (mapInput spec job).

(** The reference images named by an input. *)
Definition referencesSent (input : Input) : list string :=
  flat_map (fun entry =>
              match snd entry with
              | VUrls urls =>
                  if String.eqb (fst entry) "image_urls" then urls else []
              | VText url =>
                  if String.eqb (fst entry) "image_url" then [url] else []
              | _ => []
              end) input.

End ImageModels.

(** ** The image tab ([components/ImageTab.tsx]) *)

Module ImageTab.

Record RenderAsset := {
  previewUrl : string;
  downloadUrl : string;
  fileName : string
}.

Record Render := {
  id : string;
  modelId : string;
  prompt : string;
  assets : list RenderAsset;
  refs : list string;
  size : option string;
  seed : option Z;
  temporal : option bool;
  createdAt : Z;
  raw : option Js.JSON
}.


(** *** Storing the assets of a render *)

(** [s.split("/")[1]], for a string that includes a slash. *)
Fixpoint untilSlash (s : string) : string :=
  match s with
  | EmptyString => EmptyString
  | String c rest =>
      if Ascii.eqb c "/" then EmptyString else String c (untilSlash rest)
  end.

Fixpoint afterSlash (s : string) : option string :=
  match s with
  | EmptyString => None
  | String c rest => if Ascii.eqb c "/" then Some rest else afterSlash rest
  end.

Definition extensionOf (blobType : string) : string :=
  if Js.truthy blobType && JsMore.includes "/" blobType
  then match afterSlash blobType with
       | Some rest => untilSlash rest
       | None => "bin"
       end
  else "bin".

(** What the collaborators answer while one asset is stored: the
    download, the reading and encoding of its body (which gives the
    type of the blob) and the POST to [/api/assets]. *)
Record AssetRun := {
  download : Persist.FetchOutcome;
  readBlob : string + Js.Thrown;
  store : Persist.FetchOutcome
}.

(** [`${renderId}-asset-${index + 1}-${stamp}`]. *)
Definition assetName (renderId stamp : string) (index : nat) : string :=
  (renderId ++ "-asset-" ++ Js.numberToString (Z.of_nat (index + 1))
     ++ "-" ++ stamp)%string.

(** [await response.blob()], [await blob.arrayBuffer()],
    [arrayBufferToBase64(...)] and the reading of [blob.type]. *)
Definition readType (answer : string + Js.Thrown)
    : Attempt.M Persist.Call string :=
  Attempt.call Persist.CallReadBody ;;
  match answer with
  | inr e => Attempt.throw e
  | inl blobType => mret blobType
  end.

Definition localAsset (h : Host) (name : string) : RenderAsset :=
  let localUrl := ("/assets/" ++ encodeURIComponent h name)%string in
  {| previewUrl := localUrl; downloadUrl := localUrl; fileName := name |}.

(** The [try] block of the callback of [urls.map]. *)
Definition storeOne (h : Host) (name url : string) (run : AssetRun)
    : Attempt.M Persist.Call RenderAsset :=
  response ← Persist.fetch (Persist.CallFetch url) (download run);
  Persist.requireOk (fst response) ("Failed to fetch asset " ++ url)%string ;;
  blobType ← readType (readBlob run);
  let name' := (name ++ "." ++ extensionOf blobType)%string in
  saveResponse ← Persist.fetch (Persist.CallStore name') (store run);
  Persist.requireOk (fst saveResponse) "Failed to persist asset" ;;
  mret (localAsset h name').

(** The callback of [urls.map], with its [catch]. *)
Definition storeOrFallBack (h : Host) (name url : string) (run : AssetRun)
    : list Persist.Call * RenderAsset :=
  match storeOne h name url run with
  | (log, Attempt.Returned asset) => (log, asset)
  | (log, Attempt.Threw _) =>
      (log, {| previewUrl := url; downloadUrl := url;
               fileName := (name ++ ".jpg")%string |})
  end.

(** [storeAssetsOnDisk] in the browser; [runs] answers for the URL at
    each position. *)
Definition storeAssetsOnDisk (h : Host) (runs : nat -> AssetRun)
    (urls : list string) (renderId : string) (createdAt : Z)
    : list (list Persist.Call * RenderAsset) :=
  let stamp := formatCompactTimestamp h createdAt in
  imap (fun index url =>
          storeOrFallBack h (assetName renderId stamp index) url
            (runs index))
       urls.

(** *** The render history *)

Definition asBoolean (o : option Js.JSON) : option bool :=
  match o with
  | Some (Js.JBool b) => Some b
  | _ => None
  end.

Definition strings (items : list Js.JSON) : list string :=
  omap (fun item => Js.asString (Some item)) items.

(** The callback of [assetsInput.map]; [None] is the [null] that the
    following [filter] removes. *)
Definition loadAsset (id : string) (index : nat) (asset : Js.JSON)
    : option RenderAsset :=
  if negb (Js.isObjectLike asset) then None
  else
    let previewUrl := Js.asString (Js.get "previewUrl" asset) in
    let downloadUrl :=
      match Js.asString (Js.get "downloadUrl" asset) with
      | Some url => Some url
      | None => previewUrl
      end in
    let fileName :=
      default (id ++ "-asset-" ++ Js.numberToString (Z.of_nat (index + 1))
                 ++ ".jpg")%string
              (Js.asString (Js.get "fileName" asset)) in
    match previewUrl, downloadUrl with
    | Some preview, Some download =>
        if negb (Js.truthy preview) || negb (Js.truthy download) then None
        else Some {| previewUrl := preview; downloadUrl := download;
                     fileName := fileName |}
    | _, _ => None
    end.

(** The assets of a record written before assets were stored. *)
Definition legacyAssets (id stamp : string) (urls : list Js.JSON)
    : list RenderAsset :=
  imap (fun index url =>
          {| previewUrl := url; downloadUrl := url;
             fileName := (id ++ "-asset-"
                            ++ Js.numberToString (Z.of_nat (index + 1))
                            ++ "-" ++ stamp ++ ".jpg")%string |})
       (strings urls).

(** The callback of [data.map] in [loadStoredRenders]. *)
Definition loadEntry (h : Host) (createLocalId : nat -> string)
    (defaultModelId : string) (i : nat) (entry : Js.JSON) : option Render :=
  if negb (Js.isObjectLike entry) then None
  else
    let id := default (createLocalId i) (Js.asString (Js.get "id" entry)) in
    let createdAt :=
      default (Date_now h i) (Js.asNumber (Js.get "createdAt" entry)) in
    let listed :=
      match Js.get "assets" entry with
      | Some (Js.JArr assetsInput) =>
          omap (fun x => x) (imap (loadAsset id) assetsInput)
      | _ => []
      end in
    let assets :=
      match listed, Js.get "urls" entry with
      | [], Some (Js.JArr urls) =>
          legacyAssets id (formatCompactTimestamp h createdAt) urls
      | _, _ => listed
      end in
    Some {| id := id;
            modelId := default defaultModelId
                               (Js.asString (Js.get "modelId" entry));
            prompt := default "" (Js.asString (Js.get "prompt" entry));
            assets := assets;
            refs := match Js.get "refs" entry with
                    | Some (Js.JArr items) => strings items
                    | _ => []
                    end;
            size := Js.asString (Js.get "size" entry);
            seed := Js.asNumber (Js.get "seed" entry);
            temporal := asBoolean (Js.get "temporal" entry);
            createdAt := createdAt;
            raw := None |}.

(** [loadStoredRenders]; [stored] is the result of
    [localStorage.getItem(RENDER_STORAGE_KEY)] and [defaultModelId] is
    [IMAGE_MODELS[0].id]. *)
Definition loadStoredRenders (h : Host) (createLocalId : nat -> string)
    (defaultModelId : string) (stored : option string) : list Render :=
  match stored with
  | None => []
  | Some text =>
      if negb (Js.truthy text) then []
      else
        match JSON_parse h text with
        | None => []
        | Some (Js.JArr data) =>
            omap (fun x => x)
                 (imap (loadEntry h createLocalId defaultModelId) data)
        | Some _ => []
        end
  end.





(** *** Reference images *)

(** The effect that keeps the references within the limit of the
    selected model. *)
Definition trimReferences (maxRefs : nat) (imageUrls : list string)
    : list string :=
  if (0 <? maxRefs)%nat && (maxRefs <? length imageUrls)%nat
  then take maxRefs imageUrls
  else if (maxRefs =? 0)%nat && (0 <? length imageUrls)%nat then []
  else imageUrls.

(** [removeReference]. *)
Definition removeReference (index : nat) (imageUrls : list string)
    : list string :=
  omap (fun x => x)
       (imap (fun idx url => if (idx =? index)%nat then None else Some url)
             imageUrls).

(** The callback of [files.map] in [uploadFiles]: the URL, or the error
    that rejects the promise. *)
Definition uploadOne {File} (storage_upload : File -> Prepare.UploadOutcome)
    (nameOf : File -> string) (file : File) : string + Js.Thrown :=
  match storage_upload file with
  | Prepare.UploadRejected e => inr e
  | Prepare.UploadResolved result =>
      match Prepare.extractUploadUrl result with
      | Some url =>
          if Js.truthy url then inl url
          else inr (Js.ErrorObject ("Unable to upload " ++ nameOf file)%string)
      | None => inr (Js.ErrorObject ("Unable to upload " ++ nameOf file)%string)
      end
  end.

Definition failure (r : string + Js.Thrown) : option Js.Thrown :=
  match r with
  | inl _ => None
  | inr e => Some e
  end.

Definition uploaded (r : string + Js.Thrown) : option string :=
  match r with
  | inl url => Some url
  | inr _ => None
  end.

(** What [uploadFiles] leaves behind. *)
Record UploadResult (File : Type) := {
  requested : list File;           (* the files handed to the client *)
  alerted : option string;         (* the message of [window.alert] *)
  references : list string         (* the reference list afterwards *)
}.
Arguments requested {File} _.
Arguments alerted {File} _.
Arguments references {File} _.

(** [uploadFiles].  Every upload is started; [settled] lists the
    positions of the files in the order in which their uploads settle
    (positions that it leaves out settle afterwards, in the order of the
    files), and [Promise.all] rejects with the first failure in that
    order. *)
Definition uploadFiles {File} (storage_upload : File -> Prepare.UploadOutcome)
    (nameOf : File -> string) (maxRefs : nat) (settled : list nat)
    (files : list File) (prev : list string) : UploadResult File :=
  if (length files =? 0)%nat || (maxRefs =? 0)%nat
  then {| requested := []; alerted := None; references := prev |}
  else
    let results := map (uploadOne storage_upload nameOf) files in
    match omap (fun i => results !! i ≫= failure)
               (settled ++ seq 0 (length files)) with
    | e :: _ =>
        {| requested := files;
           alerted := Some (Attempt.messageOr
                              "Failed to upload reference image." e);
           references := prev |}
    | [] =>
        {| requested := files; alerted := None;
           references := take maxRefs (prev ++ omap uploaded results) |}
    end.

End ImageTab.

Module ImageTabSpec.
Import ImageTab.

(** The type of the blob, when every request of a run succeeds. *)
Definition storedType (run : AssetRun) : option string :=
  match download run, readBlob run, store run with
  | Persist.FetchResponse true _, inl blobType, Persist.FetchResponse true _ =>
      Some blobType
  | _, _, _ => None
  end.

(** An asset that can be shown and downloaded. *)
Definition usable (asset : RenderAsset) : Prop :=
  previewUrl asset <> "" /\ downloadUrl asset <> "".


End ImageTabSpec.

(** ** More sample data *)

Module MoreSamples.
Import Jobs Scheduler Samples.

(** The job that the scheduling effect starts in [sampleRunning]. *)
Definition sampleQueuedJob : Job :=
  default sampleJob (head (jobs samplePrepared)).

Definition sampleVideoUrl : string := "https://provider.example/out.mp4".

(** The provider resolves the run of the new job. *)
Definition sampleResolved : State :=
  runResolved sampleHost sampleQueuedJob sampleVideoUrl None sampleRunning.

Definition sampleFileName : string :=
  FileName.buildVideoFileName sampleHost (Saving.nameParts sampleQueuedJob).

Definition sampleOkPersist : Persist.Run :=
  {| Persist.download := Persist.FetchResponse true 200;
     Persist.readBody := None;
     Persist.store := Persist.FetchResponse true 200 |}.

(** The video of the new job is stored. *)
Definition sampleSaved : State :=
  persistSettled sampleHost (id sampleQueuedJob) sampleFileName
    sampleVideoUrl sampleOkPersist sampleResolved.

Definition sampleSavedJob : Job :=
  default sampleJob (head (jobs sampleSaved)).

Definition sampleDownload : Saving.DownloadRun :=
  {| Saving.response := Persist.FetchResponse true 200;
     Saving.blob := None |}.

(** A host whose [JSON.parse] reads back the index that was written for
    [sampleRehydrated] and [sampleFailed]. *)
Definition sampleHistoryHost : Host :=
  {| JSON_parse := fun text =>
       if String.eqb text "[history]"
       then Some (Js.JArr (Store.persistedIndex
                             [sampleRehydrated; sampleFailed]))
       else None;
     JSON_stringify := fun _ => "[history]";
     createId := fun _ => "job_0_zzzzzz";
     Date_now := fun _ => 1700000000500%Z;
     encodeURIComponent := fun s => s;
     formatCompactTimestamp := Js.numberToString;
     DEFAULT_MODEL_ID := "kling" |}.

(** The development server: paths live under [/srv/out], bodies are
    known by name. *)
Definition sampleBody : Js.JSON :=
  Js.JObj [("name", Js.JStr "clip.mp4"); ("data", Js.JStr "QUJD")].

Definition sampleNode : AssetServer.Node :=
  {| AssetServer.OUT_DIR := "/srv/out";
     AssetServer.decodeURIComponent := inl;
     AssetServer.path_isAbsolute := String.prefix "/";
     AssetServer.path_join := fun relative => ("/srv/out/" ++ relative)%string;
     AssetServer.extension := fun _ => ".mp4";
     AssetServer.parse := fun raw =>
       if String.eqb raw "clip" then inl sampleBody
       else if String.eqb raw "video"
       then inl (Js.JObj
                   [("name",
                     Js.JStr (FileName.buildVideoFileName sampleHost
                                sampleClips));
                    ("data", Js.JStr "QUJD")])
       else inr (Js.ErrorObject "Unexpected end of JSON input");
     AssetServer.Buffer_from := fun data =>
       match data with
       | Js.JStr _ => inl [Byte.x41; Byte.x42; Byte.x43]
       | _ => inr (Js.ErrorObject "The first argument must be a string")
       end;
     AssetServer.notAFunction :=
       Js.ErrorObject "payload.name.includes is not a function";
     AssetServer.invalidPath :=
       Js.ErrorObject "The path argument must be of type string" |}.

Definition noFaults : AssetServer.Faults :=
  {| AssetServer.mkdirThrows := None; AssetServer.writeThrows := None |}.

Definition samplePost : AssetServer.Request :=
  {| AssetServer.method := "POST"; AssetServer.url := Some "/api/assets";
     AssetServer.body := "clip" |}.

Definition sampleGet : AssetServer.Request :=
  {| AssetServer.method := "GET";
     AssetServer.url := Some "/assets/clip.mp4?download=1";
     AssetServer.body := "" |}.

(** The disk after [samplePost]. *)
Definition sampleDisk : gmap string AssetServer.Entry :=
  snd (AssetServer.handler sampleNode noFaults ∅ samplePost).

(** A video model whose end frame is switched off. *)
Definition sampleVideoModel : Models.ModelSpec :=
  {| Models.id := "kling";
     Models.endpoint := "fal-ai/kling-video";
     Models.label := None;
     Models.supports :=
       {| Models.startFrame := Prepare.FlagTrue;
          Models.endFrame := Prepare.FlagFalse;
          Models.audio := Prepare.FlagFalse;
          Models.resolution := Prepare.FlagUnspecified;
          Models.aspectRatio := Prepare.FlagTrue;
          Models.fps := Prepare.FlagFalse |};
     Models.params :=
       [("prompt",
         Some {| Models.type := Models.TString;
                 Models.required := Some true;
                 Models.values := None; Models.defaultValue := None;
                 Models.uiKey := None |});
        ("image_url",
         Some {| Models.type := Models.TString;
                 Models.required := Some true;
                 Models.values := None; Models.defaultValue := None;
                 Models.uiKey := Some "start_frame_url" |});
        ("tail_image_url",
         Some {| Models.type := Models.TString;
                 Models.required := None;
                 Models.values := None; Models.defaultValue := None;
                 Models.uiKey := Some "end_frame_url" |});
        ("duration",
         Some {| Models.type := Models.TEnum;
                 Models.required := Some true;
                 Models.values :=
                   Some [Models.VText "5"; Models.VText "10"];
                 Models.defaultValue := Some (Models.VText "5");
                 Models.uiKey := None |});
        ("negative_prompt", None)];
     Models.videoPath := "video.url";
     Models.adapter := None |}.

(** A payload with both frames and a duration that the model does not
    list. *)
Definition sampleUnified : Payload.UnifiedPayload :=
  {| Payload.modelId := "kling"; Payload.prompt := "a dog on a surfboard";
     Payload.start_frame_url := "https://cdn.example/start.png";
     Payload.end_frame_url := Some "https://cdn.example/end.png";
     Payload.duration := Some (Payload.DurationNumber 7);
     Payload.aspect_ratio := Some "16:9"; Payload.resolution := None;
     Payload.fps := None; Payload.generate_audio := None;
     Payload.negative_prompt := None; Payload.cfg_scale := None;
     Payload.prompt_optimizer := None |}.

Definition sampleInput : Models.Input :=
  [("prompt", Models.VText "a dog on a surfboard");
   ("image_url", Models.VText "https://cdn.example/start.png");
   ("duration", Models.VText "5")].

(** The first model of the image catalogue. *)
Definition sampleImageModel : ImageModels.ImageModelSpec :=
  match ImageModels.IMAGE_MODELS Js.NotAnError with
  | spec :: _ => spec
  | [] => {| ImageModels.id := ""; ImageModels.label := "";
             ImageModels.endpoint := ""; ImageModels.mode := ImageModels.ModeText;
             ImageModels.maxRefs := 0;
             ImageModels.mapInput := fun _ => [];
             ImageModels.getUrls := fun _ => Attempt.Returned [] |}
  end.

Definition sampleImageJob : ImageModels.ImageJob :=
  {| ImageModels.prompt := "a red kite";
     ImageModels.imageUrls :=
       ["https://cdn.example/1.png"; "https://cdn.example/2.png";
        "https://cdn.example/3.png"; "https://cdn.example/4.png";
        "https://cdn.example/5.png"];
     ImageModels.size := Some (Aspect.Preset "landscape_16_9");
     ImageModels.seed := Some 42%Q;
     ImageModels.temporal := None;
     ImageModels.steps := None |}.



End MoreSamples.

(** * Properties *)

Import Jobs.

(** The entry at position [k] after an update is the update of the entry
    that was there. *)
Lemma notifyJobUpdate_lookup jobId data prev k :
  notifyJobUpdate jobId data prev !! k =
  (fun job => if decide (id job = jobId)
              then applyPatch job (match data with
                                   | Computed f => f job
                                   | Plain p => p
                                   end)
              else job) <$> prev !! k.
Proof. unfold notifyJobUpdate. apply list_lookup_fmap. Qed.

(** C2.  Retry is offered exactly for a job whose status is ["error"] and
    whose payload is present.  For such a job [handleRetry] sets the status
    of the job (every entry carrying its id) to ["queued"], clears the error
    message and keeps the attempt counter and the payload, and leaves every
    other job as it is; for a job without a payload it changes nothing. *)
Theorem handleRetry_requeues (job : Job) (prev : list Job) :
  (retryOffered job = true <-> status job = error /\ is_Some (payload job))
  /\ (payload job = None -> handleRetry job prev = prev)
  /\ (status job = error -> is_Some (payload job) ->
      forall k j, prev !! k = Some j ->
        exists j', handleRetry job prev !! k = Some j'
          /\ (id j <> id job -> j' = j)
          /\ (id j = id job ->
              status j' = queued /\ errorMessage j' = None
              /\ attempts j' = attempts j /\ payload j' = payload j
              /\ id j' = id j)).
Proof.
  split; [|split].
  - unfold retryOffered. rewrite andb_true_iff, !bool_decide_eq_true. tauto.
  - intros Hp. unfold handleRetry. rewrite Hp. reflexivity.
  - intros _ [p Hp] k j Hk. unfold handleRetry. rewrite Hp.
    rewrite notifyJobUpdate_lookup, Hk. simpl.
    eexists. split; [reflexivity|].
    destruct (decide (id j = id job)) as [Heq|Hne].
    + split; [congruence|]. intros _. repeat split; reflexivity.
    + split; [reflexivity|]. intros Heq. congruence.
Qed.

(** Outcome of the body of [persistVideoAsset]. *)
Lemma storeAsset_outcome run fileName videoUrl :
  Props.persistSucceeds run = false ->
  exists e, snd (Persist.storeAsset run fileName videoUrl) = Attempt.Threw e.
Proof.
  destruct run as [dl body st]. unfold Props.persistSucceeds. simpl.
  intros Hfail. unfold Persist.storeAsset. simpl.
  destruct dl as [e|[|] status]; simpl; eauto;
    destruct body as [e|]; simpl; eauto;
    destruct st as [e|[|] status']; simpl; eauto.
  discriminate.
Qed.

Lemma persistVideoAsset_cases h run jobId fileName resultUrl prev :
  exists patch,
    Persist.persistVideoAsset h run jobId fileName resultUrl prev
      = notifyJobUpdate jobId (Plain patch) prev
    /\ p_status patch = None /\ p_attempts patch = None.
Proof.
  unfold Persist.persistVideoAsset.
  destruct (snd (Persist.storeAsset run fileName resultUrl));
    eexists; (split; [reflexivity|]); split; reflexivity.
Qed.

(** C6.  When a run of [persistVideoAsset] fails (the download is rejected or
    not ok, its body cannot be read, or the store request is rejected or not
    ok), every job keeps its status and its [videoUrl]; the job with the
    given id gets [saving = false], [saved = false] and a [saveError]
    message, and every other job is unchanged. *)
Theorem persist_failure_keeps_status
    (h : Host) (run : Persist.Run) (jobId fileName resultUrl : string)
    (prev : list Job) :
  Props.persistSucceeds run = false ->
  forall k j, prev !! k = Some j ->
    exists j',
      Persist.persistVideoAsset h run jobId fileName resultUrl prev !! k = Some j'
      /\ status j' = status j
      /\ videoUrl j' = videoUrl j
      /\ (id j = jobId ->
          saving j' = Some false /\ saved j' = Some false
          /\ is_Some (saveError j'))
      /\ (id j <> jobId -> j' = j).
Proof.
  intros Hfail k j Hk.
  destruct (storeAsset_outcome run fileName resultUrl Hfail) as [e He].
  unfold Persist.persistVideoAsset. rewrite He.
  rewrite notifyJobUpdate_lookup, Hk. simpl.
  eexists. split; [reflexivity|].
  destruct (decide (id j = jobId)) as [Heq|Hne]; simpl.
  - repeat split; eauto. intros Hne. congruence.
  - repeat split; congruence.
Qed.

Section PrepareProofs.
Context {File : Type}.
Variable storage_upload : File -> Prepare.UploadOutcome.

Ltac run_monad :=
  unfold Prepare.upload, Prepare.requireUrl, mbind, attempt_mbind,
    Attempt.bind, Attempt.call, Attempt.throw, mret, attempt_mret,
    Attempt.ret; simpl.

(** The log and the outcome of the pipeline, by cases on the uploads. *)
Lemma prepareJobPayload_run jobId model basePayload (start : File) end_ :
  let run := Prepare.prepareJobPayload storage_upload jobId model
               basePayload start end_ in
  filter (fun c => Props.isEnqueue c = false) (fst run)
    = PrepareSpec.uploadsAttempted storage_upload model start end_
  /\ match PrepareSpec.completedPayload storage_upload model basePayload
             start end_ with
     | Some p =>
         snd run = Attempt.Returned tt
         /\ filter (fun c => Props.isEnqueue c = true) (fst run)
            = [Prepare.CallEnqueue jobId p]
         /\ last (fst run) = Some (Prepare.CallEnqueue jobId p)
     | None =>
         (exists e, snd run = Attempt.Threw e)
         /\ filter (fun c => Props.isEnqueue c = true) (fst run) = []
     end.
Proof.
  unfold Prepare.prepareJobPayload, PrepareSpec.completedPayload,
    PrepareSpec.uploadsAttempted, Props.uploadedUrl, Props.endReference.
  run_monad.
  destruct (storage_upload start) as [e|result]; simpl; [eauto|].
  destruct (Prepare.extractUploadUrl result) as [u|]; simpl; [|eauto].
  destruct (Js.truthy u); simpl; [|eauto].
  destruct end_ as [endFile|]; simpl; [|eauto].
  destruct (Prepare.isSupportEnabled _); simpl; [|eauto].
  destruct (storage_upload endFile) as [e|result']; simpl; [eauto|].
  destruct (Prepare.extractUploadUrl result') as [u'|]; simpl; [|eauto].
  destruct (Js.truthy u'); simpl; eauto.
Qed.

Lemma applyCalls_no_enqueue (log : list (Prepare.Call File)) js :
  filter (fun c => Props.isEnqueue c = true) log = [] ->
  fold_left (fun js c => Prepare.applyCall c js) log js = js.
Proof.
  revert js. induction log as [|c log IH]; intros js Hf; [reflexivity|].
  destruct c as [f|i p]; simpl in *.
  - rewrite filter_cons_False in Hf by (simpl; congruence). auto.
  - rewrite filter_cons_True in Hf by reflexivity. discriminate.
Qed.

Lemma applyCalls_one_enqueue (log : list (Prepare.Call File)) js i p :
  filter (fun c => Props.isEnqueue c = true) log = [Prepare.CallEnqueue i p] ->
  fold_left (fun js c => Prepare.applyCall c js) log js = enqueueJob i p js.
Proof.
  revert js. induction log as [|c log IH]; intros js Hf; [discriminate|].
  destruct c as [f|i' p']; simpl in *.
  - rewrite filter_cons_False in Hf by (simpl; congruence). auto.
  - rewrite filter_cons_True in Hf by reflexivity.
    injection Hf as -> -> Hf. apply applyCalls_no_enqueue. exact Hf.
Qed.

(** The one update of the job list that a settled pipeline performs. *)
Lemma settlePrepare_cases jobId model basePayload (start : File) end_ prev :
  let run := Prepare.prepareJobPayload storage_upload jobId model
               basePayload start end_ in
  (exists p, Prepare.settlePrepare jobId run prev = enqueueJob jobId p prev)
  \/ (exists patch,
        Prepare.settlePrepare jobId run prev
          = notifyJobUpdate jobId (Plain patch) prev
        /\ p_status patch = Some error /\ p_attempts patch = None).
Proof.
  intros run.
  destruct (prepareJobPayload_run jobId model basePayload start end_)
    as [_ Hout]. fold run in Hout.
  unfold Prepare.settlePrepare.
  destruct (PrepareSpec.completedPayload storage_upload model basePayload
              start end_) as [p|].
  - destruct Hout as (Hret & Henq & _). left. exists p.
    rewrite Hret. apply applyCalls_one_enqueue. exact Henq.
  - destruct Hout as ([e He] & Henq). right.
    rewrite He, (applyCalls_no_enqueue _ _ Henq).
    eexists. split; [reflexivity|]. split; reflexivity.
Qed.





End PrepareProofs.

Section StoreProofs.
Variable h : Host.

(** An admitted entry is built from a record with both references, and
    the job carries them. *)
Lemma loadEntry_Some i entry j :
  Store.loadEntry h i entry = Some j ->
  exists key url,
    Js.get "localKey" entry = Some (Js.JStr key)
    /\ Js.get "localUrl" entry = Some (Js.JStr url)
    /\ key <> "" /\ url <> ""
    /\ localKey j = Some key /\ localUrl j = Some url
    /\ videoUrl j = Some url
    /\ status j = success /\ attempts j = 1 /\ payload j = None
    /\ saving j = Some false /\ saved j = Some true.
Proof.
  unfold Store.loadEntry.
  destruct (Js.isObjectLike entry); simpl; [|discriminate].
  destruct (Js.get "localUrl" entry) as [[| | |url| |]|] eqn:Hurl;
    simpl; try discriminate.
  destruct (Js.get "localKey" entry) as [[| | |key| |]|] eqn:Hkey;
    simpl; rewrite ?orb_true_r; try discriminate.
  unfold Js.truthy. rewrite !negb_involutive.
  destruct (String.eqb_spec url ""); simpl; [discriminate|].
  destruct (String.eqb_spec key ""); simpl; [discriminate|].
  intros [= <-]. exists key, url. simpl. repeat split; auto.
Qed.

Lemma loadEntry_None i entry :
  ~ Props.carriesKeyAndUrl entry -> Store.loadEntry h i entry = None.
Proof.
  intros Hno. destruct (Store.loadEntry h i entry) as [j|] eqn:Hj; [|reflexivity].
  exfalso. apply Hno.
  destruct (loadEntry_Some _ _ _ Hj) as (key & url & Hk & Hu & _).
  exists key, url. auto.
Qed.

Lemma loadStoredJobs_elem stored j :
  j ∈ Store.loadStoredJobs h stored <->
  exists text data i entry,
    stored = Some text /\ text <> ""
    /\ JSON_parse h text = Some (Js.JArr data)
    /\ data !! i = Some entry
    /\ Store.loadEntry h i entry = Some j.
Proof.
  unfold Store.loadStoredJobs. split.
  - destruct stored as [text|]; [|intros Hin; inversion Hin].
    unfold Js.truthy. rewrite negb_involutive.
    destruct (String.eqb_spec text ""); [intros Hin; inversion Hin|].
    destruct (JSON_parse h text) as [[| | | |data|]|] eqn:Hp;
      try (intros Hin; inversion Hin; fail).
    intros Hin. apply list_elem_of_omap in Hin as (o & Ho & ->).
    apply elem_of_lookup_imap in Ho as (i & entry & Heq & Hi).
    exists text, data, i, entry. repeat split; auto.
  - intros (text & data & i & entry & -> & Hne & Hp & Hi & Hj).
    unfold Js.truthy. rewrite negb_involutive.
    destruct (String.eqb_spec text ""); [contradiction|].
    rewrite Hp. apply list_elem_of_omap. exists (Some j). split; [|reflexivity].
    rewrite <- Hj. apply elem_of_lookup_imap_2. exact Hi.
Qed.

(** C3.  [loadStoredJobs] is total, and every job it returns was built from
    an entry of a parsed array that carries both [localKey] and [localUrl]
    as strings, which the job keeps.  An entry lacking either is dropped;
    an array without such entries, an unparseable text, a parsed value
    that is not an array and an absent item all give the empty list. *)
Theorem loadStoredJobs_admits_only_keyed_records (stored : option string) :
  (forall j, j ∈ Store.loadStoredJobs h stored ->
     exists text data i entry,
       stored = Some text
       /\ JSON_parse h text = Some (Js.JArr data)
       /\ data !! i = Some entry
       /\ Props.carriesKeyAndUrl entry
       /\ Store.loadEntry h i entry = Some j
       /\ Js.get "localKey" entry = Js.JStr <$> localKey j
       /\ Js.get "localUrl" entry = Js.JStr <$> localUrl j)
  /\ (forall i entry,
        ~ Props.carriesKeyAndUrl entry -> Store.loadEntry h i entry = None)
  /\ (forall text data,
        stored = Some text -> JSON_parse h text = Some (Js.JArr data) ->
        (forall i entry, data !! i = Some entry ->
           ~ Props.carriesKeyAndUrl entry) ->
        Store.loadStoredJobs h stored = [])
  /\ (forall text,
        stored = Some text -> JSON_parse h text = None ->
        Store.loadStoredJobs h stored = [])
  /\ (forall text v,
        stored = Some text -> JSON_parse h text = Some v ->
        (forall data, v <> Js.JArr data) ->
        Store.loadStoredJobs h stored = [])
  /\ (stored = None -> Store.loadStoredJobs h stored = []).
Proof.
  repeat split.
  - intros j Hin. apply loadStoredJobs_elem in Hin
      as (text & data & i & entry & -> & Hne & Hp & Hi & Hj).
    destruct (loadEntry_Some _ _ _ Hj)
      as (key & url & Hk & Hu & _ & _ & Hlk & Hlu & _).
    exists text, data, i, entry.
    split; [reflexivity|]. split; [exact Hp|]. split; [exact Hi|].
    split; [exists key, url; auto|]. split; [exact Hj|].
    rewrite Hlk, Hlu. auto.
  - apply loadEntry_None.
  - intros text data -> Hp Hall.
    destruct (Store.loadStoredJobs h (Some text)) as [|j rest] eqn:Hl;
      [reflexivity|].
    assert (Hin : j ∈ Store.loadStoredJobs h (Some text))
      by (rewrite Hl; apply list_elem_of_here).
    apply loadStoredJobs_elem in Hin
      as (text' & data' & i & entry & [= <-] & _ & Hp' & Hi & Hj).
    rewrite Hp in Hp'. injection Hp' as <-.
    rewrite (loadEntry_None i entry (Hall i entry Hi)) in Hj. discriminate.
  - intros text -> Hp. unfold Store.loadStoredJobs. rewrite Hp.
    destruct (negb (Js.truthy text)); reflexivity.
  - intros text v -> Hp Hv. unfold Store.loadStoredJobs. rewrite Hp.
    destruct (negb (Js.truthy text)); [reflexivity|].
    destruct v; try reflexivity. exfalso. eapply Hv. reflexivity.
  - intros ->. reflexivity.
Qed.

Lemma truthyOpt_spec (o : option string) :
  Js.truthyOpt o = true <-> exists s, o = Some s /\ s <> "".
Proof.
  destruct o as [s|]; simpl.
  - unfold Js.truthy. destruct (String.eqb_spec s ""); simpl; split.
    + discriminate.
    + intros (s' & [= <-] & Hne). contradiction.
    + eauto.
    + reflexivity.
  - split; [discriminate|]. intros (s & Hs & _). discriminate.
Qed.

Lemma isCompleted_spec job :
  Store.isCompleted job = true <->
  status job = success
  /\ (exists key, localKey job = Some key /\ key <> "")
  /\ (exists url, localUrl job = Some url /\ url <> "").
Proof.
  unfold Store.isCompleted.
  rewrite !andb_true_iff, bool_decide_eq_true, !truthyOpt_spec. tauto.
Qed.

Lemma sliceLast_idempotent {A} n (xs : list A) :
  Js.sliceLast n (Js.sliceLast n xs) = Js.sliceLast n xs.
Proof.
  unfold Js.sliceLast. rewrite length_drop, drop_drop. f_equal. lia.
Qed.

(** Reading back the record of a completed job. *)
Lemma loadEntry_storedRecord i job :
  Store.isCompleted job = true ->
  Store.loadEntry h i (Store.storedRecord job) = Some (Props.rehydrate job).
Proof.
  intros Hc. apply isCompleted_spec in Hc
    as (_ & (key & Hkey & Hk) & (url & Hurl & Hu)).
  unfold Store.loadEntry, Store.storedRecord, Props.rehydrate.
  rewrite Hkey, Hurl. cbn.
  unfold Js.truthy.
  destruct (String.eqb_spec url ""); [contradiction|].
  destruct (String.eqb_spec key ""); [contradiction|]. cbn.
  f_equal. f_equal.
  - destruct (preview job); reflexivity.
  - rewrite map_map. cbn. rewrite map_id. apply sliceLast_idempotent.
Qed.

(** The fields of the record that [completed.map] builds. *)
Lemma storedRecord_describes job :
  Props.describes job (Store.storedRecord job).
Proof.
  unfold Props.describes, Store.storedRecord.
  destruct (localKey job), (localUrl job); cbn; repeat split; reflexivity.
Qed.

Lemma storedRecord_fields job :
  Store.isCompleted job = true ->
  exists fields,
    Store.storedRecord job = Js.JObj fields
    /\ map fst fields = Props.recordFields.
Proof.
  intros Hc. apply isCompleted_spec in Hc
    as (_ & (key & Hkey & _) & (url & Hurl & _)).
  unfold Store.storedRecord. rewrite Hkey, Hurl.
  eexists. split; reflexivity.
Qed.

(** C4.  [persistStoredJobs] removes the item when no job is completed and
    otherwise writes the serialized array of records, one per completed
    job and in the order of the list.  A record is in that array exactly
    when it is the record of a job of the list whose status is
    ["success"] and whose [localKey] and [localUrl] are both present (and
    not the empty string); a job with any other status is never among the
    jobs written.  The records pair up, in order, with the completed
    jobs: each has the nine fields of a stored record and nothing else,
    which give the job's id, model, prompt, creation time, preview, last
    ten events, key, URL and storage path, and rehydration reads it back
    as that job. *)
Theorem persistStoredJobs_writes_completed_only (jobs : list Job) :
  (Store.persistStoredJobs h jobs =
     match Store.persistedIndex jobs with
     | [] => Store.RemoveItem Store.VIDEO_JOBS_STORAGE_KEY
     | records =>
         Store.SetItem Store.VIDEO_JOBS_STORAGE_KEY
           (JSON_stringify h (Js.JArr records))
     end)
  /\ (forall record,
        record ∈ Store.persistedIndex jobs <->
        exists job,
          job ∈ jobs /\ record = Store.storedRecord job
          /\ status job = success
          /\ (exists key, localKey job = Some key /\ key <> "")
          /\ (exists url, localUrl job = Some url /\ url <> ""))
  /\ (forall job,
        job ∈ jobs -> status job <> success ->
        job ∉ filter (fun j => Store.isCompleted j = true) jobs)
  /\ length (Store.persistedIndex jobs)
     = length (filter (fun j => Store.isCompleted j = true) jobs)
  /\ Forall2 Props.describes
       (filter (fun j => Store.isCompleted j = true) jobs)
       (Store.persistedIndex jobs)
  /\ (forall record,
        record ∈ Store.persistedIndex jobs ->
        exists fields,
          record = Js.JObj fields /\ map fst fields = Props.recordFields)
  /\ (forall i job,
        job ∈ jobs -> Store.isCompleted job = true ->
        Store.loadEntry h i (Store.storedRecord job)
        = Some (Props.rehydrate job)).
Proof.
  split; [|split; [|split; [|split; [|split; [|split]]]]].
  - unfold Store.persistStoredJobs, Store.persistedIndex.
    destruct (filter _ jobs); reflexivity.
  - intros record. split.
    + unfold Store.persistedIndex. intros Hin.
      apply list_elem_of_fmap in Hin as (job & -> & Hjob).
      apply list_elem_of_filter in Hjob as [Hc Hjob].
      apply isCompleted_spec in Hc. exists job. tauto.
    + intros (job & Hjob & -> & Hs & Hk & Hu).
      unfold Store.persistedIndex. apply list_elem_of_fmap_2.
      apply list_elem_of_filter. split; [|exact Hjob].
      apply isCompleted_spec. auto.
  - intros job _ Hs Hin. apply list_elem_of_filter in Hin as [Hc _].
    apply isCompleted_spec in Hc. tauto.
  - unfold Store.persistedIndex. apply length_map.
  - unfold Store.persistedIndex.
    induction (filter (fun j => Store.isCompleted j = true) jobs)
      as [|job rest IH]; constructor;
      [apply storedRecord_describes|exact IH].
  - unfold Store.persistedIndex. intros record Hin.
    apply list_elem_of_fmap in Hin as (job & -> & Hjob).
    apply list_elem_of_filter in Hjob as [Hc _].
    apply storedRecord_fields, Hc.
  - intros i job _ Hc. apply loadEntry_storedRecord, Hc.
Qed.

(** Scenario F of the specification: if the serialized index parses back
    to the array that was written, rehydration returns the completed
    jobs, in order. *)
Lemma loadStoredJobs_persisted (jobs : list Job) :
  let text := JSON_stringify h (Js.JArr (Store.persistedIndex jobs)) in
  text <> "" ->
  JSON_parse h text = Some (Js.JArr (Store.persistedIndex jobs)) ->
  Store.loadStoredJobs h (Some text)
    = map Props.rehydrate (filter (fun j => Store.isCompleted j = true) jobs).
Proof.
  intros text Hne Hparse. unfold Store.loadStoredJobs.
  unfold Js.truthy. destruct (String.eqb_spec text ""); [contradiction|].
  cbn. rewrite Hparse. unfold Store.persistedIndex.
  assert (Hall : Forall (fun j => Store.isCompleted j = true)
                   (filter (fun j => Store.isCompleted j = true) jobs)).
  { apply Forall_forall. intros j Hj.
    apply list_elem_of_filter in Hj. tauto. }
  generalize (Store.loadEntry h) (loadEntry_storedRecord).
  induction Hall as [|job rest Hjob Hrest IH]; intros load Hload;
    [reflexivity|].
  cbn. rewrite (Hload 0%nat job Hjob). cbn. f_equal.
  apply (IH (fun i => load (S i))). intros i j Hj. apply Hload, Hj.
Qed.

End StoreProofs.

(** ** Aspect ratio *)

Section AspectProofs.
Import Aspect.

Lemma resolveAspectRatio_presets :
  resolveAspectRatio (Some (Preset "square_hd")) = Some "1:1"
  /\ resolveAspectRatio (Some (Preset "square")) = Some "1:1"
  /\ resolveAspectRatio (Some (Preset "portrait_4_3")) = Some "3:4"
  /\ resolveAspectRatio (Some (Preset "portrait_16_9")) = Some "9:16"
  /\ resolveAspectRatio (Some (Preset "landscape_4_3")) = Some "4:3"
  /\ resolveAspectRatio (Some (Preset "landscape_16_9")) = Some "16:9".
Proof. repeat split. Qed.

Lemma resolveAspectRatio_unresolvable :
  resolveAspectRatio None = None
  /\ (forall name,
        ~ In name ["square_hd"; "square"; "portrait_4_3"; "portrait_16_9";
                   "landscape_4_3"; "landscape_16_9"] ->
        resolveAspectRatio (Some (Preset name)) = None)
  /\ (forall width height,
        (width == 0)%Q \/ (height == 0)%Q ->
        resolveAspectRatio (Some (Dimensions width height)) = None).
Proof.
  split; [reflexivity|]. split.
  - intros name Hno. simpl in Hno. unfold resolveAspectRatio.
    repeat match goal with
           | |- context [String.eqb name ?s] =>
               destruct (String.eqb_spec name s) as [->|_]; [exfalso; tauto|]
           end.
    reflexivity.
  - intros width height Hz. unfold resolveAspectRatio, isZero.
    destruct Hz as [Hz|Hz]; apply Qeq_bool_iff in Hz; rewrite Hz;
      rewrite ?orb_true_r; reflexivity.
Qed.

(** The local [gcd] computes the greatest common divisor on nonnegative
    integers. *)
Lemma gcdFuel_nonneg fuel : forall a b,
  (0 <= a)%Z -> (0 <= b)%Z -> (Z.to_nat b < fuel)%nat ->
  gcdFuel fuel a b = Z.gcd a b.
Proof.
  induction fuel as [|fuel IH]; intros a b Ha Hb Hfuel; [lia|].
  simpl. destruct (Z.eqb_spec b 0) as [->|Hne].
  - rewrite Z.gcd_0_r. lia.
  - assert (Hrem : (0 <= Z.rem a b < b)%Z) by (apply Z.rem_bound_pos; lia).
    rewrite IH by lia.
    rewrite Z.rem_mod_nonneg by lia.
    rewrite Z.gcd_comm, Z.gcd_mod by lia. apply Z.gcd_comm.
Qed.

(** Any two amounts of fuel above [|b|] give the same result, so the
    bound in [gcd] never cuts the recursion short. *)
Lemma gcdFuel_enough fuel : forall fuel' a b,
  (Z.abs_nat b < fuel)%nat -> (Z.abs_nat b < fuel')%nat ->
  gcdFuel fuel a b = gcdFuel fuel' a b.
Proof.
  induction fuel as [|fuel IH]; intros fuel' a b Hf Hf'; [lia|].
  destruct fuel' as [|fuel']; [lia|]. simpl.
  destruct (Z.eqb_spec b 0) as [->|Hne]; [reflexivity|].
  assert (Hrem : (Z.abs (Z.rem a b) < Z.abs b)%Z)
    by (apply Z.rem_bound_abs; exact Hne).
  apply IH; lia.
Qed.

(** The defining equation of the local [gcd], for all integers. *)
Lemma gcd_equation a b :
  gcd a b = if (b =? 0)%Z then a else gcd b (Z.rem a b).
Proof.
  unfold gcd at 1. simpl.
  destruct (Z.eqb_spec b 0) as [->|Hne]; [reflexivity|].
  assert (Hrem : (Z.abs (Z.rem a b) < Z.abs b)%Z)
    by (apply Z.rem_bound_abs; exact Hne).
  apply gcdFuel_enough; lia.
Qed.

Lemma gcd_nonneg a b : (0 <= a)%Z -> (0 <= b)%Z -> gcd a b = Z.gcd a b.
Proof.
  intros Ha Hb. unfold gcd. apply gcdFuel_nonneg; try assumption.
  rewrite Zabs2Nat.abs_nat_nonneg by assumption. lia.
Qed.

Lemma Qfloor_unique (y : Q) (n : Z) :
  (inject_Z n <= y)%Q -> (y < inject_Z (n + 1))%Q -> Qfloor y = n.
Proof.
  intros Hlo Hhi.
  assert (H1 : (n <= Qfloor y)%Z).
  { rewrite <- (Qfloor_Z n). apply Qfloor_resp_le. exact Hlo. }
  assert (H2 : (Qfloor y < n + 1)%Z).
  { rewrite Zlt_Qlt. eapply Qle_lt_trans; [apply Qfloor_le|exact Hhi]. }
  lia.
Qed.

(** Dividing by a positive divisor of the rounded value commutes with
    rounding. *)
Lemma Math_round_quotient (x : Q) (g m : Z) :
  (0 < g)%Z -> Math_round x = (g * m)%Z ->
  Math_round (x / inject_Z g) = m.
Proof.
  unfold Math_round. intros Hg Hx.
  assert (Hlo := Qfloor_le (x + (1 # 2))).
  assert (Hhi := Qlt_floor (x + (1 # 2))).
  rewrite Hx in Hlo, Hhi.
  assert (HgQ : (1 <= inject_Z g)%Q).
  { change 1%Q with (inject_Z 1). rewrite <- Zle_Qle. lia. }
  rewrite inject_Z_plus, inject_Z_mult in Hhi.
  rewrite inject_Z_mult in Hlo.
  change (inject_Z 1) with 1%Q in Hhi.
  set (G := inject_Z g) in *. set (M := inject_Z m) in *.
  assert (Hy : (x == (x / G) * G)%Q).
  { field. intros HG. lra. }
  set (y := (x / G)%Q) in *.
  apply Qfloor_unique.
  - fold M. rewrite Hy in Hlo. clear Hy Hhi Hx. nra.
  - rewrite inject_Z_plus. fold M. change (inject_Z 1) with 1%Q.
    rewrite Hy in Hhi. clear Hy Hlo Hx. nra.
Qed.

(** Dimensions that round to positive integers (within the range in
    which integers are printed digit by digit) are reduced by the greatest
    common divisor of the rounded values. *)
Lemma resolveAspectRatio_reduces (width height : Q) :
  (1 # 2 <= width)%Q -> (1 # 2 <= height)%Q ->
  (Math_round width <= Js.MAX_EXACT_INTEGER)%Z ->
  (Math_round height <= Js.MAX_EXACT_INTEGER)%Z ->
  let g := Z.gcd (Math_round width) (Math_round height) in
  resolveAspectRatio (Some (Dimensions width height))
    = Some (Js.numberToString (Math_round width / g) ++ ":"
            ++ Js.numberToString (Math_round height / g))%string
  /\ (0 < g)%Z
  /\ Z.gcd (Math_round width / g) (Math_round height / g) = 1%Z.
Proof.
  intros Hw Hh _ _ g.
  assert (Hround : forall x : Q, (1 # 2 <= x)%Q -> (1 <= Math_round x)%Z).
  { intros x Hx. unfold Math_round.
    assert (H1 : (1 <= x + (1 # 2))%Q) by lra.
    apply Qfloor_resp_le in H1. exact H1. }
  assert (Hrw := Hround _ Hw). assert (Hrh := Hround _ Hh).
  assert (Hg : (0 < g)%Z).
  { assert (0 <= g)%Z by apply Z.gcd_nonneg.
    assert (g <> 0)%Z; [|lia].
    unfold g. intros H0. apply Z.gcd_eq_0_l in H0. lia. }
  assert (Hdw : (Math_round width = g * (Math_round width / g))%Z).
  { destruct (Z.gcd_divide_l (Math_round width) (Math_round height)) as [c Hc].
    fold g in Hc. rewrite Hc at 2. rewrite Z.div_mul by lia. lia. }
  assert (Hdh : (Math_round height = g * (Math_round height / g))%Z).
  { destruct (Z.gcd_divide_r (Math_round width) (Math_round height)) as [c Hc].
    fold g in Hc. rewrite Hc at 2. rewrite Z.div_mul by lia. lia. }
  split; [|split; [exact Hg|apply Z.gcd_div_gcd; [lia|reflexivity]]].
  unfold resolveAspectRatio, isZero.
  assert (Hnzw : Qeq_bool width 0 = false).
  { apply not_true_iff_false. rewrite Qeq_bool_iff. lra. }
  assert (Hnzh : Qeq_bool height 0 = false).
  { apply not_true_iff_false. rewrite Qeq_bool_iff. lra. }
  rewrite Hnzw, Hnzh. simpl.
  rewrite gcd_nonneg by lia. fold g.
  unfold roundQuotient.
  destruct (Z.eqb_spec g 0); [lia|].
  rewrite (Math_round_quotient width g _ Hg Hdw).
  rewrite (Math_round_quotient height g _ Hg Hdh).
  reflexivity.
Qed.

(** Dimensions strictly between zero and one half pass the zero test
    and round to zero; the result is then no fraction at all. *)
Lemma resolveAspectRatio_small_dimensions (width height : Q) :
  (0 < width)%Q -> (width < 1 # 2)%Q ->
  (0 < height)%Q -> (height < 1 # 2)%Q ->
  resolveAspectRatio (Some (Dimensions width height))
    = Some "Infinity:Infinity".
Proof.
  intros Hw0 Hw Hh0 Hh.
  assert (Hround : forall x : Q, (0 < x)%Q -> (x < 1 # 2)%Q ->
                                 Math_round x = 0%Z).
  { intros x Hx0 Hx. unfold Math_round. apply Qfloor_unique.
    - change (inject_Z 0) with 0%Q. lra.
    - change (inject_Z (0 + 1)) with 1%Q. lra. }
  unfold resolveAspectRatio, isZero.
  assert (Hnzw : Qeq_bool width 0 = false).
  { apply not_true_iff_false. rewrite Qeq_bool_iff. lra. }
  assert (Hnzh : Qeq_bool height 0 = false).
  { apply not_true_iff_false. rewrite Qeq_bool_iff. lra. }
  rewrite Hnzw, Hnzh, (Hround _ Hw0 Hw), (Hround _ Hh0 Hh). simpl.
  unfold roundQuotient, sameSign. simpl.
  assert (Hpos : forall x : Q, (0 < x)%Q -> Qle_bool 0 x = true)
    by (intros x Hx; apply Qle_bool_iff; lra).
  rewrite (Hpos _ Hw0), (Hpos _ Hh0). reflexivity.
Qed.

(** C8.  The value of [resolveAspectRatio] on the size
    [{ width: 0.4, height: 0.4 }]: both dimensions pass the zero test,
    both round to zero, and the quotients by the zero divisor are printed
    as infinities. *)
Theorem resolveAspectRatio_sub_half_dimensions :
  resolveAspectRatio (Some (Dimensions (2 # 5) (2 # 5)))
    = Some "Infinity:Infinity".
Proof. reflexivity. Qed.

End AspectProofs.

(** ** File names *)

Section FileNameProofs.
Import FileName.

Lemma string_of_list_ascii_length (cs : list ascii) :
  String.length (string_of_list_ascii cs) = length cs.
Proof. induction cs as [|c cs IH]; simpl; congruence. Qed.

Lemma replaceRuns_chars cs : forall inRun,
  Forall segmentChar (replaceRuns inRun cs).
Proof.
  induction cs as [|c cs IH]; intros inRun; simpl; [constructor|].
  destruct (isTokenChar c) eqn:Hc.
  - constructor; [left; exact Hc|apply IH].
  - destruct inRun; [apply IH|].
    constructor; [right; reflexivity|apply IH].
Qed.

Lemma dropHyphens_chars (P : ascii -> Prop) cs :
  Forall P cs -> Forall P (dropHyphens cs).
Proof.
  induction 1 as [|c cs Hc Hcs IH]; simpl; [constructor|].
  destruct (isHyphen c); [exact IH|constructor; assumption].
Qed.

Lemma append_inv_head (p x y : string) :
  (p ++ x)%string = (p ++ y)%string -> x = y.
Proof.
  induction p as [|c p IH]; simpl; intros Heq; [exact Heq|].
  injection Heq as Heq. auto.
Qed.

Lemma list_ascii_of_string_app (a b : string) :
  list_ascii_of_string (a ++ b)%string
  = list_ascii_of_string a ++ list_ascii_of_string b.
Proof.
  induction a as [|c a IH]; [reflexivity|].
  change (c :: list_ascii_of_string (a ++ b)%string
          = c :: (list_ascii_of_string a ++ list_ascii_of_string b)).
  rewrite IH. reflexivity.
Qed.


Lemma sanitizeFileSegment_bounded (value : string) :
  (String.length (sanitizeFileSegment value) <= 40)%nat
  /\ Forall segmentChar (list_ascii_of_string (sanitizeFileSegment value)).
Proof.
  unfold sanitizeFileSegment, sanitizeChars. split.
  - rewrite string_of_list_ascii_length, length_take. lia.
  - rewrite list_ascii_of_string_of_list_ascii.
    apply Forall_take. unfold trimHyphens.
    apply Forall_rev, dropHyphens_chars, Forall_rev, dropHyphens_chars.
    apply replaceRuns_chars.
Qed.



End FileNameProofs.

(** ** The scheduler *)

Section UpdateById.
Import SchedulerSpec.

Lemma notifyJobUpdate_updateById jobId data prev :
  notifyJobUpdate jobId data prev =
  updateById jobId
    (fun job => applyPatch job (match data with
                                | Computed f => f job
                                | Plain p => p
                                end)) prev.
Proof. reflexivity. Qed.

Lemma enqueueJob_updateById jobId p prev :
  exists g, enqueueJob jobId p prev = updateById jobId g prev
            /\ (forall job, id (g job) = id job)
            /\ (forall job, status (g job) = queued)
            /\ (forall job, attempts (g job) = attempts job).
Proof. eexists. split; [reflexivity|]. auto. Qed.

Lemma updateById_ids jobId g prev :
  (forall job, id (g job) = id job) ->
  map id (updateById jobId g prev) = map id prev.
Proof.
  intros Hg. unfold updateById. rewrite map_map. apply map_ext.
  intros job. destruct (decide (id job = jobId)); auto.
Qed.

Lemma updateById_absent jobId g prev :
  jobId ∉ map id prev -> updateById jobId g prev = prev.
Proof.
  intros Hnot. unfold updateById.
  induction prev as [|job rest IH]; [reflexivity|].
  simpl in *. rewrite not_elem_of_cons in Hnot. destruct Hnot as [Hne Hrest].
  destruct (decide (id job = jobId)); [congruence|].
  f_equal. auto.
Qed.

Lemma updateById_session jobId g session stored :
  jobId ∉ map id stored ->
  updateById jobId g (session ++ stored)
    = updateById jobId g session ++ stored.
Proof.
  intros Hnot. unfold updateById at 1. rewrite map_app.
  fold (updateById jobId g session). fold (updateById jobId g stored).
  rewrite (updateById_absent _ _ _ Hnot). reflexivity.
Qed.

Lemma updateById_elem jobId g prev job' :
  job' ∈ updateById jobId g prev ->
  exists job, job ∈ prev
    /\ ((id job = jobId /\ job' = g job) \/ (id job <> jobId /\ job' = job)).
Proof.
  unfold updateById. intros Hin.
  apply list_elem_of_fmap in Hin as (job & -> & Hjob).
  exists job. split; [exact Hjob|].
  destruct (decide (id job = jobId)); auto.
Qed.

Lemma updateById_Forall2 (R : Job -> Job -> Prop) jobId g prev :
  (forall job, job ∈ prev -> R job job) ->
  (forall job, job ∈ prev -> id job = jobId -> R job (g job)) ->
  Forall2 R prev (updateById jobId g prev).
Proof.
  intros Hsame Hupd. unfold updateById.
  induction prev as [|job rest IH]; simpl; constructor.
  - destruct (decide (id job = jobId)).
    + apply Hupd; [apply list_elem_of_here|assumption].
    + apply Hsame, list_elem_of_here.
  - apply IH; intros; [apply Hsame|apply Hupd]; auto using list_elem_of_further.
Qed.

End UpdateById.

Section SchedulerProofs.
Import Scheduler SchedulerSpec.
Variable h : Host.
Variable stored : list Job.
Hypothesis stored_rehydrated : Forall rehydrated stored.

Lemma attemptsFollow_refl job : attemptsFollow job job.
Proof.
  unfold attemptsFollow, entersRunning. split; [reflexivity|].
  split; [intros [Hne Heq]; contradiction|reflexivity].
Qed.

Lemma attemptsFollow_not_running before after :
  id after = id before -> attempts after = attempts before ->
  status after <> running -> attemptsFollow before after.
Proof.
  intros Hid Hat Hst. unfold attemptsFollow, entersRunning.
  split; [exact Hid|]. split; [intros [_ Hr]; contradiction|auto].
Qed.

Lemma attemptsFollow_same_status before after :
  id after = id before -> attempts after = attempts before ->
  status after = status before -> attemptsFollow before after.
Proof.
  intros Hid Hat Hst. unfold attemptsFollow, entersRunning.
  split; [exact Hid|]. split; [intros [Hne Hr]; congruence|auto].
Qed.

Lemma attemptsFollow_all_refl js : Forall2 attemptsFollow js js.
Proof. induction js; constructor; auto using attemptsFollow_refl. Qed.

Lemma attemptsStep_refl js : attemptsStep js js.
Proof.
  exists [], js. split; [reflexivity|]. split; [constructor|].
  apply attemptsFollow_all_refl.
Qed.

Lemma unique_by_id (l : list Job) j j' :
  NoDup (map id l) -> j ∈ l -> j' ∈ l -> id j = id j' -> j = j'.
Proof.
  induction l as [|x l IH]; intros Hnd Hj Hj' Hid; [inversion Hj|].
  simpl in Hnd. apply NoDup_cons in Hnd as [Hx Hnd].
  apply elem_of_cons in Hj as [->|Hj]; apply elem_of_cons in Hj' as [->|Hj'].
  - reflexivity.
  - exfalso. apply Hx. rewrite Hid. apply list_elem_of_fmap_2. exact Hj'.
  - exfalso. apply Hx. rewrite <- Hid. apply list_elem_of_fmap_2. exact Hj.
  - auto.
Qed.

Lemma stored_not_queued running job :
  job ∈ stored -> eligible running job = false.
Proof.
  intros Hin. rewrite Forall_forall in stored_rehydrated.
  destruct (stored_rehydrated job Hin) as [Hs _].
  unfold eligible. rewrite Hs. reflexivity.
Qed.

Section Update.
Variables (session : list Job) (s s' : State).
Variables (jobId : string) (g : Job -> Job).
Hypothesis Hinv : Invariant stored session s.
Hypothesis Hin : jobId ∈ map id session.
Hypothesis Hg : forall job, id (g job) = id job.
Hypothesis Hjobs : jobs s' = updateById jobId g (jobs s).

Lemma update_jobs : jobs s' = updateById jobId g session ++ stored.
Proof.
  rewrite Hjobs, (inv_jobs _ _ _ Hinv).
  apply updateById_session, (inv_fresh _ _ _ Hinv), Hin.
Qed.

Lemma invariant_update :
  (size (runningJobs s') <= MAX_CONCURRENT_JOBS)%nat ->
  dom (executing s') = runningJobs s' ->
  runningJobs s' ⊆ {[ jobId ]} ∪ runningJobs s ->
  preparing s' ⊆ preparing s ->
  (forall j, j ∈ session -> id j = jobId -> status (g j) = running ->
     exists snapshot, executing s' !! jobId = Some (AwaitRun snapshot)) ->
  (forall j snapshot, j ∈ session -> id j <> jobId ->
     executing s !! id j = Some (AwaitRun snapshot) ->
     exists snapshot', executing s' !! id j = Some (AwaitRun snapshot')) ->
  Invariant stored (updateById jobId g session) s'.
Proof.
  intros Hbound Hdom Hrun Hprep Hhit Hmiss.
  destruct Hinv as [Hj Hnd Hfr Hb Hex Hrs Hps Hst].
  constructor.
  - apply update_jobs.
  - rewrite updateById_ids by exact Hg. exact Hnd.
  - rewrite updateById_ids by exact Hg. exact Hfr.
  - exact Hbound.
  - exact Hdom.
  - rewrite updateById_ids by exact Hg. intros i Hi.
    apply Hrun in Hi. apply elem_of_union in Hi as [Hi|Hi]; [|auto].
    apply elem_of_singleton in Hi. subst i. exact Hin.
  - rewrite updateById_ids by exact Hg. intros i Hi. apply Hps, Hprep, Hi.
  - intros j' Hj' Hrunning.
    apply updateById_elem in Hj' as (j & Hjs & [[Hid ->]|[Hid ->]]).
    + rewrite Hg, Hid. eapply Hhit; eauto.
    + destruct (Hst j Hjs Hrunning) as [snap Hsnap]. eapply Hmiss; eauto.
Qed.

Lemma attempts_update :
  (forall j, j ∈ session -> id j = jobId -> attemptsFollow j (g j)) ->
  attemptsStep (jobs s) (jobs s').
Proof.
  intros Hfollow. exists [], (jobs s'). split; [reflexivity|].
  split; [constructor|]. rewrite Hjobs.
  apply updateById_Forall2.
  - intros job _. apply attemptsFollow_refl.
  - intros job Hjob Hid. apply Hfollow; [|exact Hid].
    rewrite (inv_jobs _ _ _ Hinv) in Hjob.
    apply elem_of_app in Hjob as [Hjob|Hjob]; [exact Hjob|].
    exfalso. apply (inv_fresh _ _ _ Hinv jobId Hin).
    rewrite <- Hid. apply list_elem_of_fmap_2. exact Hjob.
Qed.

End Update.

Lemma invariant_initial : Invariant stored [] (initial stored).
Proof.
  constructor; unfold initial; cbn [jobs runningJobs preparing executing].
  - reflexivity.
  - constructor.
  - intros i Hi. inversion Hi.
  - rewrite size_empty. unfold MAX_CONCURRENT_JOBS. lia.
  - apply dom_empty_L.
  - intros i Hi. set_solver.
  - intros i Hi. set_solver.
  - intros j Hj. inversion Hj.
Qed.

Lemma executing_in_session session s i phase :
  Invariant stored session s -> executing s !! i = Some phase ->
  i ∈ map id session /\ i ∈ runningJobs s.
Proof.
  intros Hinv Hphase.
  assert (Hi : i ∈ runningJobs s).
  { rewrite <- (inv_executing _ _ _ Hinv). apply elem_of_dom. eauto. }
  split; [apply (inv_running_session _ _ _ Hinv), Hi|exact Hi].
Qed.

Lemma bound_after_delete session s i :
  Invariant stored session s ->
  (size (runningJobs s ∖ {[ i ]}) <= MAX_CONCURRENT_JOBS)%nat.
Proof.
  intros Hinv. etransitivity; [|apply (inv_bound _ _ _ Hinv)].
  apply subseteq_size. set_solver.
Qed.

(** Every step keeps the invariant and moves attempt counters only when
    a job enters ["running"]. *)
Lemma step_invariant session s s' :
  Invariant stored session s -> step h s s' ->
  (exists session', Invariant stored session' s')
  /\ attemptsStep (jobs s) (jobs s').
Proof.
  intros Hinv Hstep.
  destruct Hstep as
    [ s jobId model promptText now startPreview path Hfresh
    | s File storage_upload jobId model basePayload start end_ Hprep
    | s
    | s job event Hexec
    | s job resultUrl resultRaw Hexec
    | s job e Hexec
    | s jobId fileName resultUrl run Hexec
    | s job Hjob ].
  - (* submit *)
    set (new := newJob jobId model promptText now startPreview path).
    rewrite (inv_jobs _ _ _ Hinv) in Hfresh.
    rewrite map_app, elem_of_app in Hfresh.
    split.
    + exists (new :: session).
      destruct Hinv as [Hj Hnd Hfr Hb Hex Hrs Hps Hst].
      constructor; unfold submit; cbn [jobs runningJobs preparing executing].
      * rewrite Hj. reflexivity.
      * simpl. apply NoDup_cons. split; [tauto|exact Hnd].
      * simpl. intros i Hi. apply elem_of_cons in Hi as [->|Hi]; [tauto|auto].
      * exact Hb.
      * exact Hex.
      * simpl. intros i Hi. apply list_elem_of_further. auto.
      * simpl. intros i Hi. apply elem_of_union in Hi as [Hi|Hi].
        -- apply elem_of_singleton in Hi. subst i. apply list_elem_of_here.
        -- apply list_elem_of_further. auto.
      * intros j Hj' Hrun. apply elem_of_cons in Hj' as [->|Hj'];
          [discriminate Hrun|auto].
    + exists [new], (jobs s). split; [reflexivity|]. split.
      * constructor; [split; reflexivity|constructor].
      * apply attemptsFollow_all_refl.
  - (* prepared *)
    assert (Hin := inv_preparing_session _ _ _ Hinv _ Hprep).
    destruct (settlePrepare_cases storage_upload jobId model basePayload
                start end_ (jobs s)) as [[p Hset]|(patch & Hset & Hps & Hpa)].
    + destruct (enqueueJob_updateById jobId p (jobs s))
        as (g & Hg & Hgid & Hgst & Hgat).
      assert (Hjobs : jobs (prepared jobId
                              (Prepare.prepareJobPayload storage_upload jobId
                                 model basePayload start end_) s)
                      = updateById jobId g (jobs s))
        by (unfold prepared; cbn [jobs]; congruence).
      split.
      * eexists. apply (invariant_update session s _ jobId g Hinv Hin Hgid Hjobs);
          unfold prepared; cbn [jobs runningJobs preparing executing].
        -- apply (inv_bound _ _ _ Hinv).
        -- apply (inv_executing _ _ _ Hinv).
        -- set_solver.
        -- set_solver.
        -- intros j _ _ Hr. rewrite Hgst in Hr. discriminate.
        -- eauto.
      * apply (attempts_update session s _ jobId g Hinv Hin Hjobs).
        intros j _ _. apply attemptsFollow_not_running; auto.
        rewrite Hgst. discriminate.
    + rewrite notifyJobUpdate_updateById in Hset.
      set (g := fun job : Job => applyPatch job patch) in Hset.
      assert (Hjobs : jobs (prepared jobId
                              (Prepare.prepareJobPayload storage_upload jobId
                                 model basePayload start end_) s)
                      = updateById jobId g (jobs s))
        by (unfold prepared; cbn [jobs]; exact Hset).
      assert (Hst : forall j, status (g j) = error)
        by (intros j; unfold g; simpl; rewrite Hps; reflexivity).
      split.
      * eexists.
        apply (invariant_update session s _ jobId g Hinv Hin
                 (fun _ => eq_refl) Hjobs);
          unfold prepared; cbn [jobs runningJobs preparing executing].
        -- apply (inv_bound _ _ _ Hinv).
        -- apply (inv_executing _ _ _ Hinv).
        -- set_solver.
        -- set_solver.
        -- intros j _ _ Hr. rewrite Hst in Hr. discriminate.
        -- eauto.
      * apply (attempts_update session s _ jobId g Hinv Hin Hjobs).
        intros j _ _. apply attemptsFollow_not_running.
        -- reflexivity.
        -- unfold g. simpl. rewrite Hpa. reflexivity.
        -- rewrite Hst. discriminate.
  - (* tick *)
    unfold tick.
    destruct (decide (MAX_CONCURRENT_JOBS <= size (runningJobs s))%nat)
      as [Hfull|Hroom]; [split; [eauto|apply attemptsStep_refl]|].
    destruct (find (eligible (runningJobs s)) (jobs s)) as [nextJob|] eqn:Hfind;
      [|split; [eauto|apply attemptsStep_refl]].
    apply find_some in Hfind as [Hnext Helig].
    apply list_elem_of_In in Hnext.
    unfold startJobExecution.
    destruct (payload nextJob) as [p|] eqn:Hp;
      [|split; [eauto|apply attemptsStep_refl]].
    assert (Hsess : nextJob ∈ session).
    { rewrite (inv_jobs _ _ _ Hinv) in Hnext.
      apply elem_of_app in Hnext as [Hnext|Hnext]; [exact Hnext|].
      rewrite (stored_not_queued _ _ Hnext) in Helig. discriminate. }
    unfold eligible in Helig. apply andb_true_iff in Helig as [Hq Hnr].
    apply bool_decide_eq_true in Hq.
    apply negb_true_iff, bool_decide_eq_false in Hnr.
    assert (Hin : id nextJob ∈ map id session)
      by (apply list_elem_of_fmap_2; exact Hsess).
    match goal with
    | |- (exists session', Invariant stored session' ?st) /\ _ =>
        set (s' := st)
    end.
    pose (g := fun job : Job =>
                 applyPatch job
                   {| p_status := Some running;
                      p_attempts := Some (attempts nextJob + 1);
                      p_videoUrl := None; p_error := None; p_raw := None;
                      p_events := None; p_localKey := None;
                      p_localUrl := None; p_saving := None;
                      p_saved := None; p_saveError := None |}).
    assert (Hjobs : jobs s' = updateById (id nextJob) g (jobs s))
      by reflexivity.
    split.
    + eexists.
      apply (invariant_update session s s' (id nextJob) g Hinv Hin
               (fun _ => eq_refl) Hjobs);
        unfold s'; cbn [jobs runningJobs preparing executing].
      * rewrite size_union by set_solver. rewrite size_singleton.
        unfold MAX_CONCURRENT_JOBS in *. lia.
      * rewrite dom_insert_L, (inv_executing _ _ _ Hinv). reflexivity.
      * set_solver.
      * set_solver.
      * intros j _ _ _. exists nextJob. apply lookup_insert_eq.
      * intros j snapshot _ Hne Hsnap. exists snapshot.
        rewrite lookup_insert_ne by congruence. exact Hsnap.
    + apply (attempts_update session s s' (id nextJob) g Hinv Hin Hjobs).
      intros j Hj Hid.
      assert (j = nextJob)
        by (apply (unique_by_id session);
            [apply (inv_nodup _ _ _ Hinv)|exact Hj|exact Hsess|exact Hid]).
      subst j. unfold attemptsFollow, entersRunning.
      split; [reflexivity|]. split; [reflexivity|].
      intros Hno. exfalso. apply Hno. split; [congruence|reflexivity].
  - (* queue update *)
    unfold queueUpdate.
    destruct (eventMessage event) as [message|];
      [|split; [eauto|apply attemptsStep_refl]].
    destruct (executing_in_session _ _ _ _ Hinv Hexec) as [Hin Hrun].
    match goal with
    | |- (exists session', Invariant stored session' ?st) /\ _ =>
        set (s' := st)
    end.
    pose (g := fun job : Job =>
                 applyPatch job
                   {| p_status := None; p_attempts := None;
                      p_videoUrl := None; p_error := None; p_raw := None;
                      p_events := Some (events job ++ [message]);
                      p_localKey := None; p_localUrl := None;
                      p_saving := None; p_saved := None;
                      p_saveError := None |}).
    assert (Hjobs : jobs s' = updateById (id job) g (jobs s)) by reflexivity.
    split.
    + eexists.
      apply (invariant_update session s s' (id job) g Hinv Hin
               (fun _ => eq_refl) Hjobs);
        unfold s'; cbn [jobs runningJobs preparing executing].
      * apply (inv_bound _ _ _ Hinv).
      * apply (inv_executing _ _ _ Hinv).
      * set_solver.
      * set_solver.
      * intros j Hj Hid Hr. rewrite <- Hid.
        apply (inv_status _ _ _ Hinv j Hj Hr).
      * eauto.
    + apply (attempts_update session s s' (id job) g Hinv Hin Hjobs).
      intros j _ _. apply attemptsFollow_same_status; reflexivity.
  - (* the run resolved *)
    destruct (executing_in_session _ _ _ _ Hinv Hexec) as [Hin Hrun].
    match goal with
    | |- (exists session', Invariant stored session' ?st) /\ _ =>
        set (s' := st)
    end.
    assert (Hjobs : exists g, jobs s' = updateById (id job) g (jobs s)
                      /\ (forall j, id (g j) = id j)
                      /\ (forall j, status (g j) = success)
                      /\ (forall j, attempts (g j) = attempts j)).
    { eexists. split; [reflexivity|]. auto. }
    destruct Hjobs as (g & Hjobs & Hgid & Hgst & Hgat).
    split.
    + eexists.
      apply (invariant_update session s s' (id job) g Hinv Hin Hgid Hjobs);
        unfold s', runResolved; cbn [jobs runningJobs preparing executing].
      * apply (inv_bound _ _ _ Hinv).
      * rewrite dom_insert_L, (inv_executing _ _ _ Hinv). set_solver.
      * set_solver.
      * set_solver.
      * intros j _ _ Hr. rewrite Hgst in Hr. discriminate.
      * intros j snapshot _ Hne Hsnap. exists snapshot.
        rewrite lookup_insert_ne by congruence. exact Hsnap.
    + apply (attempts_update session s s' (id job) g Hinv Hin Hjobs).
      intros j _ _. apply attemptsFollow_not_running; auto.
      rewrite Hgst. discriminate.
  - (* the run was rejected *)
    destruct (executing_in_session _ _ _ _ Hinv Hexec) as [Hin Hrun].
    match goal with
    | |- (exists session', Invariant stored session' ?st) /\ _ =>
        set (s' := st)
    end.
    assert (Hjobs : exists g, jobs s' = updateById (id job) g (jobs s)
                      /\ (forall j, id (g j) = id j)
                      /\ (forall j, status (g j) = error)
                      /\ (forall j, attempts (g j) = attempts j)).
    { eexists. split; [reflexivity|]. auto. }
    destruct Hjobs as (g & Hjobs & Hgid & Hgst & Hgat).
    split.
    + eexists.
      apply (invariant_update session s s' (id job) g Hinv Hin Hgid Hjobs);
        unfold s', runRejected; cbn [jobs runningJobs preparing executing].
      * apply (bound_after_delete _ _ _ Hinv).
      * rewrite dom_delete_L, (inv_executing _ _ _ Hinv). reflexivity.
      * set_solver.
      * set_solver.
      * intros j _ _ Hr. rewrite Hgst in Hr. discriminate.
      * intros j snapshot _ Hne Hsnap. exists snapshot.
        rewrite lookup_delete_ne by congruence. exact Hsnap.
    + apply (attempts_update session s s' (id job) g Hinv Hin Hjobs).
      intros j _ _. apply attemptsFollow_not_running; auto.
      rewrite Hgst. discriminate.
  - (* persistence settled *)
    destruct (executing_in_session _ _ _ _ Hinv Hexec) as [Hin Hrun].
    destruct (persistVideoAsset_cases h run jobId fileName resultUrl (jobs s))
      as (patch & Hset & Hps & Hpa).
    rewrite notifyJobUpdate_updateById in Hset.
    set (g := fun job : Job => applyPatch job patch) in Hset.
    set (s' := persistSettled h jobId fileName resultUrl run s).
    assert (Hjobs : jobs s' = updateById jobId g (jobs s)) by exact Hset.
    assert (Hgst : forall j, status (g j) = status j)
      by (intros j; unfold g; simpl; rewrite Hps; reflexivity).
    split.
    + eexists.
      apply (invariant_update session s s' jobId g Hinv Hin
               (fun _ => eq_refl) Hjobs);
        unfold s', persistSettled; cbn [jobs runningJobs preparing executing].
      * apply (bound_after_delete _ _ _ Hinv).
      * rewrite dom_delete_L, (inv_executing _ _ _ Hinv). reflexivity.
      * set_solver.
      * set_solver.
      * intros j Hj Hid Hr. rewrite Hgst in Hr.
        destruct (inv_status _ _ _ Hinv j Hj Hr) as [snapshot Hsnap].
        rewrite Hid, Hexec in Hsnap. discriminate.
      * intros j snapshot _ Hne Hsnap. exists snapshot.
        rewrite lookup_delete_ne by congruence. exact Hsnap.
    + apply (attempts_update session s s' jobId g Hinv Hin Hjobs).
      intros j _ _. apply attemptsFollow_same_status.
      * reflexivity.
      * unfold g. simpl. rewrite Hpa. reflexivity.
      * apply Hgst.
  - (* retry *)
    set (s' := retry job s).
    destruct (payload job) as [p|] eqn:Hp.
    + assert (Hsess : job ∈ session).
      { rewrite (inv_jobs _ _ _ Hinv) in Hjob.
        apply elem_of_app in Hjob as [Hjob|Hjob]; [exact Hjob|].
        rewrite Forall_forall in stored_rehydrated.
        destruct (stored_rehydrated job Hjob) as [_ Hnone]. congruence. }
      assert (Hin : id job ∈ map id session)
        by (apply list_elem_of_fmap_2; exact Hsess).
      assert (Hjobs : exists g, jobs s' = updateById (id job) g (jobs s)
                        /\ (forall j, id (g j) = id j)
                        /\ (forall j, status (g j) = queued)
                        /\ (forall j, attempts (g j) = attempts j)).
      { unfold s', retry, handleRetry. cbn [jobs]. rewrite Hp.
        eexists. split; [reflexivity|]. auto. }
      destruct Hjobs as (g & Hjobs & Hgid & Hgst & Hgat).
      split.
      * eexists.
        apply (invariant_update session s s' (id job) g Hinv Hin Hgid Hjobs);
          unfold s', retry; cbn [jobs runningJobs preparing executing].
        -- apply (inv_bound _ _ _ Hinv).
        -- apply (inv_executing _ _ _ Hinv).
        -- set_solver.
        -- set_solver.
        -- intros j _ _ Hr. rewrite Hgst in Hr. discriminate.
        -- eauto.
      * apply (attempts_update session s s' (id job) g Hinv Hin Hjobs).
        intros j _ _. apply attemptsFollow_not_running; auto.
        rewrite Hgst. discriminate.
    + assert (Hjobs : jobs s' = jobs s)
        by (unfold s', retry, handleRetry; cbn [jobs]; rewrite Hp; reflexivity).
      split; [|rewrite Hjobs; apply attemptsStep_refl].
      exists session. destruct Hinv as [Hj Hnd Hfr Hb Hex Hrs Hps Hst].
      constructor; auto. rewrite Hjobs. exact Hj.
Qed.

End SchedulerProofs.

Section SchedulerTheorems.
Import Scheduler SchedulerSpec.
Variable h : Host.

Lemma loadStoredJobs_rehydrated stored :
  Forall rehydrated (Store.loadStoredJobs h stored).
Proof.
  apply Forall_forall. intros j Hj.
  apply loadStoredJobs_elem in Hj as (text & data & i & entry & _ & _ & _ & _ & Hj).
  destruct (loadEntry_Some _ _ _ _ Hj)
    as (key & url & _ & _ & _ & _ & _ & _ & _ & Hs & _ & Hp & _).
  split; assumption.
Qed.

Lemma reachable_invariant stored s :
  Forall rehydrated stored -> reachable h stored s ->
  exists session, Invariant stored session s.
Proof.
  intros Hstored Hreach. induction Hreach as [|s s' _ [session Hinv] Hstep].
  - exists []. apply invariant_initial. exact Hstored.
  - destruct (step_invariant h stored Hstored session s s' Hinv Hstep)
      as [Hnext _]. exact Hnext.
Qed.

Lemma runningCount_app l1 l2 :
  runningCount (l1 ++ l2) = (runningCount l1 + runningCount l2)%nat.
Proof. unfold runningCount. rewrite filter_app, length_app. reflexivity. Qed.

Lemma runningCount_rehydrated stored :
  Forall rehydrated stored -> runningCount stored = 0%nat.
Proof.
  unfold runningCount. induction 1 as [|j l [Hs _] _ IH]; [reflexivity|].
  rewrite filter_cons_False by (rewrite Hs; discriminate). exact IH.
Qed.

Lemma invariant_runningCount stored session s :
  Forall rehydrated stored -> Invariant stored session s ->
  (runningCount (jobs s) <= size (runningJobs s))%nat.
Proof.
  intros Hstored Hinv.
  rewrite (inv_jobs _ _ _ Hinv), runningCount_app,
    (runningCount_rehydrated _ Hstored), Nat.add_0_r.
  unfold runningCount.
  set (active := filter (fun job => status job = running) session).
  assert (Hnd : NoDup (map id active)).
  { eapply sublist_NoDup; [apply (inv_nodup _ _ _ Hinv)|].
    apply (fmap_sublist id), sublist_filter. }
  rewrite <- (length_map id active).
  rewrite <- (size_list_to_set (C := gset string)) by exact Hnd.
  apply subseteq_size. intros i Hi.
  apply elem_of_list_to_set, list_elem_of_fmap in Hi as (j & -> & Hj).
  apply list_elem_of_filter in Hj as [Hrun Hj].
  destruct (inv_status _ _ _ Hinv j Hj Hrun) as [snapshot Hsnap].
  rewrite <- (inv_executing _ _ _ Hinv). apply elem_of_dom. eauto.
Qed.

Lemma tick_full s :
  (MAX_CONCURRENT_JOBS <= size (runningJobs s))%nat -> tick s = s.
Proof.
  intros Hfull. unfold tick.
  destruct (decide (MAX_CONCURRENT_JOBS <= size (runningJobs s))%nat);
    [reflexivity|contradiction].
Qed.

Lemma tick_starts_at_most_one s :
  runningJobs (tick s) = runningJobs s
  \/ exists next,
       next ∈ jobs s /\ status next = queued /\ (id next ∉ runningJobs s)
       /\ runningJobs (tick s) = ({[ id next ]} ∪ runningJobs s).
Proof.
  unfold tick.
  destruct (decide (MAX_CONCURRENT_JOBS <= size (runningJobs s))%nat);
    [left; reflexivity|].
  destruct (find (eligible (runningJobs s)) (jobs s)) as [next|] eqn:Hfind;
    [|left; reflexivity].
  apply find_some in Hfind as [Hnext Helig].
  apply list_elem_of_In in Hnext.
  unfold eligible in Helig. apply andb_true_iff in Helig as [Hq Hnr].
  apply bool_decide_eq_true in Hq.
  apply negb_true_iff, bool_decide_eq_false in Hnr.
  unfold startJobExecution. destruct (payload next); [|left; reflexivity].
  right. exists next. auto.
Qed.

(** C1.  In every state that the page can reach after rehydrating the
    stored history, at most [MAX_CONCURRENT_JOBS] = 2 jobs have the status
    ["running"]: every running job is counted by the [runningJobs] set,
    whose size never exceeds the bound.  The scheduling effect does
    nothing when the set is full, and otherwise adds at most one job to
    it, a queued job that was not in the set. *)
Theorem running_jobs_bounded (stored : option string) (s : State) :
  reachable h (Store.loadStoredJobs h stored) s ->
  (runningCount (jobs s) <= MAX_CONCURRENT_JOBS)%nat
  /\ (runningCount (jobs s) <= size (runningJobs s))%nat
  /\ (size (runningJobs s) <= MAX_CONCURRENT_JOBS)%nat
  /\ ((MAX_CONCURRENT_JOBS <= size (runningJobs s))%nat -> tick s = s)
  /\ (runningJobs (tick s) = runningJobs s
      \/ exists next,
           next ∈ jobs s /\ status next = queued
           /\ (id next ∉ runningJobs s)
           /\ runningJobs (tick s) = ({[ id next ]} ∪ runningJobs s)).
Proof.
  intros Hreach.
  assert (Hstored := loadStoredJobs_rehydrated stored).
  destruct (reachable_invariant _ _ Hstored Hreach) as [session Hinv].
  assert (Hcount := invariant_runningCount _ _ _ Hstored Hinv).
  assert (Hbound := inv_bound _ _ _ Hinv).
  split; [lia|]. split; [exact Hcount|]. split; [exact Hbound|].
  split; [apply tick_full|apply tick_starts_at_most_one].
Qed.

Lemma find_lookup {A} (f : A -> bool) (l : list A) x :
  find f l = Some x -> exists k, l !! k = Some x.
Proof.
  intros Hfind. apply find_some in Hfind as [Hin _].
  apply list_elem_of_In, list_elem_of_lookup in Hin. exact Hin.
Qed.

(** C7.  Across any step from a reachable state, every job keeps its place
    and its id, its attempt counter grows by exactly one if the step puts
    it into ["running"] and is unchanged otherwise; a job added by the
    step is the submitted one, with counter 0 and status ["uploading"].
    When the scheduling effect starts a job, that job becomes
    ["running"] with its previous counter plus one. *)
Theorem attempts_increase_on_start (stored : option string) (s s' : State) :
  reachable h (Store.loadStoredJobs h stored) s ->
  step h s s' ->
  attemptsStep (jobs s) (jobs s')
  /\ (forall next,
        (size (runningJobs s) < MAX_CONCURRENT_JOBS)%nat ->
        find (eligible (runningJobs s)) (jobs s) = Some next ->
        is_Some (payload next) ->
        exists k started,
          jobs s !! k = Some next
          /\ jobs (tick s) !! k = Some started
          /\ status started = running
          /\ attempts started = (attempts next + 1)%nat).
Proof.
  intros Hreach Hstep.
  assert (Hstored := loadStoredJobs_rehydrated stored).
  destruct (reachable_invariant _ _ Hstored Hreach) as [session Hinv].
  split.
  - apply (step_invariant h _ Hstored session s s' Hinv Hstep).
  - intros next Hroom Hfind [p Hp].
    destruct (find_lookup _ _ _ Hfind) as [k Hk].
    exists k. unfold tick.
    destruct (decide (MAX_CONCURRENT_JOBS <= size (runningJobs s))%nat);
      [lia|].
    rewrite Hfind. unfold startJobExecution. rewrite Hp.
    cbn [jobs]. rewrite notifyJobUpdate_lookup, Hk. simpl.
    destruct (decide (id next = id next)); [|contradiction].
    eexists. split; [reflexivity|]. split; [reflexivity|].
    split; reflexivity.
Qed.

(** C10.  Every job returned by [loadStoredJobs] has status ["success"],
    attempt counter 1, [saved = true], [saving = false] and no payload.
    The predicate of the scheduling effect rejects it whatever the
    running set is, the Retry button is not offered for it and
    [handleRetry] on it changes nothing; in every reachable state it is
    still in the list, it is not the job the scheduling effect selects
    and retrying it leaves the state as it is. *)
Theorem rehydrated_jobs_inert (stored : option string) (j : Job) :
  j ∈ Store.loadStoredJobs h stored ->
  status j = success /\ attempts j = 1%nat
  /\ saved j = Some true /\ saving j = Some false
  /\ payload j = None
  /\ (forall running, eligible running j = false)
  /\ retryOffered j = false
  /\ (forall prev, handleRetry j prev = prev)
  /\ (forall s, reachable h (Store.loadStoredJobs h stored) s ->
        j ∈ jobs s
        /\ find (eligible (runningJobs s)) (jobs s) <> Some j
        /\ retry j s = s).
Proof.
  intros Hj.
  apply loadStoredJobs_elem in Hj as Hentry.
  destruct Hentry as (text & data & i & entry & _ & _ & _ & _ & Hentry).
  destruct (loadEntry_Some _ _ _ _ Hentry)
    as (key & url & _ & _ & _ & _ & _ & _ & _ & Hs & Ha & Hp & Hsaving & Hsaved).
  assert (Helig : forall running, eligible running j = false)
    by (intros running; unfold eligible; rewrite Hs; reflexivity).
  assert (Hretry : forall prev, handleRetry j prev = prev)
    by (intros prev; unfold handleRetry; rewrite Hp; reflexivity).
  repeat (split; [assumption|]).
  split; [unfold retryOffered; rewrite Hs; reflexivity|].
  split; [exact Hretry|].
  intros s Hreach.
  destruct (reachable_invariant _ _ (loadStoredJobs_rehydrated stored) Hreach)
    as [session Hinv].
  split; [|split].
  - rewrite (inv_jobs _ _ _ Hinv). apply elem_of_app. right. exact Hj.
  - intros Hfind. apply find_some in Hfind as [_ Hfind].
    rewrite Helig in Hfind. discriminate.
  - unfold retry. rewrite Hretry. destruct s; reflexivity.
Qed.

End SchedulerTheorems.

(** ** The properties on sample data *)

Section Witnesses.
Import Scheduler SchedulerSpec Samples.

Example sampleStored_value : sampleStored = [sampleRehydrated].
Proof. vm_compute. reflexivity. Qed.

Example sampleRunning_jobs :
  map (fun job => (id job, status job, attempts job)) (jobs sampleRunning)
  = [("job_3_new001", running, 1%nat); ("job_1_abc123", success, 1%nat)].
Proof. vm_compute. reflexivity. Qed.

Example sampleRejected_jobs :
  map (fun job => (status job, attempts job, errorMessage job))
      (jobs sampleRejected)
  = [(error, 1%nat, Some "provider unavailable"); (success, 1%nat, None)]
  /\ elements (runningJobs sampleRejected) = [].
Proof. vm_compute. split; reflexivity. Qed.

Example sampleSecondRun_jobs :
  map (fun job => (status job, attempts job)) (jobs sampleRetried)
  = [(queued, 1%nat); (success, 1%nat)]
  /\ map (fun job => (status job, attempts job)) (jobs sampleSecondRun)
     = [(running, 2%nat); (success, 1%nat)].
Proof. vm_compute. split; reflexivity. Qed.

Example sanitizeFileSegment_sample :
  FileName.sanitizeFileSegment "  My Downloads/Video Clips!! "
  = "my-downloads-video-clips"
  /\ FileName.sanitizeFileSegment "---" = ""
  /\ FileName.buildVideoFileName sampleHost sampleClips
     = "clips-kling-2-5-1700000000000-a1b2c3.mp4".
Proof. vm_compute. repeat split; reflexivity. Qed.

Example resolveAspectRatio_samples :
  Aspect.resolveAspectRatio (Some (Aspect.Dimensions 1920 1080)) = Some "16:9"
  /\ Aspect.resolveAspectRatio (Some (Aspect.Dimensions (5 # 2) 5)) = Some "3:5"
  /\ Aspect.resolveAspectRatio (Some (Aspect.Dimensions 0 1080)) = None
  /\ Aspect.resolveAspectRatio (Some (Aspect.Preset "cinema")) = None.
Proof. vm_compute. repeat split; reflexivity. Qed.

Ltac decide_by_computation :=
  apply (bool_decide_unpack _); vm_compute; exact I.

Ltac sample_prepared_reachable :=
  refine (reachable_step _ _ _ _ (reachable_step _ _ _ _
            (reachable_initial _ _) (step_submit _ _ _ _ _ _ _ _ _))
            (step_prepared _ _ _ _ _ _ _ _ _ _));
  decide_by_computation.

Lemma running_jobs_bounded_witness :
  reachable sampleHost (Store.loadStoredJobs sampleHost (Some "index"))
    sampleRunning
  /\ (runningCount (jobs sampleRunning) <= MAX_CONCURRENT_JOBS)%nat.
Proof.
  assert (Hreach : reachable sampleHost
                     (Store.loadStoredJobs sampleHost (Some "index"))
                     sampleRunning).
  { refine (reachable_step _ _ samplePrepared _ _ (step_tick _ _)).
    sample_prepared_reachable. }
  split; [exact Hreach|].
  apply (running_jobs_bounded sampleHost (Some "index") sampleRunning Hreach).
Defined.

Lemma attempts_increase_on_start_witness :
  reachable sampleHost (Store.loadStoredJobs sampleHost (Some "index"))
    samplePrepared
  /\ step sampleHost samplePrepared sampleRunning
  /\ attemptsStep (jobs samplePrepared) (jobs sampleRunning).
Proof.
  assert (Hreach : reachable sampleHost
                     (Store.loadStoredJobs sampleHost (Some "index"))
                     samplePrepared) by sample_prepared_reachable.
  assert (Hstep : step sampleHost samplePrepared sampleRunning)
    by apply step_tick.
  split; [exact Hreach|]. split; [exact Hstep|].
  apply (attempts_increase_on_start sampleHost (Some "index")
           samplePrepared sampleRunning Hreach Hstep).
Defined.

Lemma rehydrated_jobs_inert_witness :
  sampleRehydrated ∈ Store.loadStoredJobs sampleHost (Some "index")
  /\ status sampleRehydrated = success
  /\ payload sampleRehydrated = None
  /\ handleRetry sampleRehydrated [sampleFailed; sampleRehydrated]
     = [sampleFailed; sampleRehydrated].
Proof.
  assert (Hin : sampleRehydrated
                ∈ Store.loadStoredJobs sampleHost (Some "index"))
    by (replace (Store.loadStoredJobs sampleHost (Some "index"))
          with [sampleRehydrated] by (vm_compute; reflexivity);
        apply list_elem_of_here).
  destruct (rehydrated_jobs_inert sampleHost (Some "index") sampleRehydrated Hin)
    as (Hs & _ & _ & _ & Hp & _ & _ & Hretry & _).
  split; [exact Hin|]. split; [exact Hs|]. split; [exact Hp|]. apply Hretry.
Defined.

Lemma handleRetry_requeues_witness :
  status sampleFailed = error
  /\ is_Some (payload sampleFailed)
  /\ exists j',
       handleRetry sampleFailed [sampleFailed; sampleRehydrated] !! 0%nat
         = Some j'
       /\ status j' = queued /\ errorMessage j' = None
       /\ attempts j' = attempts sampleFailed.
Proof.
  assert (Hs : status sampleFailed = error) by reflexivity.
  assert (Hp : is_Some (payload sampleFailed)) by (eexists; reflexivity).
  split; [exact Hs|]. split; [exact Hp|].
  destruct (handleRetry_requeues sampleFailed [sampleFailed; sampleRehydrated])
    as (_ & _ & Hretry).
  destruct (Hretry Hs Hp 0%nat sampleFailed eq_refl) as (j' & Hj' & _ & Hsame).
  destruct (Hsame eq_refl) as (Hq & He & Ha & _).
  exists j'. auto.
Defined.

Lemma loadStoredJobs_admits_only_keyed_records_witness :
  sampleRehydrated ∈ Store.loadStoredJobs sampleHost (Some "index")
  /\ (exists text data i entry,
        Some "index" = Some text
        /\ JSON_parse sampleHost text = Some (Js.JArr data)
        /\ data !! i = Some entry
        /\ Props.carriesKeyAndUrl entry
        /\ Store.loadEntry sampleHost i entry = Some sampleRehydrated
        /\ Js.get "localKey" entry = Js.JStr <$> localKey sampleRehydrated
        /\ Js.get "localUrl" entry = Js.JStr <$> localUrl sampleRehydrated)
  /\ Store.loadStoredJobs sampleHost (Some "not json") = []
  /\ Store.loadStoredJobs sampleHost (Some "{}") = [].
Proof.
  assert (Hin : sampleRehydrated
                ∈ Store.loadStoredJobs sampleHost (Some "index"))
    by (replace (Store.loadStoredJobs sampleHost (Some "index"))
          with [sampleRehydrated] by (vm_compute; reflexivity);
        apply list_elem_of_here).
  split; [exact Hin|]. split; [|split].
  - destruct (loadStoredJobs_admits_only_keyed_records sampleHost
                (Some "index")) as (Hadmit & _).
    exact (Hadmit sampleRehydrated Hin).
  - destruct (loadStoredJobs_admits_only_keyed_records sampleHost
                (Some "not json")) as (_ & _ & _ & Hparse & _).
    apply (Hparse "not json"); reflexivity.
  - destruct (loadStoredJobs_admits_only_keyed_records sampleHost
                (Some "{}")) as (_ & _ & _ & _ & Hshape & _).
    apply (Hshape "{}" (Js.JObj [])); [reflexivity|reflexivity|discriminate].
Defined.

Lemma persistStoredJobs_writes_completed_only_witness :
  sampleFailed ∈ [sampleSucceeded; sampleFailed; sampleRehydrated]
  /\ status sampleFailed <> success
  /\ (sampleFailed
       ∉ filter (fun j => Store.isCompleted j = true)
           [sampleSucceeded; sampleFailed; sampleRehydrated])
  /\ (Store.storedRecord sampleRehydrated
       ∈ Store.persistedIndex [sampleSucceeded; sampleFailed; sampleRehydrated])
  /\ Forall2 Props.describes [sampleRehydrated]
       (Store.persistedIndex [sampleSucceeded; sampleFailed; sampleRehydrated]).
Proof.
  assert (Hin : sampleFailed
                ∈ [sampleSucceeded; sampleFailed; sampleRehydrated])
    by (apply list_elem_of_further, list_elem_of_here).
  assert (Hs : status sampleFailed <> success) by discriminate.
  destruct (persistStoredJobs_writes_completed_only sampleHost
              [sampleSucceeded; sampleFailed; sampleRehydrated])
    as (_ & Hrecords & Hnever & _ & Hdescribed & _).
  split; [exact Hin|]. split; [exact Hs|]. split; [|split].
  - exact (Hnever sampleFailed Hin Hs).
  - apply Hrecords. exists sampleRehydrated.
    split; [do 2 apply list_elem_of_further; apply list_elem_of_here|].
    split; [reflexivity|]. split; [reflexivity|].
    split; eexists; (split; [reflexivity|discriminate]).
  - exact Hdescribed.
Defined.


Lemma persist_failure_keeps_status_witness :
  Props.persistSucceeds sampleFailedPersist = false
  /\ exists j',
       Persist.persistVideoAsset sampleHost sampleFailedPersist
         "job_5_ok0003" "downloads-kling-1700000003000-ok0003.mp4"
         "https://provider.example/out.mp4"
         [sampleSucceeded; sampleFailed] !! 0%nat = Some j'
       /\ status j' = success
       /\ videoUrl j' = Some "https://provider.example/out.mp4"
       /\ saving j' = Some false /\ saved j' = Some false
       /\ is_Some (saveError j').
Proof.
  assert (Hfail : Props.persistSucceeds sampleFailedPersist = false)
    by reflexivity.
  split; [exact Hfail|].
  destruct (persist_failure_keeps_status sampleHost sampleFailedPersist
              "job_5_ok0003" "downloads-kling-1700000003000-ok0003.mp4"
              "https://provider.example/out.mp4"
              [sampleSucceeded; sampleFailed] Hfail 0%nat sampleSucceeded
              eq_refl)
    as (j' & Hj' & Hs & Hv & Hflags & _).
  destruct (Hflags eq_refl) as (Hsaving & Hsaved & Herr).
  exists j'. repeat split; assumption.
Defined.


End Witnesses.

(** ** Life cycle of a job *)

Section LifecycleProofs.
Import Jobs Scheduler SchedulerSpec Lifecycle.
Variable h : Host.

Lemma uiStep_step s s' : uiStep h s s' -> step h s s'.
Proof. destruct 1; econstructor; eassumption. Qed.

Lemma uiReachable_reachable stored s :
  uiReachable h stored s -> reachable h stored s.
Proof.
  induction 1 as [|s s' _ IH Hstep]; [constructor|].
  eapply reachable_step; [exact IH|apply uiStep_step, Hstep].
Qed.

Lemma allowedTransition_refl st : allowedTransition st st = true.
Proof. destruct st; reflexivity. Qed.

Lemma related_refl (R : Job -> Job -> Prop) js :
  (forall j, R j j) -> related R js js.
Proof.
  intros Hrefl. exists [], js. split; [reflexivity|].
  split; [simpl; lia|]. split; [constructor|].
  induction js; constructor; auto.
Qed.

Lemma related_update (R : Job -> Job -> Prop) jobId g js :
  (forall j, R j j) ->
  (forall j, j ∈ js -> id j = jobId -> R j (g j)) ->
  related R js (updateById jobId g js).
Proof.
  intros Hrefl Hupd. exists [], (updateById jobId g js).
  split; [reflexivity|]. split; [simpl; lia|]. split; [constructor|].
  apply updateById_Forall2; auto.
Qed.

Lemma same_id_in_session stored session s x j :
  Invariant stored session s ->
  x ∈ session -> j ∈ jobs s -> id j = id x -> j = x.
Proof.
  intros Hinv Hx Hj Hid.
  rewrite (inv_jobs _ _ _ Hinv) in Hj.
  apply elem_of_app in Hj as [Hj|Hj].
  - apply (unique_by_id session);
      [apply (inv_nodup _ _ _ Hinv)|exact Hj|exact Hx|exact Hid].
  - exfalso. apply (inv_fresh _ _ _ Hinv (id x)).
    + apply list_elem_of_fmap_2. exact Hx.
    + rewrite <- Hid. apply list_elem_of_fmap_2. exact Hj.
Qed.

Section Update.
Variables (s s' : State) (jobId : string) (g : Job -> Job).
Hypothesis HT : Tracked s.
Hypothesis Hjobs : jobs s' = updateById jobId g (jobs s).
Hypothesis Hg : forall j, id (g j) = id j.

Lemma tracked_update :
  (forall j, j ∈ jobs s -> id j = jobId -> payloadFits (g j)) ->
  (forall i, i ∈ preparing s' -> i ∈ preparing s) ->
  (forall j, j ∈ jobs s -> id j = jobId -> jobId ∈ preparing s' ->
     status (g j) = uploading) ->
  (forall i snapshot,
     executing s' !! i = Some (AwaitRun snapshot) ->
     i = jobId \/ exists snapshot',
                    executing s !! i = Some (AwaitRun snapshot')) ->
  (forall snapshot j,
     executing s' !! jobId = Some (AwaitRun snapshot) ->
     j ∈ jobs s -> id j = jobId -> status (g j) = running) ->
  (forall i fileName url,
     executing s' !! i = Some (AwaitPersist fileName url) ->
     i = jobId \/ exists fileName' url',
                    executing s !! i = Some (AwaitPersist fileName' url')) ->
  (forall fileName url j,
     executing s' !! jobId = Some (AwaitPersist fileName url) ->
     j ∈ jobs s -> id j = jobId -> status (g j) = success) ->
  Tracked s'.
Proof.
  intros Hpay Hprep Hprep' Hrun Hrun' Hper Hper'.
  destruct HT as [Tpay Tprep Trun Tper].
  constructor.
  - rewrite Hjobs. apply Forall_forall. intros j' Hj'.
    apply updateById_elem in Hj' as (j & Hj & [[Hid ->]|[Hid ->]]).
    + apply Hpay; assumption.
    + rewrite Forall_forall in Tpay. apply Tpay, Hj.
  - intros i j' Hi Hj' Hidj. rewrite Hjobs in Hj'.
    apply updateById_elem in Hj' as (j & Hj & [[Hid ->]|[Hid ->]]).
    + rewrite Hg, Hid in Hidj. subst i. apply Hprep'; assumption.
    + eapply Tprep; eauto.
  - intros i snapshot j' Hi Hj' Hidj. rewrite Hjobs in Hj'.
    apply updateById_elem in Hj' as (j & Hj & [[Hid ->]|[Hid ->]]).
    + rewrite Hg, Hid in Hidj. subst i. eapply Hrun'; eassumption.
    + destruct (Hrun _ _ Hi) as [->|[snapshot' Hs]]; [contradiction|].
      eapply Trun; eauto.
  - intros i fileName url j' Hi Hj' Hidj. rewrite Hjobs in Hj'.
    apply updateById_elem in Hj' as (j & Hj & [[Hid ->]|[Hid ->]]).
    + rewrite Hg, Hid in Hidj. subst i. eapply Hper'; eassumption.
    + destruct (Hper _ _ _ Hi) as [->|(f' & u' & Hs)]; [contradiction|].
      eapply Tper; eauto.
Qed.

End Update.

Variable stored : list Job.
Hypothesis stored_rehydrated : Forall rehydrated stored.

Lemma moves_refl j : moves j j.
Proof.
  split; [repeat split|apply allowedTransition_refl].
Qed.

Lemma moves_to before after st :
  sameIdentity before after -> status after = st ->
  allowedTransition (status before) st = true -> moves before after.
Proof. intros Hsame <- Hallowed. split; assumption. Qed.

Lemma tracked_initial : Tracked (initial stored).
Proof.
  constructor; unfold initial; cbn [jobs preparing executing].
  - apply Forall_forall. intros j Hj. rewrite Forall_forall in stored_rehydrated.
    destruct (stored_rehydrated j Hj) as [Hs Hp].
    split; intros Hst; rewrite Hs in Hst;
      [discriminate|destruct Hst; discriminate].
  - intros i j Hi. set_solver.
  - intros i snapshot j Hi. rewrite lookup_empty in Hi. discriminate.
  - intros i fileName url j Hi. rewrite lookup_empty in Hi. discriminate.
Qed.

Ltac sets := cbn [jobs runningJobs preparing executing].

Ltac executing_kept :=
  intros; right; eauto.

Ltac executing_changed_at key :=
  let i := fresh "i" in
  intros i; intros;
  destruct (decide (i = key)) as [->|?]; [left; reflexivity|];
  right;
  match goal with
  | H : <[ _ := _ ]> _ !! _ = Some _ |- _ =>
      rewrite lookup_insert_ne in H by congruence; eauto
  | H : delete _ _ !! _ = Some _ |- _ =>
      rewrite lookup_delete_ne in H by congruence; eauto
  end.

Ltac not_that_phase :=
  intros;
  match goal with
  | H : <[ _ := _ ]> _ !! _ = Some _ |- _ =>
      rewrite lookup_insert_eq in H; discriminate H
  | H : delete _ _ !! _ = Some _ |- _ =>
      rewrite lookup_delete_eq in H; discriminate H
  end.

(** One step of the rendered page keeps the tracking facts, leaves the
    identity of every job alone and moves statuses along the life
    cycle. *)
Lemma uiStep_tracked session s s' :
  Invariant stored session s -> Tracked s -> uiStep h s s' ->
  Tracked s' /\ related moves (jobs s) (jobs s').
Proof.
  intros Hinv HT Hstep.
  assert (HTs := HT). destruct HTs as [Tpay Tprep Trun Tper].
  destruct Hstep as
    [ s jobId model promptText now startPreview path Hfresh
    | s File storage_upload jobId model basePayload start end_ Hprep
    | s
    | s job event Hexec
    | s job resultUrl resultRaw Hexec
    | s job e Hexec
    | s jobId fileName resultUrl run Hexec
    | s job Hjob Hoffered ].
  - (* submit *)
    set (new := newJob jobId model promptText now startPreview path).
    assert (Hnot : forall j, j ∈ jobs s -> id j <> jobId).
    { intros j Hj Hid. apply Hfresh. rewrite <- Hid.
      apply list_elem_of_fmap_2. exact Hj. }
    assert (Hknown : forall i phase, executing s !! i = Some phase ->
                                     i <> jobId).
    { intros i phase Hi ->.
      destruct (executing_in_session _ _ _ _ _ Hinv Hi) as [Hin _].
      apply Hfresh. rewrite (inv_jobs _ _ _ Hinv), map_app.
      apply elem_of_app. left. exact Hin. }
    split.
    + constructor; unfold submit; sets.
      * constructor; [|exact Tpay].
        split; [reflexivity|]. intros [Hs|Hs]; discriminate Hs.
      * intros i j Hi Hj Hid.
        apply elem_of_cons in Hj as [->|Hj]; [reflexivity|].
        apply elem_of_union in Hi as [Hi|Hi].
        -- apply elem_of_singleton in Hi. subst i.
           exfalso. eapply Hnot; eauto.
        -- eapply Tprep; eauto.
      * intros i snapshot j Hi Hj Hid.
        apply elem_of_cons in Hj as [->|Hj].
        -- exfalso. eapply Hknown; eauto.
        -- eapply Trun; eauto.
      * intros i fileName url j Hi Hj Hid.
        apply elem_of_cons in Hj as [->|Hj].
        -- exfalso. eapply Hknown; eauto.
        -- eapply Tper; eauto.
    + exists [new], (jobs s). split; [reflexivity|].
      split; [simpl; lia|]. split; [repeat constructor|].
      clear. induction (jobs s); constructor; auto using moves_refl.
  - (* prepared *)
    match goal with |- Tracked ?st /\ _ => set (s' := st) end.
    assert (Hcases : exists g,
               jobs s' = updateById jobId g (jobs s)
               /\ (forall j, sameIdentity j (g j))
               /\ (forall j, (status (g j) = queued
                               /\ is_Some (payload (g j)))
                              \/ (status (g j) = error))).
    { destruct (settlePrepare_cases storage_upload jobId model basePayload
                  start end_ (jobs s)) as [[p Hset]|(patch & Hset & Hps & _)].
      - eexists. split; [exact Hset|]. split.
        + intros j. repeat split.
        + intros j. left. split; [reflexivity|eexists; reflexivity].
      - rewrite notifyJobUpdate_updateById in Hset.
        eexists. split; [exact Hset|]. split.
        + intros j. repeat split.
        + intros j. right. simpl. rewrite Hps. reflexivity. }
    destruct Hcases as (g & Hjobs & Hsame & Hstatus).
    assert (Hup : forall j, j ∈ jobs s -> id j = jobId ->
                            status j = uploading)
      by (intros j Hj Hid; eapply Tprep; eauto).
    split.
    + apply (tracked_update s s' jobId g HT Hjobs);
        unfold s', prepared; sets.
      * intros j. apply Hsame.
      * intros j _ _. destruct (Hstatus j) as [[Hs Hp]|Hs]; split;
          rewrite Hs; try discriminate; try (intros [?|?]; discriminate).
        intros _. exact Hp.
      * intros i Hi. set_solver.
      * intros j _ _ Hi. set_solver.
      * executing_kept.
      * intros snapshot j Hi Hj Hid.
        specialize (Hup j Hj Hid). rewrite (Trun _ _ _ Hi Hj Hid) in Hup.
        discriminate.
      * executing_kept.
      * intros fileName url j Hi Hj Hid.
        specialize (Hup j Hj Hid). rewrite (Tper _ _ _ _ Hi Hj Hid) in Hup.
        discriminate.
    + rewrite Hjobs. apply related_update; [apply moves_refl|].
      intros j Hj Hid. split; [apply Hsame|].
      rewrite (Hup j Hj Hid).
      destruct (Hstatus j) as [[-> _]| ->]; reflexivity.
  - (* the scheduling effect *)
    unfold tick.
    destruct (decide (MAX_CONCURRENT_JOBS <= size (runningJobs s))%nat)
      as [Hfull|Hroom];
      [split; [exact HT|apply related_refl, moves_refl]|].
    destruct (find (eligible (runningJobs s)) (jobs s)) as [nextJob|] eqn:Hfind;
      [|split; [exact HT|apply related_refl, moves_refl]].
    apply find_some in Hfind as [Hnext Helig].
    apply list_elem_of_In in Hnext.
    unfold startJobExecution.
    destruct (payload nextJob) as [p|] eqn:Hp;
      [|split; [exact HT|apply related_refl, moves_refl]].
    assert (Hsess : nextJob ∈ session).
    { assert (Hn := Hnext). rewrite (inv_jobs _ _ _ Hinv) in Hn.
      apply elem_of_app in Hn as [Hn|Hn]; [exact Hn|].
      rewrite (stored_not_queued _ stored_rehydrated _ _ Hn) in Helig.
      discriminate. }
    unfold eligible in Helig. apply andb_true_iff in Helig as [Hq Hnr].
    apply bool_decide_eq_true in Hq.
    apply negb_true_iff, bool_decide_eq_false in Hnr.
    assert (Hone : forall j, j ∈ jobs s -> id j = id nextJob -> j = nextJob)
      by (intros j Hj Hid; eapply same_id_in_session; eauto).
    match goal with |- Tracked ?st /\ _ => set (s' := st) end.
    pose (g := fun job : Job =>
                 applyPatch job
                   {| p_status := Some running;
                      p_attempts := Some (attempts nextJob + 1);
                      p_videoUrl := None; p_error := None; p_raw := None;
                      p_events := None; p_localKey := None;
                      p_localUrl := None; p_saving := None;
                      p_saved := None; p_saveError := None |}).
    assert (Hjobs : jobs s' = updateById (id nextJob) g (jobs s))
      by reflexivity.
    split.
    + apply (tracked_update s s' (id nextJob) g HT Hjobs);
        unfold s'; sets.
      * reflexivity.
      * intros j Hj Hid. rewrite (Hone j Hj Hid).
        split; [discriminate|]. intros _. simpl. rewrite Hp. eauto.
      * auto.
      * intros j Hj Hid Hi.
        rewrite (Tprep _ _ Hi Hnext eq_refl) in Hq. discriminate.
      * executing_changed_at (id nextJob).
      * reflexivity.
      * executing_changed_at (id nextJob).
      * not_that_phase.
    + rewrite Hjobs. apply related_update; [apply moves_refl|].
      intros j Hj Hid. rewrite (Hone j Hj Hid).
      split; [repeat split|]. rewrite Hq. reflexivity.
  - (* a queue update *)
    unfold queueUpdate.
    destruct (eventMessage event) as [message|];
      [|split; [exact HT|apply related_refl, moves_refl]].
    match goal with |- Tracked ?st /\ _ => set (s' := st) end.
    pose (g := fun job : Job =>
                 applyPatch job
                   {| p_status := None; p_attempts := None;
                      p_videoUrl := None; p_error := None; p_raw := None;
                      p_events := Some (events job ++ [message]);
                      p_localKey := None; p_localUrl := None;
                      p_saving := None; p_saved := None;
                      p_saveError := None |}).
    assert (Hjobs : jobs s' = updateById (id job) g (jobs s)) by reflexivity.
    split.
    + apply (tracked_update s s' (id job) g HT Hjobs);
        unfold s'; sets.
      * reflexivity.
      * intros j Hj _. rewrite Forall_forall in Tpay. apply (Tpay j Hj).
      * auto.
      * intros j Hj Hid Hi. change (status j = uploading).
        eapply Tprep; eauto.
      * executing_kept.
      * intros snapshot j Hi Hj Hid. change (status j = running).
        eapply Trun; eauto.
      * executing_kept.
      * intros fileName url j Hi Hj Hid. change (status j = success).
        eapply Tper; eauto.
    + rewrite Hjobs. apply related_update; [apply moves_refl|].
      intros j _ _. split; [repeat split|apply allowedTransition_refl].
  - (* the run resolved *)
    match goal with |- Tracked ?st /\ _ => set (s' := st) end.
    assert (Hjobs : exists g, jobs s' = updateById (id job) g (jobs s)
                      /\ (forall j, sameIdentity j (g j))
                      /\ (forall j, status (g j) = success)
                      /\ (forall j, payload (g j) = payload j)).
    { eexists. split; [reflexivity|]. repeat split. }
    destruct Hjobs as (g & Hjobs & Hsame & Hgst & Hgp).
    assert (Hwas : forall j, j ∈ jobs s -> id j = id job ->
                             status j = running)
      by (intros j Hj Hid; eapply Trun; eauto).
    split.
    + apply (tracked_update s s' (id job) g HT Hjobs);
        unfold s', runResolved; sets.
      * intros j. apply Hsame.
      * intros j _ _. split; rewrite Hgst; [discriminate|].
        intros [?|?]; discriminate.
      * auto.
      * intros j Hj Hid Hi.
        specialize (Hwas j Hj Hid). rewrite (Tprep _ _ Hi Hj Hid) in Hwas.
        discriminate.
      * executing_changed_at (id job).
      * not_that_phase.
      * executing_changed_at (id job).
      * intros. apply Hgst.
    + rewrite Hjobs. apply related_update; [apply moves_refl|].
      intros j Hj Hid. split; [apply Hsame|].
      rewrite (Hwas j Hj Hid), Hgst. reflexivity.
  - (* the run was rejected *)
    match goal with |- Tracked ?st /\ _ => set (s' := st) end.
    assert (Hjobs : exists g, jobs s' = updateById (id job) g (jobs s)
                      /\ (forall j, sameIdentity j (g j))
                      /\ (forall j, status (g j) = error)).
    { eexists. split; [reflexivity|]. repeat split. }
    destruct Hjobs as (g & Hjobs & Hsame & Hgst).
    assert (Hwas : forall j, j ∈ jobs s -> id j = id job ->
                             status j = running)
      by (intros j Hj Hid; eapply Trun; eauto).
    split.
    + apply (tracked_update s s' (id job) g HT Hjobs);
        unfold s', runRejected; sets.
      * intros j. apply Hsame.
      * intros j _ _. split; rewrite Hgst; [discriminate|].
        intros [?|?]; discriminate.
      * auto.
      * intros j Hj Hid Hi.
        specialize (Hwas j Hj Hid). rewrite (Tprep _ _ Hi Hj Hid) in Hwas.
        discriminate.
      * executing_changed_at (id job).
      * not_that_phase.
      * executing_changed_at (id job).
      * not_that_phase.
    + rewrite Hjobs. apply related_update; [apply moves_refl|].
      intros j Hj Hid. split; [apply Hsame|].
      rewrite (Hwas j Hj Hid), Hgst. reflexivity.
  - (* persistence settled *)
    set (s' := persistSettled h jobId fileName resultUrl run s).
    destruct (persistVideoAsset_cases h run jobId fileName resultUrl (jobs s))
      as (patch & Hset & Hps & _).
    rewrite notifyJobUpdate_updateById in Hset.
    set (g := fun job : Job => applyPatch job patch) in Hset.
    assert (Hjobs : jobs s' = updateById jobId g (jobs s)) by exact Hset.
    assert (Hgst : forall j, status (g j) = status j)
      by (intros j; unfold g; simpl; rewrite Hps; reflexivity).
    split.
    + apply (tracked_update s s' jobId g HT Hjobs);
        unfold s', persistSettled; sets.
      * reflexivity.
      * intros j Hj _. rewrite Forall_forall in Tpay.
        destruct (Tpay j Hj) as [Hu Hq].
        split; rewrite Hgst; assumption.
      * auto.
      * intros j Hj Hid Hi. rewrite Hgst. eapply Tprep; eauto.
      * executing_changed_at jobId.
      * not_that_phase.
      * executing_changed_at jobId.
      * not_that_phase.
    + rewrite Hjobs. apply related_update; [apply moves_refl|].
      intros j _ _. split; [repeat split|].
      rewrite Hgst. apply allowedTransition_refl.
  - (* retry through the button *)
    unfold retryOffered in Hoffered.
    apply andb_true_iff in Hoffered as [Herr Hpay].
    apply bool_decide_eq_true in Herr. apply bool_decide_eq_true in Hpay.
    destruct Hpay as [p Hp].
    assert (Hsess : job ∈ session).
    { assert (Hj := Hjob). rewrite (inv_jobs _ _ _ Hinv) in Hj.
      apply elem_of_app in Hj as [Hj|Hj]; [exact Hj|].
      rewrite Forall_forall in stored_rehydrated.
      destruct (stored_rehydrated job Hj) as [_ Hnone]. congruence. }
    assert (Hone : forall j, j ∈ jobs s -> id j = id job -> j = job)
      by (intros j Hj Hid; eapply same_id_in_session; eauto).
    set (s' := retry job s).
    assert (Hjobs : exists g, jobs s' = updateById (id job) g (jobs s)
                      /\ (forall j, sameIdentity j (g j))
                      /\ (forall j, status (g j) = queued)
                      /\ (forall j, payload (g j) = payload j)).
    { unfold s', retry, handleRetry. cbn [jobs]. rewrite Hp.
      eexists. split; [reflexivity|]. repeat split. }
    destruct Hjobs as (g & Hjobs & Hsame & Hgst & Hgp).
    split.
    + apply (tracked_update s s' (id job) g HT Hjobs);
        unfold s', retry; sets.
      * intros j. apply Hsame.
      * intros j Hj Hid. rewrite (Hone j Hj Hid).
        split; rewrite Hgst; [discriminate|]. intros _.
        rewrite Hgp, Hp. eauto.
      * auto.
      * intros j Hj Hid Hi.
        rewrite (Tprep _ _ Hi Hjob eq_refl) in Herr. discriminate.
      * executing_kept.
      * intros snapshot j Hi Hj Hid.
        rewrite (Trun _ _ _ Hi Hjob eq_refl) in Herr. discriminate.
      * executing_kept.
      * intros fileName url j Hi Hj Hid.
        rewrite (Tper _ _ _ _ Hi Hjob eq_refl) in Herr. discriminate.
    + rewrite Hjobs. apply related_update; [apply moves_refl|].
      intros j Hj Hid. rewrite (Hone j Hj Hid).
      split; [apply Hsame|]. rewrite Herr, Hgst. reflexivity.
Qed.

End LifecycleProofs.

Section LifecycleTheorems.
Import Jobs Scheduler SchedulerSpec Lifecycle.
Variable h : Host.

Lemma uiReachable_tracked stored s :
  Forall rehydrated stored -> uiReachable h stored s ->
  (exists session, Invariant stored session s) /\ Tracked s.
Proof.
  intros Hstored Hreach.
  induction Hreach as [|s s' Hreach [[session Hinv] HT] Hstep].
  - split; [exists []; apply invariant_initial, Hstored|].
    apply tracked_initial, Hstored.
  - split.
    + apply (step_invariant h stored Hstored session s s' Hinv).
      apply uiStep_step, Hstep.
    + apply (uiStep_tracked h stored Hstored session s s' Hinv HT Hstep).
Qed.

Lemma related_weaken (R R' : Job -> Job -> Prop) before after :
  (forall j j', R j j' -> R' j j') ->
  related R before after -> related R' before after.
Proof.
  intros Himp (fresh & kept & Heq & Hlen & Hfresh & Hkept).
  exists fresh, kept. repeat split; try assumption.
  eapply Forall2_impl; eauto.
Qed.

(** X1.  In every state that the rendered page can reach, one step changes
    the status of a job only along the life cycle: uploading to queued or
    error, queued to running, running to success or error, error to queued
    (through the Retry button).  ["success"] is final, a job reaches
    ["running"] only from ["queued"] and ["success"] only from ["running"];
    the step adds at most one job, in front and with status ["uploading"]. *)
Theorem status_moves_along_lifecycle
    (stored : option string) (s s' : State) :
  uiReachable h (Store.loadStoredJobs h stored) s ->
  uiStep h s s' ->
  related advances (jobs s) (jobs s').
Proof.
  intros Hreach Hstep.
  assert (Hstored := loadStoredJobs_rehydrated h stored).
  destruct (uiReachable_tracked _ _ Hstored Hreach) as [[session Hinv] HT].
  destruct (uiStep_tracked h _ Hstored session s s' Hinv HT Hstep)
    as [_ Hrel].
  eapply related_weaken; [|exact Hrel].
  intros j j' [_ Hallowed]. unfold advances. split; [exact Hallowed|].
  destruct (status j), (status j'); simpl in Hallowed;
    try discriminate; repeat split; intros; try discriminate; auto.
Qed.

(** X2.  In every state that the rendered page can reach, a job that is
    uploading has no payload and a job that is queued or running has one. *)
Theorem payload_follows_status (stored : option string) (s : State) :
  uiReachable h (Store.loadStoredJobs h stored) s ->
  forall j, j ∈ jobs s ->
    (status j = uploading -> payload j = None)
    /\ (status j = queued \/ status j = running -> is_Some (payload j)).
Proof.
  intros Hreach j Hj.
  assert (Hstored := loadStoredJobs_rehydrated h stored).
  destruct (uiReachable_tracked _ _ Hstored Hreach) as [_ HT].
  destruct HT as [Tpay _ _ _]. rewrite Forall_forall in Tpay.
  apply (Tpay j Hj).
Qed.

Lemma slot_holders stored session s :
  Forall rehydrated stored -> Invariant stored session s -> Tracked s ->
  (forall i, i ∈ runningJobs s ->
     (exists j, j ∈ jobs s /\ id j = i)
     /\ (forall j, j ∈ jobs s -> id j = i ->
           status j = running \/ status j = success))
  /\ (forall j, j ∈ jobs s -> status j = running -> id j ∈ runningJobs s)
  /\ (forall j, j ∈ jobs s ->
        status j = uploading \/ status j = queued \/ status j = error ->
        id j ∉ runningJobs s).
Proof.
  intros Hstored Hinv HT.
  destruct HT as [_ _ Trun Tper].
  assert (Hheld : forall i j, i ∈ runningJobs s -> j ∈ jobs s -> id j = i ->
                              status j = running \/ status j = success).
  { intros i j Hi Hj Hid.
    rewrite <- (inv_executing _ _ _ Hinv) in Hi.
    apply elem_of_dom in Hi as [[snapshot|fileName url] Hphase].
    - left. eapply Trun; eauto.
    - right. eapply Tper; eauto. }
  split; [|split].
  - intros i Hi. split; [|intros j; apply Hheld, Hi].
    apply (inv_running_session _ _ _ Hinv) in Hi.
    apply list_elem_of_fmap in Hi as (j & -> & Hj).
    exists j. split; [|reflexivity].
    rewrite (inv_jobs _ _ _ Hinv). apply elem_of_app. left. exact Hj.
  - intros j Hj Hrun.
    rewrite (inv_jobs _ _ _ Hinv) in Hj.
    apply elem_of_app in Hj as [Hj|Hj].
    + destruct (inv_status _ _ _ Hinv j Hj Hrun) as [snapshot Hsnap].
      rewrite <- (inv_executing _ _ _ Hinv). apply elem_of_dom. eauto.
    + rewrite Forall_forall in Hstored.
      destruct (Hstored j Hj) as [Hs _]. congruence.
  - intros j Hj Hst Hi.
    destruct (Hheld _ j Hi Hj eq_refl) as [Hs|Hs]; rewrite Hs in Hst;
      destruct Hst as [?|[?|?]]; discriminate.
Qed.

(** X3.  In every state that the rendered page can reach, each id of
    [runningJobs] is the id of a job of the list, and the jobs with that id
    are running or have succeeded (their video is being saved); a running
    job always holds a slot, and an uploading, queued or failed job never
    does. *)
Theorem slots_are_held_by_running_or_saving_jobs
    (stored : option string) (s : State) :
  uiReachable h (Store.loadStoredJobs h stored) s ->
  (forall i, i ∈ runningJobs s ->
     (exists j, j ∈ jobs s /\ id j = i)
     /\ (forall j, j ∈ jobs s -> id j = i ->
           status j = running \/ status j = success))
  /\ (forall j, j ∈ jobs s -> status j = running -> id j ∈ runningJobs s)
  /\ (forall j, j ∈ jobs s ->
        status j = uploading \/ status j = queued \/ status j = error ->
        id j ∉ runningJobs s).
Proof.
  intros Hreach.
  assert (Hstored := loadStoredJobs_rehydrated h stored).
  destruct (uiReachable_tracked _ _ Hstored Hreach) as [[session Hinv] HT].
  apply (slot_holders _ session s Hstored Hinv HT).
Qed.

Lemma find_first {A} (f : A -> bool) (l : list A) x :
  find f l = Some x ->
  exists before after,
    l = before ++ x :: after /\ Forall (fun y => f y = false) before.
Proof.
  induction l as [|y l IH]; [discriminate|]. simpl.
  destruct (f y) eqn:Hy.
  - intros [= ->]. exists [], l. split; [reflexivity|constructor].
  - intros Hfind. destruct (IH Hfind) as (before & after & -> & Hall).
    exists (y :: before), after. split; [reflexivity|].
    constructor; assumption.
Qed.

Lemma find_exists {A} (f : A -> bool) (l : list A) y :
  y ∈ l -> f y = true -> exists x, find f l = Some x.
Proof.
  induction 1 as [y l|y z l _ IH]; simpl; intros Hy.
  - rewrite Hy. eauto.
  - destruct (f z); eauto.
Qed.

(** X4.  When fewer than [MAX_CONCURRENT_JOBS] slots are taken and some job is
    queued, the scheduling effect starts the first queued job of the list: it
    takes a slot for it, suspends on its run, marks it ["running"] and raises
    its attempt counter by one. *)
Theorem tick_starts_the_first_queued_job
    (stored : option string) (s : State) (waiting : Job) :
  uiReachable h (Store.loadStoredJobs h stored) s ->
  (size (runningJobs s) < MAX_CONCURRENT_JOBS)%nat ->
  waiting ∈ jobs s -> status waiting = queued ->
  exists before next after,
    jobs s = before ++ next :: after
    /\ status next = queued
    /\ Forall (fun j => status j <> queued) before
    /\ runningJobs (tick s) = ({[ id next ]} ∪ runningJobs s)
    /\ (id next ∉ runningJobs s)
    /\ executing (tick s) !! id next = Some (AwaitRun next)
    /\ exists started,
         jobs (tick s) !! length before = Some started
         /\ status started = running
         /\ attempts started = (attempts next + 1)%nat.
Proof.
  intros Hreach Hroom Hwaiting Hqueued.
  assert (Hstored := loadStoredJobs_rehydrated h stored).
  destruct (uiReachable_tracked _ _ Hstored Hreach) as [[session Hinv] HT].
  destruct (slot_holders _ session s Hstored Hinv HT) as (_ & _ & Hfree).
  assert (Hpay : forall j, j ∈ jobs s -> payloadFits j)
    by (apply Forall_forall, (tr_payload _ HT)).
  assert (Helig : forall j, j ∈ jobs s ->
                    eligible (runningJobs s) j = bool_decide (status j = queued)).
  { intros j Hj. unfold eligible.
    destruct (bool_decide (status j = queued)) eqn:Hq; [|reflexivity].
    apply bool_decide_eq_true in Hq. simpl.
    rewrite bool_decide_eq_false_2; [reflexivity|]. apply Hfree; auto. }
  destruct (find_exists (eligible (runningJobs s)) (jobs s) waiting Hwaiting)
    as [next Hfind].
  { rewrite (Helig _ Hwaiting). apply bool_decide_eq_true. exact Hqueued. }
  destruct (find_first _ _ _ Hfind) as (before & after & Hsplit & Hbefore).
  assert (Hnext : next ∈ jobs s)
    by (rewrite Hsplit; apply elem_of_app; right; apply list_elem_of_here).
  assert (Hq : status next = queued).
  { apply find_some in Hfind as [_ Hf]. rewrite (Helig _ Hnext) in Hf.
    apply bool_decide_eq_true in Hf. exact Hf. }
  destruct (Hpay next Hnext) as [_ Hsome].
  destruct (Hsome (or_introl Hq)) as [p Hp].
  exists before, next, after. split; [exact Hsplit|]. split; [exact Hq|].
  split.
  { apply Forall_forall. intros j Hj Hjq.
    rewrite Forall_forall in Hbefore. specialize (Hbefore j Hj).
    rewrite Helig in Hbefore
      by (rewrite Hsplit; apply elem_of_app; left; exact Hj).
    apply bool_decide_eq_false in Hbefore. contradiction. }
  unfold tick.
  destruct (decide (MAX_CONCURRENT_JOBS <= size (runningJobs s))%nat); [lia|].
  rewrite Hfind. unfold startJobExecution. rewrite Hp.
  cbn [jobs runningJobs executing].
  split; [reflexivity|]. split; [apply Hfree; auto|].
  split; [apply lookup_insert_eq|].
  assert (Hk : jobs s !! length before = Some next)
    by (rewrite Hsplit; apply list_lookup_middle; reflexivity).
  rewrite notifyJobUpdate_lookup, Hk. simpl.
  destruct (decide (id next = id next)); [|contradiction].
  eexists. split; [reflexivity|]. split; reflexivity.
Qed.

(** X5.  If the ids of the rehydrated history are pairwise distinct, the ids
    of the job list are pairwise distinct in every reachable state, so an id
    names one job. *)
Theorem job_ids_stay_unique (stored : option string) (s : State) :
  NoDup (map id (Store.loadStoredJobs h stored)) ->
  reachable h (Store.loadStoredJobs h stored) s ->
  NoDup (map id (jobs s))
  /\ (forall j j', j ∈ jobs s -> j' ∈ jobs s -> id j = id j' -> j = j').
Proof.
  intros Hnodup Hreach.
  assert (Hstored := loadStoredJobs_rehydrated h stored).
  destruct (reachable_invariant _ _ _ Hstored Hreach) as [session Hinv].
  assert (Hall : NoDup (map id (jobs s))).
  { rewrite (inv_jobs _ _ _ Hinv), map_app. apply NoDup_app.
    split; [apply (inv_nodup _ _ _ Hinv)|].
    split; [apply (inv_fresh _ _ _ Hinv)|exact Hnodup]. }
  split; [exact Hall|].
  intros j j'. apply unique_by_id, Hall.
Qed.

End LifecycleTheorems.

(** ** The local copy of a finished video *)

Section SavingProofs.
Import Jobs Scheduler SchedulerSpec Lifecycle Saving.
Variable h : Host.

Lemma append_nonempty (a b : string) : b <> "" -> (a ++ b)%string <> "".
Proof.
  intros Hb. induction a as [|c a IH]; simpl; [exact Hb|discriminate].
Qed.

Lemma buildVideoFileName_nonempty parts :
  FileName.buildVideoFileName h parts <> "".
Proof.
  unfold FileName.buildVideoFileName. cbv zeta.
  do 7 (apply append_nonempty). discriminate.
Qed.

Lemma loaded_copyFits stored j :
  j ∈ Store.loadStoredJobs h stored -> copyFits j.
Proof.
  intros Hj. apply loadStoredJobs_elem in Hj
    as (text & data & i & entry & _ & _ & _ & _ & Hload).
  destruct (loadEntry_Some _ _ _ _ Hload)
    as (key & url & _ & _ & Hk & Hu & Hlk & Hlu & Hv & Hs & _ & _ & _ & Hsaved).
  split; [congruence|]. intros _. left.
  split; [exact Hsaved|]. split; [|congruence].
  apply isCompleted_spec. eauto 10.
Qed.

(** The update that a settled [prepareJobPayload] performs. *)
Lemma settlePrepare_frame {File} (storage_upload : File -> Prepare.UploadOutcome)
    jobId model basePayload start end_ prev :
  exists g,
    Prepare.settlePrepare jobId
      (Prepare.prepareJobPayload storage_upload jobId model basePayload
         start end_) prev = updateById jobId g prev
    /\ forall j, sameIdentity j (g j) /\ sameCopy j (g j)
                 /\ events (g j) = events j
                 /\ (status (g j) = queued \/ status (g j) = error).
Proof.
  destruct (prepareJobPayload_run storage_upload jobId model basePayload
              start end_) as [_ Hout].
  unfold Prepare.settlePrepare.
  destruct (PrepareSpec.completedPayload storage_upload model basePayload
              start end_) as [p|].
  - destruct Hout as (Hret & Henq & _). rewrite Hret.
    rewrite (applyCalls_one_enqueue _ _ _ _ Henq).
    eexists. split; [reflexivity|]. intros j.
    split; [repeat split|]. split; [repeat split|].
    split; [reflexivity|]. left. reflexivity.
  - destruct Hout as ([e He] & Henq).
    rewrite He, (applyCalls_no_enqueue _ _ Henq).
    rewrite notifyJobUpdate_updateById.
    eexists. split; [reflexivity|]. intros j.
    split; [repeat split|]. split; [repeat split|].
    split; [reflexivity|]. right. reflexivity.
Qed.

Section Update.
Variables (s s' : State) (jobId : string) (g : Job -> Job).
Hypothesis HS : Saved h s.
Hypothesis Hjobs : jobs s' = updateById jobId g (jobs s).
Hypothesis Hg : forall j, nameParts (g j) = nameParts j.

Lemma saved_update :
  (forall j, j ∈ jobs s -> id j = jobId -> copyFits (g j)) ->
  (forall i snapshot j,
     executing s' !! i = Some (AwaitRun snapshot) ->
     j ∈ jobs s -> id j = i -> nameParts j = nameParts snapshot) ->
  (forall i fileName url j,
     executing s' !! i = Some (AwaitPersist fileName url) ->
     j ∈ jobs s -> id j = i -> i <> jobId -> awaitsCopy h fileName j) ->
  (forall fileName url j,
     executing s' !! jobId = Some (AwaitPersist fileName url) ->
     j ∈ jobs s -> id j = jobId -> awaitsCopy h fileName (g j)) ->
  Saved h s'.
Proof.
  intros Hfit Hrun Hper Hper'.
  destruct HS as [Sfit Srun Sper].
  assert (Hid : forall j, id (g j) = id j)
    by (intros j; apply (f_equal FileName.id (Hg j))).
  constructor.
  - rewrite Hjobs. apply Forall_forall. intros j' Hj'.
    apply updateById_elem in Hj' as (j & Hj & [[Hidj ->]|[Hidj ->]]).
    + apply Hfit; assumption.
    + rewrite Forall_forall in Sfit. apply Sfit, Hj.
  - intros i snapshot j' Hi Hj' Hidj. rewrite Hjobs in Hj'.
    apply updateById_elem in Hj' as (j & Hj & [[Hidj' ->]|[Hidj' ->]]).
    + rewrite Hg. rewrite Hid in Hidj. eapply Hrun; eassumption.
    + eapply Hrun; eassumption.
  - intros i fileName url j' Hi Hj' Hidj. rewrite Hjobs in Hj'.
    apply updateById_elem in Hj' as (j & Hj & [[Hidj' ->]|[Hidj' ->]]).
    + rewrite Hid, Hidj' in Hidj. subst i. eapply Hper'; eassumption.
    + eapply Hper; try eassumption. congruence.
Qed.

End Update.

Lemma saved_initial stored : Saved h (initial (Store.loadStoredJobs h stored)).
Proof.
  constructor; unfold initial; cbn [jobs executing].
  - apply Forall_forall. intros j. apply loaded_copyFits.
  - intros i snapshot j Hi. rewrite lookup_empty in Hi. discriminate.
  - intros i fileName url j Hi. rewrite lookup_empty in Hi. discriminate.
Qed.

Lemma copyFits_not_success before after :
  sameCopy before after -> status before <> success ->
  status after <> success -> copyFits before -> copyFits after.
Proof.
  intros (Hv & Hk & Hu & Hs) Hb Ha [Hfit _].
  split; [|contradiction]. intros _. rewrite Hv, Hk, Hu, Hs. auto.
Qed.

Lemma copyFits_same_status before after :
  sameCopy before after -> status after = status before ->
  copyFits before -> copyFits after.
Proof.
  intros (Hv & Hk & Hu & Hs) Hst [Hno Hyes].
  unfold copyFits, Store.isCompleted in *.
  rewrite Hv, Hk, Hu, Hs, Hst. auto.
Qed.

Ltac sets := cbn [jobs runningJobs preparing executing].

Ltac run_kept S :=
  let i := fresh "i" in
  let Hi := fresh "Hi" in
  intros i ? ? Hi ? ?;
  try (destruct (decide (i = S)) as [->|?];
       [first [rewrite lookup_insert_eq in Hi
              |rewrite lookup_delete_eq in Hi]; try discriminate Hi
       |first [rewrite lookup_insert_ne in Hi by congruence
              |rewrite lookup_delete_ne in Hi by congruence]]).

Variable stored : list Job.
Hypothesis stored_rehydrated : Forall rehydrated stored.

Lemma uiStep_saved session s s' :
  Invariant stored session s -> Tracked s -> Saved h s -> uiStep h s s' ->
  Saved h s'.
Proof.
  intros Hinv HT HS Hstep.
  assert (HTs := HT). destruct HTs as [Tpay Tprep Trun Tper].
  assert (HSs := HS). destruct HSs as [Sfit Srun Sper].
  assert (Hfit : forall j, j ∈ jobs s -> copyFits j)
    by (apply Forall_forall, Sfit).
  destruct Hstep as
    [ s jobId model promptText now startPreview path Hfresh
    | s File storage_upload jobId model basePayload start end_ Hprep
    | s
    | s job event Hexec
    | s job resultUrl resultRaw Hexec
    | s job e Hexec
    | s jobId fileName resultUrl run Hexec
    | s job Hjob Hoffered ].
  - (* submit *)
    assert (Hknown : forall i phase, executing s !! i = Some phase ->
                                     i <> jobId).
    { intros i phase Hi ->.
      destruct (executing_in_session _ _ _ _ _ Hinv Hi) as [Hin _].
      apply Hfresh. rewrite (inv_jobs _ _ _ Hinv), map_app.
      apply elem_of_app. left. exact Hin. }
    constructor; unfold submit; sets.
    + constructor; [|exact Sfit]. split; [auto|discriminate].
    + intros i snapshot j Hi Hj Hid.
      apply elem_of_cons in Hj as [->|Hj].
      * exfalso. eapply Hknown; eauto.
      * eapply Srun; eauto.
    + intros i fileName url j Hi Hj Hid.
      apply elem_of_cons in Hj as [->|Hj].
      * exfalso. eapply Hknown; eauto.
      * eapply Sper; eauto.
  - (* prepared *)
    destruct (settlePrepare_frame storage_upload jobId model basePayload
                start end_ (jobs s)) as (g & Hjobs & Hg).
    assert (Hup : forall j, j ∈ jobs s -> id j = jobId ->
                            status j = uploading)
      by (intros j Hj Hid; eapply Tprep; eauto).
    match goal with |- Saved h ?st => set (s' := st) end.
    apply (saved_update s s' jobId g HS Hjobs); unfold s', prepared; sets.
    + intros j. destruct (Hg j) as ((Hi & Hm & _ & Hc & Hp & _) & _).
      unfold nameParts. rewrite Hi, Hm, Hc, Hp. reflexivity.
    + intros j Hj Hid. destruct (Hg j) as (_ & Hcopy & _ & Hst).
      apply (copyFits_not_success j);
        [exact Hcopy|rewrite (Hup j Hj Hid); discriminate
        |destruct Hst as [-> | ->]; discriminate|apply Hfit, Hj].
    + exact Srun.
    + intros i fileName url j Hi Hj Hid _. eapply Sper; eauto.
    + intros fileName url j Hi Hj Hid.
      specialize (Hup j Hj Hid). rewrite (Tper _ _ _ _ Hi Hj Hid) in Hup.
      discriminate.
  - (* the scheduling effect *)
    unfold tick.
    destruct (decide (MAX_CONCURRENT_JOBS <= size (runningJobs s))%nat);
      [exact HS|].
    destruct (find (eligible (runningJobs s)) (jobs s)) as [nextJob|] eqn:Hfind;
      [|exact HS].
    apply find_some in Hfind as [Hnext Helig].
    apply list_elem_of_In in Hnext.
    unfold startJobExecution.
    destruct (payload nextJob) as [p|] eqn:Hp; [|exact HS].
    assert (Hsess : nextJob ∈ session).
    { assert (Hn := Hnext). rewrite (inv_jobs _ _ _ Hinv) in Hn.
      apply elem_of_app in Hn as [Hn|Hn]; [exact Hn|].
      rewrite (stored_not_queued _ stored_rehydrated _ _ Hn) in Helig.
      discriminate. }
    unfold eligible in Helig. apply andb_true_iff in Helig as [Hq Hnr].
    apply bool_decide_eq_true in Hq.
    assert (Hone : forall j, j ∈ jobs s -> id j = id nextJob -> j = nextJob)
      by (intros j Hj Hid; eapply same_id_in_session; eauto).
    rewrite notifyJobUpdate_updateById.
    match goal with |- context [updateById _ ?f _] => set (g := f) end.
    match goal with |- Saved h ?st => set (s' := st) end.
    assert (Hjobs : jobs s' = updateById (id nextJob) g (jobs s))
      by reflexivity.
    apply (saved_update s s' (id nextJob) g HS Hjobs); unfold s'; sets.
    + reflexivity.
    + intros j Hj Hid.
      apply (copyFits_not_success j);
        [repeat split|rewrite (Hone j Hj Hid), Hq; discriminate
        |discriminate|apply Hfit, Hj].
    + run_kept (id nextJob).
      * injection Hi as <-. f_equal. apply Hone; assumption.
      * eapply Srun; eauto.
    + intros i fileName url j Hi Hj Hid Hne.
      rewrite lookup_insert_ne in Hi by congruence. eapply Sper; eauto.
    + intros fileName url j Hi. rewrite lookup_insert_eq in Hi.
      discriminate.
  - (* a queue update *)
    unfold queueUpdate.
    destruct (eventMessage event) as [message|]; [|exact HS].
    rewrite notifyJobUpdate_updateById.
    match goal with |- context [updateById _ ?f _] => set (g := f) end.
    match goal with |- Saved h ?st => set (s' := st) end.
    assert (Hjobs : jobs s' = updateById (id job) g (jobs s)) by reflexivity.
    apply (saved_update s s' (id job) g HS Hjobs); unfold s'; sets.
    + reflexivity.
    + intros j Hj Hid.
      apply (copyFits_same_status j);
        [repeat split|reflexivity|apply Hfit, Hj].
    + exact Srun.
    + intros i fileName url j Hi Hj Hid _. eapply Sper; eauto.
    + intros fileName url j Hi Hj Hid.
      rewrite Hexec in Hi. discriminate.
  - (* the run resolved *)
    unfold runResolved.
    rewrite notifyJobUpdate_updateById.
    match goal with |- context [updateById _ ?f _] => set (g := f) end.
    match goal with |- Saved h ?st => set (s' := st) end.
    assert (Hjobs : jobs s' = updateById (id job) g (jobs s)) by reflexivity.
    apply (saved_update s s' (id job) g HS Hjobs); unfold s'; sets.
    + reflexivity.
    + intros j Hj Hid. split; [intros Hne; contradiction Hne; reflexivity|].
      intros _. right. simpl. eauto.
    + run_kept (id job). eapply Srun; eauto.
    + intros i fileName url j Hi Hj Hid Hne.
      rewrite lookup_insert_ne in Hi by congruence. eapply Sper; eauto.
    + intros fileName url j Hi Hj Hid.
      rewrite lookup_insert_eq in Hi. injection Hi as <- <-.
      repeat split.
      change (nameParts (g j)) with (nameParts j).
      rewrite (Srun _ _ _ Hexec Hj Hid). reflexivity.
  - (* the run was rejected *)
    unfold runRejected.
    rewrite notifyJobUpdate_updateById.
    match goal with |- context [updateById _ ?f _] => set (g := f) end.
    match goal with |- Saved h ?st => set (s' := st) end.
    assert (Hjobs : jobs s' = updateById (id job) g (jobs s)) by reflexivity.
    apply (saved_update s s' (id job) g HS Hjobs); unfold s'; sets.
    + reflexivity.
    + intros j Hj Hid.
      apply (copyFits_not_success j);
        [repeat split|rewrite (Trun _ _ _ Hexec Hj Hid); discriminate
        |discriminate|apply Hfit, Hj].
    + run_kept (id job). eapply Srun; eauto.
    + intros i fileName url j Hi Hj Hid Hne.
      rewrite lookup_delete_ne in Hi by congruence. eapply Sper; eauto.
    + intros fileName url j Hi. rewrite lookup_delete_eq in Hi.
      discriminate.
  - (* persistence settled *)
    set (s' := persistSettled h jobId fileName resultUrl run s).
    assert (Hwas : forall j, j ∈ jobs s -> id j = jobId ->
                             status j = success /\ awaitsCopy h fileName j).
    { intros j Hj Hid. split; [eapply Tper; eauto|eapply Sper; eauto]. }
    assert (Hcases : exists g,
               jobs s' = updateById jobId g (jobs s)
               /\ (forall j, nameParts (g j) = nameParts j)
               /\ (forall j, status j = success ->
                             awaitsCopy h fileName j -> copyFits j ->
                             copyFits (g j))).
    { unfold s', persistSettled, Persist.persistVideoAsset. sets.
      destruct (snd (Persist.storeAsset run fileName resultUrl));
        rewrite notifyJobUpdate_updateById;
        (eexists; split; [reflexivity|]; split; [reflexivity|]);
        intros j Hst (Hsv & Hu & Hk & Hname) [_ Hold].
      - split; [intros Hne; contradiction|]. intros _. left. simpl.
        split; [reflexivity|]. split; [|reflexivity].
        apply isCompleted_spec. simpl. split; [exact Hst|].
        split; eexists; (split; [reflexivity|]).
        + rewrite Hname. apply buildVideoFileName_nonempty.
        + discriminate.
      - split; [intros Hne; contradiction|]. intros _. right. simpl.
        split; [reflexivity|]. split; [exact Hu|].
        destruct (Hold Hst) as [(Hsaved & _)|(_ & _ & Hv)];
          [congruence|exact Hv]. }
    destruct Hcases as (g & Hjobs & Hg & Hgfit).
    apply (saved_update s s' jobId g HS Hjobs Hg); unfold s', persistSettled; sets.
    + intros j Hj Hid. destruct (Hwas j Hj Hid). auto.
    + run_kept jobId. eapply Srun; eauto.
    + intros i f url j Hi Hj Hid Hne.
      rewrite lookup_delete_ne in Hi by congruence. eapply Sper; eauto.
    + intros f url j Hi. rewrite lookup_delete_eq in Hi. discriminate.
  - (* retry through the button *)
    unfold retryOffered in Hoffered.
    apply andb_true_iff in Hoffered as [Herr Hpay].
    apply bool_decide_eq_true in Herr. apply bool_decide_eq_true in Hpay.
    destruct Hpay as [p Hp].
    assert (Hsess : job ∈ session).
    { assert (Hj := Hjob). rewrite (inv_jobs _ _ _ Hinv) in Hj.
      apply elem_of_app in Hj as [Hj|Hj]; [exact Hj|].
      rewrite Forall_forall in stored_rehydrated.
      destruct (stored_rehydrated job Hj) as [_ Hnone]. congruence. }
    assert (Hone : forall j, j ∈ jobs s -> id j = id job -> j = job)
      by (intros j Hj Hid; eapply same_id_in_session; eauto).
    unfold retry, handleRetry. rewrite Hp.
    rewrite notifyJobUpdate_updateById.
    match goal with |- context [updateById _ ?f _] => set (g := f) end.
    match goal with |- Saved h ?st => set (s' := st) end.
    assert (Hjobs : jobs s' = updateById (id job) g (jobs s)) by reflexivity.
    apply (saved_update s s' (id job) g HS Hjobs); unfold s'; sets.
    + reflexivity.
    + intros j Hj Hid.
      apply (copyFits_not_success j);
        [repeat split|rewrite (Hone j Hj Hid), Herr; discriminate
        |discriminate|apply Hfit, Hj].
    + exact Srun.
    + intros i fileName url j Hi Hj Hid _. eapply Sper; eauto.
    + intros fileName url j Hi Hj Hid.
      rewrite (Tper _ _ _ _ Hi Hjob eq_refl) in Herr. discriminate.
Qed.

End SavingProofs.

Section SavingTheorems.
Import Jobs Scheduler SchedulerSpec Lifecycle Saving.
Variable h : Host.

Lemma uiReachable_saved stored s :
  uiReachable h (Store.loadStoredJobs h stored) s ->
  (exists session, Invariant (Store.loadStoredJobs h stored) session s)
  /\ Tracked s /\ Saved h s.
Proof.
  intros Hreach.
  assert (Hstored := loadStoredJobs_rehydrated h stored).
  induction Hreach as [|s s' Hreach [[session Hinv] [HT HS]] Hstep].
  - split; [exists []; apply invariant_initial, Hstored|].
    split; [apply tracked_initial, Hstored|apply saved_initial].
  - split; [|split].
    + apply (step_invariant h _ Hstored session s s' Hinv).
      apply uiStep_step, Hstep.
    + apply (uiStep_tracked h _ Hstored session s s' Hinv HT Hstep).
    + apply (uiStep_saved h _ Hstored session s s' Hinv HT HS Hstep).
Qed.

Lemma copyFits_saved_iff j :
  copyFits j -> saved j = Some true <-> Store.isCompleted j = true.
Proof.
  intros [Hno Hyes]. split.
  - intros Hsaved. destruct (decide (status j = success)) as [Hs|Hs].
    + destruct (Hyes Hs) as [(_ & Hc & _)|(Hf & _)]; [exact Hc|congruence].
    + destruct (Hno Hs) as (Hf & _). congruence.
  - intros Hc. assert (Hc' := Hc). apply isCompleted_spec in Hc'
      as (Hs & _ & (url & Hurl & _)).
    destruct (Hyes Hs) as [(Hsaved & _)|(_ & Hnone & _)];
      [exact Hsaved|congruence].
Qed.

(** X6.  In every state that the rendered page can reach, a job has
    [saved = true] exactly when [persistStoredJobs] writes it to the history
    index; such a job has status ["success"], a non-empty [localKey] and a
    non-empty [localUrl], which is also its [videoUrl]. *)
Theorem saved_jobs_are_the_indexed_jobs (stored : option string) (s : State) :
  uiReachable h (Store.loadStoredJobs h stored) s ->
  (forall j, j ∈ jobs s ->
     saved j = Some true <-> Store.isCompleted j = true)
  /\ Store.persistedIndex (jobs s)
     = map Store.storedRecord
         (filter (fun j => saved j = Some true) (jobs s))
  /\ (forall j, j ∈ jobs s -> saved j = Some true ->
        status j = success
        /\ (exists key, localKey j = Some key /\ key <> "")
        /\ (exists url, localUrl j = Some url /\ url <> ""
                        /\ videoUrl j = Some url)).
Proof.
  intros Hreach.
  destruct (uiReachable_saved _ _ Hreach) as (_ & _ & [Sfit _ _]).
  rewrite Forall_forall in Sfit.
  split; [|split].
  - intros j Hj. apply copyFits_saved_iff, Sfit, Hj.
  - unfold Store.persistedIndex. f_equal.
    induction (jobs s) as [|j js IH]; [reflexivity|].
    assert (Hj : saved j = Some true <-> Store.isCompleted j = true)
      by (apply copyFits_saved_iff, Sfit, list_elem_of_here).
    assert (Hjs : filter (fun j => Store.isCompleted j = true) js
                  = filter (fun j => saved j = Some true) js)
      by (apply IH; intros x Hx; apply Sfit, list_elem_of_further, Hx).
    destruct (decide (saved j = Some true)) as [Hs|Hs].
    + rewrite (filter_cons_True (fun j => saved j = Some true)) by exact Hs.
      rewrite filter_cons_True by (apply Hj, Hs). f_equal. exact Hjs.
    + rewrite (filter_cons_False (fun j => saved j = Some true)) by exact Hs.
      rewrite filter_cons_False by (intros Hc; apply Hs, Hj, Hc).
      exact Hjs.
  - intros j Hj Hsaved.
    destruct (Sfit j Hj) as [Hno Hyes].
    destruct (decide (status j = success)) as [Hs|Hs];
      [|destruct (Hno Hs) as (Hf & _); congruence].
    destruct (Hyes Hs) as [(_ & Hc & Hv)|(Hf & _)]; [|congruence].
    apply isCompleted_spec in Hc as (_ & Hkey & (url & Hurl & Hne)).
    split; [exact Hs|]. split; [exact Hkey|].
    exists url. rewrite Hv. auto.
Qed.

(** X7.  In every state that the rendered page can reach, [handleDownload]
    does nothing for a job that has not succeeded; for a saved job it always
    makes a request, and when the response is ok and its body can be read it
    offers the content of the job's [localUrl] under the job's [localKey]. *)
Theorem download_follows_the_local_copy
    (stored : option string) (s : State) (j : Job) :
  uiReachable h (Store.loadStoredJobs h stored) s -> j ∈ jobs s ->
  (status j <> success -> forall run, handleDownload h run j = Ignored)
  /\ (saved j = Some true ->
      exists key url,
        localKey j = Some key /\ localUrl j = Some url
        /\ forall run,
             handleDownload h run j <> Ignored
             /\ (blob run = None ->
                 (exists st, response run = Persist.FetchResponse true st) ->
                 handleDownload h run j = Offered url key)).
Proof.
  intros Hreach Hj.
  destruct (uiReachable_saved _ _ Hreach) as (_ & _ & [Sfit _ _]).
  rewrite Forall_forall in Sfit. destruct (Sfit j Hj) as [Hno Hyes].
  split.
  - intros Hs run. destruct (Hno Hs) as (_ & Hv & _ & Hu).
    unfold handleDownload. rewrite Hu, Hv. reflexivity.
  - intros Hsaved.
    destruct (decide (status j = success)) as [Hs|Hs];
      [|destruct (Hno Hs) as (Hf & _); congruence].
    destruct (Hyes Hs) as [(_ & Hc & Hv)|(Hf & _)]; [|congruence].
    apply isCompleted_spec in Hc
      as (_ & (key & Hkey & _) & (url & Hurl & Hne)).
    exists key, url. split; [exact Hkey|]. split; [exact Hurl|].
    intros run. unfold handleDownload. rewrite Hurl, Hkey. simpl.
    unfold Js.truthy. destruct (String.eqb_spec url ""); [contradiction|].
    simpl. split.
    + destruct (response run) as [e|[|] st]; try discriminate.
      destruct (blob run); discriminate.
    + intros -> [st ->]. reflexivity.
Qed.

Lemma storeAsset_success run fileName url :
  Props.persistSucceeds run = true ->
  snd (Persist.storeAsset run fileName url) = Attempt.Returned tt.
Proof.
  destruct run as [dl body st]. unfold Props.persistSucceeds. simpl.
  destruct dl as [e|[|] status]; try discriminate.
  destruct body as [e|]; try discriminate.
  destruct st as [e|[|] status']; try discriminate.
  reflexivity.
Qed.

(** X8.  When the persistence that a reachable state is waiting for
    succeeds, the job exists, has status ["success"], and gets
    [localKey = buildVideoFileName(job)],
    [localUrl = videoUrl = "/assets/" + encodeURIComponent(localKey)],
    [saved = true], [saving = false] and no [saveError]; its record is in the
    persisted index. *)
Theorem stored_copy_is_named_after_its_job
    (stored : option string) (s : State) (jobId fileName url : string)
    (run : Persist.Run) :
  uiReachable h (Store.loadStoredJobs h stored) s ->
  executing s !! jobId = Some (AwaitPersist fileName url) ->
  Props.persistSucceeds run = true ->
  let s' := persistSettled h jobId fileName url run s in
  (exists j, j ∈ jobs s' /\ id j = jobId)
  /\ forall j, j ∈ jobs s' -> id j = jobId ->
       let name := FileName.buildVideoFileName h (nameParts j) in
       let address := ("/assets/" ++ encodeURIComponent h name)%string in
       status j = success
       /\ localKey j = Some name
       /\ localUrl j = Some address
       /\ videoUrl j = Some address
       /\ saved j = Some true /\ saving j = Some false
       /\ saveError j = None
       /\ Store.storedRecord j ∈ Store.persistedIndex (jobs s').
Proof.
  intros Hreach Hexec Hok s'.
  destruct (uiReachable_saved _ _ Hreach) as ([session Hinv] & HT & HS).
  assert (Hjobs : jobs s' = Persist.persistVideoAsset h run jobId fileName url
                              (jobs s)) by reflexivity.
  unfold Persist.persistVideoAsset in Hjobs.
  rewrite (storeAsset_success _ _ _ Hok) in Hjobs.
  rewrite notifyJobUpdate_updateById in Hjobs.
  assert (Hall : forall j, j ∈ jobs s' -> id j = jobId ->
            let name := FileName.buildVideoFileName h (nameParts j) in
            let address := ("/assets/" ++ encodeURIComponent h name)%string in
            status j = success /\ localKey j = Some name
            /\ localUrl j = Some address /\ videoUrl j = Some address
            /\ saved j = Some true /\ saving j = Some false
            /\ saveError j = None).
  { intros j' Hj' Hid. rewrite Hjobs in Hj'.
    apply updateById_elem in Hj' as (j & Hj & [[Hidj ->]|[Hidj ->]]);
      [|contradiction].
    destruct (sv_persist _ _ HS _ _ _ _ Hexec Hj Hidj)
      as (_ & _ & _ & Hname).
    cbn. change (nameParts (applyPatch j _)) with (nameParts j).
    rewrite <- Hname.
    split; [apply (tr_persist _ HT _ _ _ _ Hexec Hj Hidj)|].
    repeat split. }
  split.
  - destruct (executing_in_session _ _ _ _ _ Hinv Hexec) as [Hin _].
    apply list_elem_of_fmap in Hin as (j & Hid & Hj).
    exists (applyPatch j
              {| p_status := None; p_attempts := None;
                 p_videoUrl :=
                   Some (Some ("/assets/" ++ encodeURIComponent h fileName)%string);
                 p_error := None; p_raw := None; p_events := None;
                 p_localKey := Some (Some fileName);
                 p_localUrl :=
                   Some (Some ("/assets/" ++ encodeURIComponent h fileName)%string);
                 p_saving := Some (Some false);
                 p_saved := Some (Some true);
                 p_saveError := Some None |}).
    split; [|symmetry; exact Hid].
    rewrite Hjobs. unfold updateById. apply list_elem_of_fmap.
    exists j. rewrite decide_True by (symmetry; exact Hid).
    split; [reflexivity|].
    rewrite (inv_jobs _ _ _ Hinv). apply elem_of_app. left. exact Hj.
  - intros j Hj Hid name address.
    destruct (Hall j Hj Hid) as (Hs & Hk & Hu & Hv & Hsv & Hsg & He).
    repeat (split; [assumption|]).
    unfold Store.persistedIndex. apply list_elem_of_fmap_2.
    apply list_elem_of_filter. split; [|exact Hj].
    apply isCompleted_spec. split; [exact Hs|].
    split; eexists; (split; [eassumption|]).
    + apply buildVideoFileName_nonempty.
    + discriminate.
Qed.

Lemma slot_released (running : gset string) (i : string) :
  i ∈ running ->
  (i ∉ running ∖ {[ i ]})
  /\ S (size (running ∖ {[ i ]})) = size running.
Proof.
  intros Hin. split; [set_solver|].
  rewrite size_difference by set_solver.
  rewrite size_singleton.
  assert (size running <> 0)%nat
    by (intros Hz; apply size_empty_inv in Hz; set_solver).
  lia.
Qed.

(** X9.  In every reachable state, a run that is rejected and a persistence
    that settles each remove the id of their job from [runningJobs], which
    shrinks by exactly one, and nothing is left suspended for that id; a run
    that resolves keeps its slot and waits for the persistence of the video
    under the file name built for the job. *)
Theorem finished_runs_free_their_slot (stored : option string) (s : State) :
  reachable h (Store.loadStoredJobs h stored) s ->
  (forall job e,
     executing s !! id job = Some (AwaitRun job) ->
     let s' := runRejected job e s in
     id job ∈ runningJobs s /\ (id job ∉ runningJobs s')
     /\ S (size (runningJobs s')) = size (runningJobs s)
     /\ executing s' !! id job = None)
  /\ (forall jobId fileName url run,
        executing s !! jobId = Some (AwaitPersist fileName url) ->
        let s' := persistSettled h jobId fileName url run s in
        jobId ∈ runningJobs s /\ (jobId ∉ runningJobs s')
        /\ S (size (runningJobs s')) = size (runningJobs s)
        /\ executing s' !! jobId = None)
  /\ (forall job url raw,
        executing s !! id job = Some (AwaitRun job) ->
        let s' := runResolved h job url raw s in
        runningJobs s' = runningJobs s
        /\ executing s' !! id job
           = Some (AwaitPersist
                     (FileName.buildVideoFileName h (nameParts job)) url)).
Proof.
  intros Hreach.
  assert (Hstored := loadStoredJobs_rehydrated h stored).
  destruct (reachable_invariant _ _ _ Hstored Hreach) as [session Hinv].
  assert (Hheld : forall i phase,
             executing s !! i = Some phase -> i ∈ runningJobs s).
  { intros i phase Hi. rewrite <- (inv_executing _ _ _ Hinv).
    apply elem_of_dom. eauto. }
  split; [|split].
  - intros job e Hexec s'. unfold s', runRejected.
    cbn [runningJobs executing].
    destruct (slot_released _ _ (Hheld _ _ Hexec)) as [Hout Hsize].
    split; [apply (Hheld _ _ Hexec)|]. split; [exact Hout|].
    split; [exact Hsize|apply lookup_delete_eq].
  - intros jobId fileName url run Hexec s'. unfold s', persistSettled.
    cbn [runningJobs executing].
    destruct (slot_released _ _ (Hheld _ _ Hexec)) as [Hout Hsize].
    split; [apply (Hheld _ _ Hexec)|]. split; [exact Hout|].
    split; [exact Hsize|apply lookup_delete_eq].
  - intros job url raw Hexec s'. unfold s', runResolved.
    cbn [runningJobs executing]. split; [reflexivity|].
    apply lookup_insert_eq.
Qed.

Lemma keeps_refl j : keeps j j.
Proof. split; [repeat split|reflexivity]. Qed.

Ltac identity_kept :=
  apply related_update;
    [apply keeps_refl
    |intros ? _ _; split;
       [repeat split
       |first [reflexivity|simpl; apply prefix_app_r; reflexivity]]].

(** X10.  No step changes the id, model, prompt, creation time, storage path
    or preview of a job, and none removes or reorders jobs: the list grows
    only in front, by at most one job, and the event log of a job only grows
    at its end. *)
Theorem jobs_keep_identity_and_place (s s' : State) :
  step h s s' ->
  related keeps (jobs s) (jobs s')
  /\ (length (jobs s) <= length (jobs s'))%nat
  /\ (exists added, map id (jobs s') = added ++ map id (jobs s)).
Proof.
  intros Hstep.
  assert (Hrel : related keeps (jobs s) (jobs s')).
  { destruct Hstep as
      [ s jobId model promptText now startPreview path Hfresh
      | s File storage_upload jobId model basePayload start end_ Hprep
      | s
      | s job event Hexec
      | s job resultUrl resultRaw Hexec
      | s job e Hexec
      | s jobId fileName resultUrl run Hexec
      | s job Hjob ].
    - eexists [_], (jobs s). split; [reflexivity|].
      split; [simpl; lia|]. split; [repeat constructor|].
      clear. induction (jobs s); constructor; auto. apply keeps_refl.
    - unfold prepared. cbn [jobs].
      destruct (settlePrepare_frame storage_upload jobId model basePayload
                  start end_ (jobs s)) as (g & -> & Hg).
      apply related_update; [apply keeps_refl|].
      intros j _ _. destruct (Hg j) as (Hsame & _ & Hev & _).
      split; [exact Hsame|rewrite Hev; reflexivity].
    - unfold tick.
      destruct (decide _); [apply related_refl, keeps_refl|].
      destruct (find _ _) as [nextJob|];
        [|apply related_refl, keeps_refl].
      unfold startJobExecution.
      destruct (payload nextJob);
        [|apply related_refl, keeps_refl].
      cbn [jobs]. rewrite notifyJobUpdate_updateById. identity_kept.
    - unfold queueUpdate.
      destruct (eventMessage event);
        [|apply related_refl, keeps_refl].
      cbn [jobs]. rewrite notifyJobUpdate_updateById. identity_kept.
    - unfold runResolved. cbn [jobs].
      rewrite notifyJobUpdate_updateById. identity_kept.
    - unfold runRejected. cbn [jobs].
      rewrite notifyJobUpdate_updateById. identity_kept.
    - unfold persistSettled, Persist.persistVideoAsset. cbn [jobs].
      destruct (snd (Persist.storeAsset run fileName resultUrl));
        rewrite notifyJobUpdate_updateById; identity_kept.
    - unfold retry, handleRetry. cbn [jobs].
      destruct (payload job);
        [|apply related_refl, keeps_refl].
      rewrite notifyJobUpdate_updateById. identity_kept. }
  split; [exact Hrel|].
  destruct Hrel as (fresh & kept & Heq & _ & _ & Hkept).
  assert (Hids : map id kept = map id (jobs s)).
  { clear Heq. induction Hkept as [|j j' l l' [[Hid _] _] _ IH];
      [reflexivity|].
    simpl. rewrite Hid, IH. reflexivity. }
  split.
  - rewrite Heq, length_app, <- (Forall2_length _ _ _ Hkept). lia.
  - exists (map id fresh). rewrite Heq, map_app, Hids. reflexivity.
Qed.

End SavingTheorems.

(** ** Shape of a sanitized segment *)

Section SegmentShape.
Import FileName Segment.

Lemma isHyphen_spec c : isHyphen c = true <-> c = hyphen.
Proof. unfold isHyphen. apply Ascii.eqb_eq. Qed.

Lemma hyphen_not_token : isTokenChar hyphen = false.
Proof. reflexivity. Qed.

Lemma last_rev {A} (l : list A) : last (rev l) = head l.
Proof. rewrite rev_alt. apply (last_reverse l). Qed.

Lemma spaced_app_l a b : spaced (a ++ b) -> spaced a.
Proof.
  intros H i Hi Hi'. apply (H i).
  - apply lookup_app_l_Some, Hi.
  - apply lookup_app_l_Some, Hi'.
Qed.

Lemma spaced_app_r a b : spaced (a ++ b) -> spaced b.
Proof.
  intros H i Hi Hi'. apply (H (length a + i)%nat).
  - rewrite lookup_app_r by lia.
    replace (length a + i - length a)%nat with i by lia. exact Hi.
  - rewrite lookup_app_r by lia.
    replace (S (length a + i) - length a)%nat with (S i) by lia. exact Hi'.
Qed.

Lemma replaceRuns_spaced cs : forall inRun,
  spaced (replaceRuns inRun cs)
  /\ (inRun = true -> head (replaceRuns inRun cs) <> Some hyphen).
Proof.
  induction cs as [|c cs IH]; intros inRun; simpl.
  - split; [intros i Hi; discriminate|discriminate].
  - destruct (isTokenChar c) eqn:Hc.
    + destruct (IH false) as [Hsp _]. split.
      * intros [|i] Hi Hi'; simpl in *.
        -- injection Hi as ->. discriminate.
        -- apply (Hsp i); assumption.
      * intros _ [= ->]. discriminate.
    + destruct (IH true) as [Hsp Hhd]. destruct inRun.
      * split; [exact Hsp|intros _; apply Hhd; reflexivity].
      * split; [|discriminate].
        intros [|i] Hi Hi'; simpl in *.
        -- apply Hhd; [reflexivity|].
           destruct (replaceRuns true cs); [discriminate|exact Hi'].
        -- apply (Hsp i); assumption.
Qed.

Lemma replaceRuns_tokens cs : forall inRun,
  filter (fun c => isTokenChar c = true) (replaceRuns inRun cs)
  = filter (fun c => isTokenChar c = true) cs.
Proof.
  induction cs as [|c cs IH]; intros inRun; simpl; [reflexivity|].
  destruct (isTokenChar c) eqn:Hc.
  - rewrite !filter_cons_True by exact Hc. f_equal. apply IH.
  - rewrite (filter_cons_False _ c cs) by congruence.
    destruct inRun; [apply IH|].
    rewrite filter_cons_False by (rewrite hyphen_not_token; discriminate).
    apply IH.
Qed.

(** [dropHyphens] removes a run of hyphens in front. *)
Lemma dropHyphens_split cs :
  exists run,
    cs = run ++ dropHyphens cs /\ Forall (fun c => c = hyphen) run
    /\ head (dropHyphens cs) <> Some hyphen.
Proof.
  induction cs as [|c cs (run & Heq & Hrun & Hhd)]; simpl.
  - exists []. repeat split; [constructor|discriminate].
  - destruct (isHyphen c) eqn:Hc.
    + apply isHyphen_spec in Hc. exists (c :: run).
      split; [simpl; congruence|]. split; [constructor; assumption|exact Hhd].
    + exists []. split; [reflexivity|]. split; [constructor|].
      simpl. intros [= ->]. discriminate.
Qed.

Lemma hyphens_no_tokens run :
  Forall (fun c => c = hyphen) run ->
  filter (fun c => isTokenChar c = true) run = [].
Proof.
  induction 1 as [|c run -> _ IH]; [reflexivity|].
  rewrite filter_cons_False by (rewrite hyphen_not_token; discriminate).
  exact IH.
Qed.

(** [trimHyphens] removes a run of hyphens at each end. *)
Lemma trimHyphens_split cs :
  exists front back,
    cs = front ++ trimHyphens cs ++ back
    /\ Forall (fun c => c = hyphen) front
    /\ Forall (fun c => c = hyphen) back
    /\ head (trimHyphens cs) <> Some hyphen
    /\ last (trimHyphens cs) <> Some hyphen.
Proof.
  unfold trimHyphens.
  destruct (dropHyphens_split cs) as (front & Hfront & Hf & Hhd).
  destruct (dropHyphens_split (rev (dropHyphens cs)))
    as (back & Hback & Hb & Hlast).
  set (inner := dropHyphens (rev (dropHyphens cs))) in *.
  assert (Hmid : dropHyphens cs = rev inner ++ rev back).
  { rewrite <- rev_app_distr, <- Hback, rev_involutive. reflexivity. }
  exists front, (rev back).
  split; [rewrite <- Hmid; exact Hfront|].
  split; [exact Hf|]. split; [apply Forall_rev, Hb|].
  split.
  - rewrite Hmid in Hhd. intros Hh. apply Hhd.
    destruct (rev inner); [discriminate|exact Hh].
  - rewrite last_rev. exact Hlast.
Qed.

Lemma all_hyphens_trimmed cs :
  Forall (fun c => c = hyphen) cs -> trimHyphens cs = [].
Proof.
  intros Hall. unfold trimHyphens.
  assert (Hd : dropHyphens cs = []).
  { induction Hall as [|c cs -> _ IH]; [reflexivity|]. simpl. exact IH. }
  rewrite Hd. reflexivity.
Qed.

Lemma segment_without_tokens cs :
  Forall segmentChar cs ->
  filter (fun c => isTokenChar c = true) cs = [] ->
  Forall (fun c => c = hyphen) cs.
Proof.
  induction 1 as [|c cs [Hc|Hc] _ IH]; intros Hf; [constructor| |].
  - rewrite filter_cons_True in Hf by exact Hc. discriminate.
  - subst c.
    rewrite filter_cons_False in Hf
      by (rewrite hyphen_not_token; discriminate).
    constructor; auto.
Qed.

(** X11.  For a text of ASCII characters, the sanitized segment never
    starts with a hyphen and never has two hyphens in a row; it ends with a
    hyphen only if it was cut at 40 characters.  Its letters and digits
    are a prefix of those of the lower-cased input, and it is empty
    exactly when the input has no letter or digit. *)
Theorem sanitizeFileSegment_shape (value : string) :
  isAsciiText value = true ->
  let input := map lowerChar (list_ascii_of_string value) in
  let cs := list_ascii_of_string (sanitizeFileSegment value) in
  head cs <> Some hyphen
  /\ (forall i, cs !! i = Some hyphen -> cs !! S i <> Some hyphen)
  /\ ((length cs < 40)%nat -> last cs <> Some hyphen)
  /\ filter (fun c => isTokenChar c = true) cs
       `prefix_of` filter (fun c => isTokenChar c = true) input
  /\ (sanitizeFileSegment value = ""
      <-> Forall (fun c => isTokenChar c = false) input).
Proof.
  intros _ input cs.
  assert (Hcs : cs = take 40 (trimHyphens (replaceRuns false input))).
  { unfold cs, sanitizeFileSegment, sanitizeChars.
    apply list_ascii_of_string_of_list_ascii. }
  destruct (trimHyphens_split (replaceRuns false input))
    as (front & back & Hsplit & Hfront & Hback & Hhd & Hlast).
  set (runs := replaceRuns false input) in *.
  set (trimmed := trimHyphens runs) in *.
  destruct (replaceRuns_spaced input false) as [Hspaced _]. fold runs in Hspaced.
  assert (Htrimmed : spaced trimmed).
  { rewrite Hsplit in Hspaced.
    apply spaced_app_r in Hspaced. apply spaced_app_l in Hspaced.
    exact Hspaced. }
  assert (Htokens : filter (fun c => isTokenChar c = true) trimmed
                    = filter (fun c => isTokenChar c = true) input).
  { rewrite <- (replaceRuns_tokens input false). fold runs.
    transitivity (filter (fun c => isTokenChar c = true)
                    (front ++ trimmed ++ back));
      [|f_equal; symmetry; exact Hsplit].
    rewrite !filter_app.
    rewrite (hyphens_no_tokens _ Hfront), (hyphens_no_tokens _ Hback).
    rewrite app_nil_r. reflexivity. }
  split; [|split; [|split; [|split]]].
  - rewrite Hcs. intros Hh. apply Hhd.
    destruct trimmed; [discriminate|exact Hh].
  - rewrite Hcs. rewrite <- (take_drop 40 trimmed) in Htrimmed.
    apply spaced_app_l in Htrimmed. exact Htrimmed.
  - rewrite Hcs. intros Hlen.
    rewrite take_ge; [exact Hlast|].
    rewrite length_take in Hlen. lia.
  - rewrite Hcs, <- Htokens.
    assert (Hpre : filter (fun c => isTokenChar c = true) trimmed
                   = filter (fun c => isTokenChar c = true) (take 40 trimmed)
                     ++ filter (fun c => isTokenChar c = true)
                          (drop 40 trimmed))
      by (rewrite <- filter_app, take_drop; reflexivity).
    rewrite Hpre. apply prefix_app_r. reflexivity.
  - assert (Hempty : sanitizeFileSegment value = "" <-> cs = []).
    { unfold cs. split; [intros ->; reflexivity|].
      intros Hnil.
      rewrite <- (string_of_list_ascii_of_string (sanitizeFileSegment value)).
      rewrite Hnil. reflexivity. }
    rewrite Hempty, Hcs. split.
    + intros Hnil.
      assert (Ht : trimmed = [])
        by (destruct trimmed; [reflexivity|discriminate]).
      rewrite Ht in Htokens. simpl in Htokens.
      apply Forall_forall. intros c Hc.
      destruct (isTokenChar c) eqn:Htok; [|reflexivity].
      assert (Hin : c ∈ filter (fun c => isTokenChar c = true) input)
        by (apply list_elem_of_filter; auto).
      rewrite <- Htokens in Hin. inversion Hin.
    + intros Hnone.
      assert (Hf : filter (fun c => isTokenChar c = true) runs = []).
      { unfold runs. rewrite replaceRuns_tokens.
        clear -Hnone. induction Hnone as [|c l Hc _ IH]; [reflexivity|].
        rewrite filter_cons_False by congruence. exact IH. }
      unfold trimmed.
      rewrite (all_hyphens_trimmed runs); [reflexivity|].
      apply segment_without_tokens; [apply replaceRuns_chars|exact Hf].
Qed.

End SegmentShape.

(** ** The asset store of the development server *)

Section AssetServerProofs.
Import JsMore AssetServer.
Variable node : Node.

Lemma prefix_split (p s : string) :
  String.prefix p s = true ->
  s = (p ++ sliceFrom (String.length p) s)%string.
Proof.
  revert s. induction p as [|c p IH]; intros s; [reflexivity|].
  destruct s as [|c' s]; simpl; [discriminate|].
  destruct (Ascii.ascii_dec c c') as [->|Hne]; [|discriminate].
  intros Hp.
  change (String c' s
          = String c' (p ++ sliceFrom (String.length p) s)%string).
  f_equal. apply IH, Hp.
Qed.

Lemma sliceFrom_app (p s : string) :
  sliceFrom (String.length p) (p ++ s) = s.
Proof. induction p as [|c p IH]; simpl; [reflexivity|exact IH]. Qed.

Lemma beforeQuery_plain (s : string) :
  includes "?" s = false -> beforeQuery s = s.
Proof.
  induction s as [|c s IH]; [reflexivity|].
  intros Hin. cbn [includes] in Hin. apply orb_false_iff in Hin as [Hp Hrest].
  cbn [beforeQuery]. destruct (Ascii.eqb_spec c "?") as [->|Hne].
  - destruct s; discriminate Hp.
  - f_equal. apply IH, Hrest.
Qed.

Lemma beforeQuery_app (p s : string) :
  includes "?" p = false ->
  beforeQuery (p ++ s) = (p ++ beforeQuery s)%string.
Proof.
  induction p as [|c p IH]; [reflexivity|].
  intros Hin. cbn [includes] in Hin. apply orb_false_iff in Hin as [Hp Hrest].
  change (beforeQuery (String c (p ++ s))
          = String c (p ++ beforeQuery s)%string).
  cbn [beforeQuery]. destruct (Ascii.eqb_spec c "?") as [->|Hne].
  - destruct p; discriminate Hp.
  - f_equal. apply IH, Hrest.
Qed.

Lemma fileAt_ensureOutDir disk p :
  fileAt (ensureOutDir node disk) p = fileAt disk p.
Proof.
  unfold ensureOutDir, fileAt.
  destruct (disk !! OUT_DIR node) eqn:Hout; [reflexivity|].
  destruct (decide (p = OUT_DIR node)) as [->|Hne].
  - rewrite lookup_insert_eq, Hout. reflexivity.
  - rewrite lookup_insert_ne by congruence. reflexivity.
Qed.

Lemma ensureOutDir_idempotent disk p entry :
  ensureOutDir node (<[ p := entry ]> (ensureOutDir node disk))
  = <[ p := entry ]> (ensureOutDir node disk).
Proof.
  unfold ensureOutDir at 1.
  destruct (decide (p = OUT_DIR node)) as [->|Hne].
  - rewrite lookup_insert_eq. reflexivity.
  - rewrite lookup_insert_ne by congruence.
    unfold ensureOutDir. destruct (disk !! OUT_DIR node) eqn:Hout.
    + rewrite Hout. reflexivity.
    + rewrite lookup_insert_eq. reflexivity.
Qed.

Lemma missing_false field payload :
  missing field payload = false ->
  exists v, Js.get field payload = Some v /\ truthyValue v = true.
Proof.
  unfold missing. destruct (Js.get field payload) as [v|]; [|discriminate].
  intros Hv. exists v. split; [reflexivity|].
  apply negb_false_iff, Hv.
Qed.

(** What a successful run of the [try] block did. *)
Lemma storeAsset_ok faults disk raw response disk' :
  storeAsset node faults disk raw = (inl response, disk') ->
  (response = Reply 400 "Invalid payload" /\ disk' = disk)
  \/ (response = Reply 400 "Invalid filename" /\ disk' = disk)
  \/ (response = Reply 200 "ok"
      /\ exists payload name data buffer,
           parse node raw = inl payload
           /\ Js.get "name" payload = Some (Js.JStr name)
           /\ Js.get "data" payload = Some data
           /\ name <> ""
           /\ includes ".." name = false
           /\ includes "/" name = false
           /\ includes "\" name = false
           /\ Buffer_from node data = inl buffer
           /\ mkdirThrows faults = None /\ writeThrows faults = None
           /\ disk' = <[ path_join node name := File buffer ]>
                        (ensureOutDir node disk)).
Proof.
  unfold storeAsset.
  destruct (parse node raw) as [payload|e] eqn:Hparse; [|discriminate].
  destruct (missing "name" payload) eqn:Hname; simpl;
    [intros [= <- <-]; auto|].
  destruct (missing "data" payload) eqn:Hdata; simpl;
    [intros [= <- <-]; auto|].
  apply missing_false in Hname as (name & Hn & Hnt).
  apply missing_false in Hdata as (data & Hd & Hdt).
  rewrite Hn, Hd. simpl.
  destruct (nameIncludes node ".." name) as [[|]|e] eqn:Hdots;
    [intros [= <- <-]; auto| |discriminate].
  destruct (nameIncludes node "/" name) as [[|]|e] eqn:Hslash;
    [intros [= <- <-]; auto| |discriminate].
  destruct (nameIncludes node "\" name) as [[|]|e] eqn:Hback;
    [intros [= <- <-]; auto| |discriminate].
  destruct (mkdirThrows faults) eqn:Hmk; [discriminate|].
  destruct name as [| | |fileName| |]; try discriminate.
  destruct (Buffer_from node data) as [buffer|e] eqn:Hbuf; [|discriminate].
  destruct (writeThrows faults) eqn:Hwr; [discriminate|].
  intros [= <- <-]. right. right. split; [reflexivity|].
  exists payload, fileName, data, buffer.
  simpl in Hdots, Hslash, Hback.
  injection Hdots as Hdots. injection Hslash as Hslash.
  injection Hback as Hback.
  repeat split; try assumption.
  intros ->. discriminate Hnt.
Qed.



(** X13.  A [GET] request never changes a file.  It streams only the file at
    [path.join(OUT_DIR, relative)] for a decoded path [relative] that is
    non-empty, not absolute and free of ".." and "\\", with the MIME type
    of that path; a decoded path that fails one of these checks is answered
    with [400 Invalid asset path] and the disk is left as it was. *)
Theorem assets_are_served_from_checked_paths
    (faults : Faults) (disk disk' : gmap string Entry) (req : Request)
    (response : Response) :
  method req = "GET" ->
  handler node faults disk req = (response, disk') ->
  (forall p, fileAt disk' p = fileAt disk p)
  /\ (forall contentType content,
        response = Stream contentType content ->
        exists encoded relative,
          beforeQuery (default "" (url req)) = ("/assets/" ++ encoded)%string
          /\ decodeURIComponent node encoded = inl relative
          /\ relative <> ""
          /\ includes ".." relative = false
          /\ includes "\" relative = false
          /\ path_isAbsolute node relative = false
          /\ fileAt disk (path_join node relative) = Some content
          /\ contentType = getMimeType node (path_join node relative))
  /\ (forall encoded relative,
        beforeQuery (default "" (url req)) = ("/assets/" ++ encoded)%string ->
        decodeURIComponent node encoded = inl relative ->
        relative = "" \/ includes ".." relative = true
        \/ includes "\" relative = true
        \/ path_isAbsolute node relative = true ->
        response = Reply 400 "Invalid asset path" /\ disk' = disk).
Proof.
  intros Hget. unfold handler. rewrite Hget. simpl.
  set (pathname := beforeQuery (default "" (url req))).
  destruct (String.prefix "/assets/" pathname) eqn:Hprefix.
  - apply prefix_split in Hprefix.
    set (encoded := sliceFrom (String.length "/assets/") pathname) in *.
    unfold serveAsset. fold encoded.
    destruct (decodeURIComponent node encoded) as [relative|e] eqn:Hdec.
    + destruct (negb (Js.truthy relative)) eqn:Hempty; simpl.
      { intros [= <- <-]. split; [reflexivity|].
        split; [discriminate|]. auto. }
      destruct (includes ".." relative) eqn:Hdots; simpl.
      { intros [= <- <-]. split; [reflexivity|].
        split; [discriminate|]. auto. }
      destruct (includes "\" relative) eqn:Hback; simpl.
      { intros [= <- <-]. split; [reflexivity|].
        split; [discriminate|]. auto. }
      destruct (path_isAbsolute node relative) eqn:Habs; simpl.
      { intros [= <- <-]. split; [reflexivity|].
        split; [discriminate|]. auto. }
      assert (Hne : relative <> "").
      { intros ->. discriminate Hempty. }
      assert (Hclean : forall encoded' relative',
                 pathname = ("/assets/" ++ encoded')%string ->
                 decodeURIComponent node encoded' = inl relative' ->
                 relative' = "" \/ includes ".." relative' = true
                 \/ includes "\" relative' = true
                 \/ path_isAbsolute node relative' = true -> False).
      { intros encoded' relative' Hpath Hdec' Hbad.
        rewrite Hpath in Hprefix. apply append_inv_head in Hprefix.
        rewrite Hprefix, Hdec in Hdec'. injection Hdec' as <-.
        destruct Hbad as [?|[?|[?|?]]]; congruence. }
      destruct (mkdirThrows faults).
      { intros [= <- <-]. split; [reflexivity|].
        split; [discriminate|]. intros ? ? ? ? Hbad.
        exfalso. eapply Hclean; eauto. }
      destruct (ensureOutDir node disk !! path_join node relative)
        as [[content|]|] eqn:Hfile; intros [= <- <-];
        (split; [apply fileAt_ensureOutDir|]);
        (split; [|intros ? ? ? ? Hbad; exfalso; eapply Hclean; eauto]);
        try discriminate.
      intros contentType content' [= <- <-].
      exists encoded, relative. repeat (split; [assumption|]).
      split; [|reflexivity].
      rewrite <- fileAt_ensureOutDir. unfold fileAt. rewrite Hfile.
      reflexivity.
    + intros [= <- <-]. split; [reflexivity|]. split; [discriminate|].
      intros encoded' relative' Hpath Hdec'.
      rewrite Hpath in Hprefix. apply append_inv_head in Hprefix.
      rewrite Hprefix, Hdec in Hdec'. discriminate.
  - assert (Hnot : forall encoded,
               pathname <> ("/assets/" ++ encoded)%string).
    { intros encoded Heq. rewrite Heq in Hprefix. cbn in Hprefix.
      destruct encoded; discriminate Hprefix. }
    intros [= <- <-]. split; [reflexivity|]. split; [discriminate|].
    intros encoded relative Hpath. exfalso. eapply Hnot, Hpath.
Qed.

(** X14.  After [POST /api/assets] has answered [200 ok] for a name,
    [GET /assets/<encoded>] streams the bytes that were stored, with the MIME
    type of the stored path, whenever [encoded] decodes to the name and holds
    no "?", the name is not an absolute path and creating the [out]
    directory does not throw. *)
Theorem stored_asset_is_served
    (faults faults' : Faults) (disk disk' : gmap string Entry) (raw : string)
    (payload : Js.JSON) (name encoded ignored : string) :
  handler node faults disk
    {| method := "POST"; url := Some "/api/assets"; body := raw |}
    = (Reply 200 "ok", disk') ->
  parse node raw = inl payload ->
  Js.get "name" payload = Some (Js.JStr name) ->
  decodeURIComponent node encoded = inl name ->
  includes "?" encoded = false ->
  path_isAbsolute node name = false ->
  mkdirThrows faults' = None ->
  exists data buffer,
    Js.get "data" payload = Some data
    /\ Buffer_from node data = inl buffer
    /\ handler node faults' disk'
         {| method := "GET"; url := Some ("/assets/" ++ encoded)%string;
            body := ignored |}
       = (Stream (getMimeType node (path_join node name)) buffer, disk').
Proof.
  intros Hpost Hparse Hname Hdec Hquery Habs Hmk.
  unfold handler in Hpost. simpl in Hpost. unfold receiveAsset in Hpost.
  destruct (storeAsset node faults disk raw) as [[r|e] d] eqn:Hrun;
    [|discriminate].
  injection Hpost as -> ->.
  apply storeAsset_ok in Hrun
    as [[[=] _]|[[[=] _]|(_ & payload' & name' & data & buffer & Hp & Hn
                           & Hd & Hne & H1 & H2 & H3 & Hb & _ & _ & ->)]].
  rewrite Hparse in Hp. injection Hp as <-.
  rewrite Hname in Hn. injection Hn as <-.
  exists data, buffer. split; [exact Hd|]. split; [exact Hb|].
  unfold handler. cbn [method url body default]. unfold Datatypes.id.
  assert (Hpath : beforeQuery ("/assets/" ++ encoded)
                  = ("/assets/" ++ encoded)%string).
  { rewrite beforeQuery_app by reflexivity.
    rewrite (beforeQuery_plain _ Hquery). reflexivity. }
  rewrite Hpath.
  change (String.eqb "GET" "GET" && String.prefix "/assets/" ("/assets/" ++ encoded))
    with (String.prefix "" encoded).
  replace (String.prefix "" encoded) with true by (destruct encoded; reflexivity).
  unfold serveAsset.
  rewrite (sliceFrom_app "/assets/" encoded), Hdec.
  unfold Js.truthy. destruct (String.eqb_spec name ""); [contradiction|].
  rewrite H1, H3, Habs, Hmk. simpl.
  rewrite ensureOutDir_idempotent, lookup_insert_eq. reflexivity.
Qed.

End AssetServerProofs.

(** ** The names that the page sends to the store *)

Section StoreNames.
Import FileName JsMore AssetServer.

Lemma string_app_assoc (a b c : string) :
  ((a ++ b) ++ c = a ++ (b ++ c))%string.
Proof.
  induction a as [|x a IH]; [reflexivity|].
  change (String x ((a ++ b) ++ c) = String x (a ++ (b ++ c)))%string.
  rewrite IH. reflexivity.
Qed.

Lemma includes_char (c : ascii) (s : string) :
  Forall (fun x => x <> c) (list_ascii_of_string s) ->
  includes (String c "") s = false.
Proof.
  induction s as [|x s IH]; intros Hall; [reflexivity|].
  change (list_ascii_of_string (String x s))
    with (x :: list_ascii_of_string s) in Hall.
  apply Forall_cons in Hall as [Hx Hs].
  cbn [includes String.prefix].
  destruct (ascii_dec c x) as [->|_]; [contradiction|].
  simpl. apply IH, Hs.
Qed.

Lemma includes_dots (stem : string) :
  Forall (fun x => x <> "."%char) (list_ascii_of_string stem) ->
  includes ".." (stem ++ ".mp4") = false.
Proof.
  induction stem as [|x s IH]; intros Hall; [reflexivity|].
  change (list_ascii_of_string (String x s))
    with (x :: list_ascii_of_string s) in Hall.
  apply Forall_cons in Hall as [Hx Hs].
  change (includes ".." (String x (s ++ ".mp4")) = false).
  cbn [includes String.prefix].
  destruct (ascii_dec "." x) as [<-|_]; [contradiction|].
  simpl. apply IH, Hs.
Qed.

Lemma segmentChar_plain c : segmentChar c -> plainChar c.
Proof.
  intros [Htok| ->]; [|repeat split; discriminate].
  repeat split; intros ->; discriminate Htok.
Qed.

Lemma sanitized_plain value :
  Forall plainChar (list_ascii_of_string (sanitizeFileSegment value)).
Proof.
  eapply Forall_impl; [apply sanitizeFileSegment_bounded|].
  apply segmentChar_plain.
Qed.

Lemma orElse_plain (a b : string) :
  Forall plainChar (list_ascii_of_string a) ->
  Forall plainChar (list_ascii_of_string b) ->
  Forall plainChar (list_ascii_of_string (Js.orElse a b)).
Proof. intros Ha Hb. unfold Js.orElse. destruct (Js.truthy a); assumption. Qed.

Lemma lastSix_plain (s : string) :
  Forall plainChar (list_ascii_of_string s) ->
  Forall plainChar (list_ascii_of_string (lastSix s)).
Proof.
  intros Hs. unfold lastSix, Js.sliceLast.
  rewrite list_ascii_of_string_of_list_ascii. apply Forall_drop, Hs.
Qed.

Lemma lastSix_nonempty (s : string) : s <> "" -> lastSix s <> "".
Proof.
  intros Hs. unfold lastSix, Js.sliceLast.
  destruct s as [|c s]; [contradiction|].
  change (list_ascii_of_string (String c s))
    with (c :: list_ascii_of_string s).
  intros Hnil. apply (f_equal String.length) in Hnil.
  rewrite string_of_list_ascii_length, length_drop in Hnil.
  simpl in Hnil. lia.
Qed.

Lemma literal_plain (s : string) :
  forallb (fun c => negb (Ascii.eqb c "." || Ascii.eqb c "/" || Ascii.eqb c "\"))
          (list_ascii_of_string s) = true ->
  Forall plainChar (list_ascii_of_string s).
Proof.
  intros Hall. apply Forall_forall. intros c Hc.
  rewrite forallb_forall in Hall. apply list_elem_of_In in Hc.
  specialize (Hall c Hc). apply negb_true_iff in Hall.
  repeat split; intros ->; discriminate Hall.
Qed.

(** X15.  If the compact timestamp has no ".", "/" or "\\" and the job id has
    an ASCII letter or digit (or is itself free of these three characters),
    the file name built for the job is non-empty and has no "..", "/" or
    "\\"; the store then accepts the body [{ name, data }] that
    [persistVideoAsset] sends for it, writes the file and answers
    [200 ok], provided that the data is not empty and decodes and that
    neither creating the [out] directory nor the write throws. *)
Theorem built_file_names_pass_the_store_check
    (h : Host) (job : NameParts) :
  Forall plainChar
    (list_ascii_of_string (formatCompactTimestamp h (createdAt job))) ->
  sanitizeFileSegment (id job) <> ""
  \/ Forall plainChar (list_ascii_of_string (id job)) ->
  let name := buildVideoFileName h job in
  (name <> "" /\ includes ".." name = false /\ includes "/" name = false
   /\ includes "\" name = false)
  /\ forall (node : Node) (faults : Faults) (disk : gmap string Entry)
            (raw data : string) (buffer : list Byte.byte),
       parse node raw
         = inl (Js.JObj [("name", Js.JStr name); ("data", Js.JStr data)]) ->
       data <> "" ->
       Buffer_from node (Js.JStr data) = inl buffer ->
       mkdirThrows faults = None -> writeThrows faults = None ->
       receiveAsset node faults disk raw
       = (Reply 200 "ok",
          <[ path_join node name := File buffer ]> (ensureOutDir node disk)).
Proof.
  intros Hstamp Hid name.
  set (stem := (baseSegment job ++ "-" ++ modelSegment job ++ "-"
                  ++ formatCompactTimestamp h (createdAt job) ++ "-"
                  ++ idSegment job)%string).
  assert (Hname : name = (stem ++ ".mp4")%string).
  { unfold name, buildVideoFileName, stem. cbv zeta.
    rewrite !string_app_assoc. reflexivity. }
  assert (Hplain : Forall plainChar (list_ascii_of_string stem)).
  { unfold stem. rewrite !list_ascii_of_string_app.
    repeat apply Forall_app_2.
    - apply orElse_plain; [apply sanitized_plain|].
      apply literal_plain. reflexivity.
    - apply literal_plain. reflexivity.
    - apply orElse_plain; [apply sanitized_plain|].
      apply literal_plain. reflexivity.
    - apply literal_plain. reflexivity.
    - exact Hstamp.
    - apply literal_plain. reflexivity.
    - unfold idSegment, Js.orElse.
      destruct (Js.truthy (lastSix (sanitizeFileSegment (id job)))) eqn:Ht;
        [apply lastSix_plain, sanitized_plain|].
      destruct Hid as [Hid|Hid]; [|apply lastSix_plain, Hid].
      apply lastSix_nonempty in Hid. unfold Js.truthy in Ht.
      destruct (String.eqb_spec (lastSix (sanitizeFileSegment (id job))) "");
        [contradiction|discriminate]. }
  assert (Hchecks : name <> "" /\ includes ".." name = false
                    /\ includes "/" name = false
                    /\ includes "\" name = false).
  { rewrite Hname. split; [apply append_nonempty; discriminate|].
    split; [apply includes_dots; eapply Forall_impl; [exact Hplain|];
            intros c Hc; apply Hc|].
    assert (Hall : forall c,
              Forall (fun x => x <> c) (list_ascii_of_string ".mp4") ->
              (forall x, plainChar x -> x <> c) ->
              Forall (fun x => x <> c)
                     (list_ascii_of_string (stem ++ ".mp4"))).
    { intros c Hext Hc. rewrite list_ascii_of_string_app.
      apply Forall_app_2; [|exact Hext].
      eapply Forall_impl; [exact Hplain|exact Hc]. }
    split; apply includes_char.
    - apply Hall; [repeat constructor; discriminate|].
      intros x Hx. apply Hx.
    - apply Hall; [repeat constructor; discriminate|].
      intros x Hx. apply Hx. }
  split; [exact Hchecks|].
  destruct Hchecks as (Hne & Hdots & Hslash & Hback).
  intros node faults disk raw data buffer Hparse Hdata Hbuf Hmk Hwr.
  unfold receiveAsset, storeAsset. rewrite Hparse.
  unfold missing. cbn [Js.get Js.assoc String.eqb].
  cbn. unfold Js.truthy.
  destruct (String.eqb_spec name ""); [contradiction|].
  destruct (String.eqb_spec data ""); [contradiction|].
  cbn. rewrite Hdots, Hslash, Hback, Hmk, Hbuf, Hwr. reflexivity.
Qed.

End StoreNames.

(** ** The history across a reload *)

Section HistoryProofs.
Import Jobs.
Variable h : Host.

Lemma storedRecord_rehydrate job :
  Store.storedRecord (Props.rehydrate job) = Store.storedRecord job.
Proof.
  unfold Store.storedRecord, Props.rehydrate.
  cbn [id modelId prompt createdAt preview events localKey localUrl
       storagePath].
  rewrite sliceLast_idempotent. reflexivity.
Qed.

Lemma isCompleted_rehydrate job :
  Store.isCompleted job = true ->
  Store.isCompleted (Props.rehydrate job) = true.
Proof.
  unfold Store.isCompleted, Props.rehydrate. cbn.
  rewrite !andb_true_iff. intros [[_ Hk] Hu]. auto.
Qed.

Lemma filter_all {A} (P : A -> Prop) `{forall x, Decision (P x)} (l : list A) :
  Forall P l -> filter P l = l.
Proof.
  induction 1 as [|x l Hx _ IH]; [reflexivity|].
  rewrite filter_cons_True by exact Hx. f_equal. exact IH.
Qed.

(** X16.  When [localStorage] carries out the request of
    [persistStoredJobs] and [JSON.parse] reads back the array that
    [JSON.stringify] wrote, loading the history afterwards gives exactly
    the completed jobs, in order: each with its id, model, prompt, creation
    time, preview, storage path, key and URL, its last ten events, status
    ["success"], one attempt and no payload; persisting the loaded list
    makes the same request again.  When [localStorage] refuses the request
    (it throws, and [persistStoredJobs] catches that), the item is left as
    it was and loading gives what the earlier item holds. *)
Theorem history_survives_reload
    (jobs : list Job) (answer : History.Answer) (before : option string) :
  let completed := filter (fun job => Store.isCompleted job = true) jobs in
  let text := JSON_stringify h (Js.JArr (Store.persistedIndex jobs)) in
  (completed <> [] ->
   text <> ""
   /\ JSON_parse h text = Some (Js.JArr (Store.persistedIndex jobs))) ->
  let reloaded :=
    Store.loadStoredJobs h
      (History.itemAfter Store.VIDEO_JOBS_STORAGE_KEY
         (Store.persistStoredJobs h jobs) answer before) in
  (answer = History.Done ->
   reloaded = map Props.rehydrate completed
   /\ Store.persistStoredJobs h reloaded = Store.persistStoredJobs h jobs
   /\ Forall2 (fun job back =>
                 id back = id job /\ modelId back = modelId job
                 /\ prompt back = prompt job
                 /\ createdAt back = createdAt job
                 /\ preview back = preview job
                 /\ storagePath back = storagePath job
                 /\ localKey back = localKey job
                 /\ localUrl back = localUrl job
                 /\ videoUrl back = localUrl job
                 /\ events back = Js.sliceLast 10 (events job)
                 /\ status back = success /\ attempts back = 1
                 /\ payload back = None /\ saved back = Some true)
              completed reloaded)
  /\ (forall e,
        answer = History.Refused e ->
        History.itemAfter Store.VIDEO_JOBS_STORAGE_KEY
          (Store.persistStoredJobs h jobs) answer before = before
        /\ reloaded = Store.loadStoredJobs h before).
Proof.
  intros completed text Hhost reloaded. split.
  - intros Hdone.
    assert (Hre : reloaded = map Props.rehydrate completed).
    { unfold reloaded, Store.persistStoredJobs. rewrite Hdone. fold completed.
      destruct completed as [|job rest] eqn:Hc; [reflexivity|].
      cbn [History.itemAfter]. rewrite String.eqb_refl.
      destruct Hhost as [Hne Hparse]; [discriminate|].
      rewrite <- Hc.
      change (map Store.storedRecord completed)
        with (Store.persistedIndex jobs).
      apply (loadStoredJobs_persisted h jobs Hne Hparse). }
    assert (Hall : Forall (fun job => Store.isCompleted job = true) completed).
    { apply Forall_forall. intros j Hj.
      apply list_elem_of_filter in Hj. tauto. }
    split; [exact Hre|]. split.
    + rewrite Hre. unfold Store.persistStoredJobs. fold completed.
      rewrite filter_all
        by (apply Forall_fmap; eapply Forall_impl; [exact Hall|];
            intros j Hj; apply isCompleted_rehydrate, Hj).
      rewrite map_map.
      rewrite (map_ext _ Store.storedRecord)
        by (intros j; apply storedRecord_rehydrate).
      destruct completed; reflexivity.
    + rewrite Hre. clear. induction completed as [|j l IH]; constructor.
      * repeat split.
      * exact IH.
  - intros e He. unfold reloaded. rewrite He. split; reflexivity.
Qed.

End HistoryProofs.

(** ** The input of the provider call *)

Section ModelsProofs.
Import Models ModelsSpec.
Variable unified : Payload.UnifiedPayload.

Lemma hasKey_spec key (input : Input) :
  hasKey key input = true <-> key ∈ map fst input.
Proof.
  unfold hasKey. rewrite existsb_exists. split.
  - intros ([k v] & Hin & Heq). apply String.eqb_eq in Heq. simpl in Heq.
    subst k. apply list_elem_of_In in Hin.
    apply (list_elem_of_fmap_2 fst _ _ Hin).
  - intros Hin. apply list_elem_of_fmap in Hin as ([k v] & -> & Hin).
    exists (k, v). split; [apply list_elem_of_In, Hin|apply String.eqb_refl].
Qed.

Lemma assign_elem key v (input : Input) k0 v0 :
  (k0, v0) ∈ assign key v input -> (k0, v0) ∈ input \/ (k0, v0) = (key, v).
Proof.
  unfold assign. destruct (hasKey key input).
  - intros Hin. apply list_elem_of_fmap in Hin as ([k' v'] & Heq & Hin).
    simpl in Heq.
    destruct (String.eqb k' key); [right; exact Heq|left; rewrite Heq; exact Hin].
  - intros Hin. apply elem_of_app in Hin as [Hin|Hin]; [left; exact Hin|].
    apply list_elem_of_singleton in Hin. right. exact Hin.
Qed.

Lemma assign_keys key v (input : Input) :
  map fst (assign key v input)
  = if hasKey key input then map fst input else map fst input ++ [key].
Proof.
  unfold assign. destruct (hasKey key input).
  - rewrite map_map. apply map_ext_in. intros [k' v'] _. simpl.
    destruct (String.eqb_spec k' key); [symmetry; assumption|reflexivity].
  - rewrite map_app. reflexivity.
Qed.

Lemma assign_has key v (input : Input) : (key, v) ∈ assign key v input.
Proof.
  unfold assign. destruct (hasKey key input) eqn:Hk.
  - apply hasKey_spec in Hk.
    apply list_elem_of_fmap in Hk as ([k' v'] & -> & Hin).
    apply list_elem_of_fmap. exists (k', v'). simpl.
    rewrite String.eqb_refl. auto.
  - apply elem_of_app. right. apply list_elem_of_here.
Qed.

(** One turn of the loop, by cases on what there is to send. *)
Lemma collectParam_cases paramKey definition (input : Input) :
  collectParam unified (paramKey, Some definition) input
  = match chosen unified paramKey definition with
    | Some v => Attempt.Returned (assign paramKey v input)
    | None =>
        if isRequired definition
        then Attempt.Threw
               (Js.ErrorObject (missingMessage paramKey definition))
        else Attempt.Returned input
    end.
Proof.
  unfold collectParam, chosen, missingMessage, enumValues, sourceKey.
  cbn [fst snd].
  destruct (type definition); try reflexivity;
    try (destruct (unifiedValue unified _); [reflexivity|];
         destruct (defaultValue definition); reflexivity).
  destruct (values definition); [reflexivity|].
  destruct (unifiedValue unified _); [reflexivity|].
  destruct (defaultValue definition); reflexivity.
Qed.

(** A turn that returns adds at most the parameter's entry. *)
Lemma collectParam_returned entry (input out : Input) :
  collectParam unified entry input = Attempt.Returned out ->
  out = input
  \/ exists definition v,
       snd entry = Some definition
       /\ chosen unified (fst entry) definition = Some v
       /\ out = assign (fst entry) v input.
Proof.
  destruct entry as [paramKey [definition|]];
    [|intros [= <-]; left; reflexivity].
  rewrite collectParam_cases.
  destruct (chosen unified paramKey definition) as [v|] eqn:Hv.
  - intros [= <-]. right. exists definition, v. auto.
  - destruct (isRequired definition); [discriminate|].
    intros [= <-]. left. reflexivity.
Qed.

Lemma collectParams_entries entries : forall (input out : Input),
  collectParams unified entries input = Attempt.Returned out ->
  (forall k v, (k, v) ∈ out ->
     (k, v) ∈ input
     \/ exists definition,
          (k, Some definition) ∈ entries
          /\ chosen unified k definition = Some v)
  /\ exists added,
       map fst out = map fst input ++ added
       /\ added `sublist_of` map fst entries.
Proof.
  induction entries as [|entry rest IH]; intros input out; simpl.
  - intros [= <-]. split; [auto|].
    exists []. rewrite app_nil_r. split; [reflexivity|constructor].
  - destruct (collectParam unified entry input) as [input'|e] eqn:Hturn;
      [|discriminate].
    intros Hrest. destruct (IH _ _ Hrest) as [Hin (added & Hkeys & Hsub)].
    apply collectParam_returned in Hturn
      as [->|(definition & v & Hdef & Hv & ->)].
    + split.
      * intros k v Hkv. destruct (Hin k v Hkv) as [?|(d & Hd & Hc)]; auto.
        right. exists d. split; [apply list_elem_of_further, Hd|exact Hc].
      * exists added. split; [exact Hkeys|]. apply sublist_cons, Hsub.
    + split.
      * intros k v' Hkv. destruct (Hin k v' Hkv) as [Hold|(d & Hd & Hc)].
        -- apply assign_elem in Hold as [?|[= -> ->]]; auto.
           right. exists definition. split; [|exact Hv].
           destruct entry as [paramKey o]. simpl in *. subst o.
           apply list_elem_of_here.
        -- right. exists d.
           split; [apply list_elem_of_further, Hd|exact Hc].
      * rewrite assign_keys in Hkeys.
        destruct (hasKey (fst entry) input).
        -- exists added. split; [exact Hkeys|]. apply sublist_cons, Hsub.
        -- exists (fst entry :: added).
           rewrite <- app_assoc in Hkeys. split; [exact Hkeys|].
           apply sublist_skip, Hsub.
Qed.

Lemma collectParams_provided entries : forall input : Input,
  Forall (fun entry => unprovided unified entry = false) entries ->
  exists out, collectParams unified entries input = Attempt.Returned out.
Proof.
  induction entries as [|[paramKey o] rest IH]; intros input Hall; simpl.
  - eauto.
  - apply Forall_cons in Hall as [Hentry Hrest].
    destruct o as [definition|]; [|apply IH, Hrest].
    rewrite collectParam_cases.
    unfold unprovided in Hentry. simpl in Hentry.
    destruct (chosen unified paramKey definition) as [v|];
      [apply IH, Hrest|].
    rewrite bool_decide_eq_false_2 in Hentry
      by (intros [? ?]; discriminate).
    rewrite andb_true_r in Hentry. rewrite Hentry. apply IH, Hrest.
Qed.

Lemma collectParams_first_missing before paramKey definition after :
  forall input : Input,
    Forall (fun entry => unprovided unified entry = false) before ->
    unprovided unified (paramKey, Some definition) = true ->
    collectParams unified (before ++ (paramKey, Some definition) :: after)
      input
    = Attempt.Threw (Js.ErrorObject (missingMessage paramKey definition)).
Proof.
  induction before as [|[k o] rest IH]; intros input Hall Hmiss; simpl.
  - rewrite collectParam_cases.
    unfold unprovided in Hmiss. simpl in Hmiss.
    apply andb_true_iff in Hmiss as [Hreq Hnone].
    apply negb_true_iff, bool_decide_eq_false in Hnone.
    destruct (chosen unified paramKey definition);
      [exfalso; apply Hnone; eauto|].
    rewrite Hreq. reflexivity.
  - apply Forall_cons in Hall as [Hentry Hrest].
    destruct (collectParams_provided [(k, o)] input) as [out Hout];
      [constructor; [exact Hentry|constructor]|].
    simpl in Hout.
    destruct (collectParam unified (k, o) input) as [input'|e];
      [|discriminate].
    apply IH; assumption.
Qed.

Lemma deleteKey_elem key (input : Input) k v :
  (k, v) ∈ deleteKey key input <-> (k, v) ∈ input /\ k <> key.
Proof.
  unfold deleteKey. rewrite list_elem_of_filter. simpl. tauto.
Qed.

Lemma stripEndKeys_elem (input : Input) k v :
  (k, v) ∈ stripEndKeys input <-> (k, v) ∈ input /\ k ∉ SAFE_END_KEYS.
Proof.
  unfold stripEndKeys, SAFE_END_KEYS. simpl.
  rewrite !deleteKey_elem, !not_elem_of_cons. split.
  - intros [[Hin H1] H2]. repeat split; try assumption.
    apply not_elem_of_nil.
  - intros (Hin & H1 & H2 & _). auto.
Qed.

Lemma stripEndKeys_keys (input : Input) :
  map fst (stripEndKeys input) `sublist_of` map fst input.
Proof.
  unfold stripEndKeys, SAFE_END_KEYS, deleteKey. simpl.
  etransitivity; apply (fmap_sublist fst), sublist_filter.
Qed.

(** What [buildFalInput] returns for a model without an adapter. *)
Lemma buildFalInput_returned model (input : Input) :
  adapter model = None ->
  buildFalInput model unified = Attempt.Returned input ->
  exists collected,
    collectParams unified (params model) [] = Attempt.Returned collected
    /\ input = if endFrameSent model unified then collected
               else stripEndKeys collected.
Proof.
  intros Hno. unfold buildFalInput, endFrameSent. rewrite Hno.
  destruct (collectParams unified (params model) []) as [collected|e];
    [|discriminate].
  exists collected. split; [reflexivity|].
  destruct (Prepare.isSupportEnabled _); simpl in *;
    [|congruence].
  destruct (Js.truthyOpt _); simpl in *; congruence.
Qed.

(** X17.  For a model without adapter, the keys of the input that
    [buildFalInput] returns are parameter names of the model, in the order of
    the parameters, and the value of a key is the payload's value for the
    parameter's source key or else the parameter's default; a value that an
    enumeration takes from the payload is one of its listed values. *)
Theorem buildFalInput_sends_declared_parameters
    (model : ModelSpec) (input : Input) :
  adapter model = None ->
  buildFalInput model unified = Attempt.Returned input ->
  map fst input `sublist_of` map fst (params model)
  /\ forall paramKey v, (paramKey, v) ∈ input ->
       exists definition,
         (paramKey, Some definition) ∈ params model
         /\ chosen unified paramKey definition = Some v
         /\ (forall allowed,
               enumValues definition = Some allowed ->
               (unifiedValue unified (sourceKey paramKey definition) = Some v
                /\ existsb (fun option => strictEq option v) allowed = true)
               \/ defaultValue definition = Some v)
         /\ (enumValues definition = None ->
             unifiedValue unified (sourceKey paramKey definition) = Some v
             \/ (unifiedValue unified (sourceKey paramKey definition) = None
                 /\ defaultValue definition = Some v)).
Proof.
  intros Hno Hret.
  destruct (buildFalInput_returned _ _ Hno Hret) as (collected & Hrun & ->).
  destruct (collectParams_entries _ _ _ Hrun)
    as [Hin (added & Hkeys & Hsub)].
  simpl in Hkeys. subst added.
  split.
  - destruct (endFrameSent model unified); [exact Hsub|].
    etransitivity; [apply stripEndKeys_keys|exact Hsub].
  - intros paramKey v Hkv.
    assert (Hc : (paramKey, v) ∈ collected).
    { destruct (endFrameSent model unified); [exact Hkv|].
      apply stripEndKeys_elem in Hkv. tauto. }
    destruct (Hin _ _ Hc) as [Hnil|(definition & Hd & Hchosen)];
      [inversion Hnil|].
    exists definition. split; [exact Hd|]. split; [exact Hchosen|].
    unfold chosen in Hchosen. split.
    + intros allowed Hallowed. rewrite Hallowed in Hchosen.
      unfold coerceEnumValue in Hchosen.
      destruct (unifiedValue unified _) as [value|]; [|auto].
      destruct (existsb _ allowed) eqn:Hex; [|auto].
      injection Hchosen as ->. left. auto.
    + intros Hnone. rewrite Hnone in Hchosen.
      destruct (unifiedValue unified _) as [value|]; [left|right]; auto.
Qed.

(** X18.  For a model without adapter: unless the end-frame capability of the
    model is enabled and the payload has a non-empty [end_frame_url], the
    input has neither [tail_image_url] nor [last_frame_url] and is otherwise
    what the parameters gave; in the other case nothing is removed. *)
Theorem buildFalInput_gates_end_frame_keys
    (model : ModelSpec) (input : Input) :
  adapter model = None ->
  buildFalInput model unified = Attempt.Returned input ->
  exists collected,
    collectParams unified (params model) [] = Attempt.Returned collected
    /\ (endFrameSent model unified = true -> input = collected)
    /\ (endFrameSent model unified = false ->
        (forall key, key ∈ SAFE_END_KEYS -> key ∉ map fst input)
        /\ forall k v, (k, v) ∈ input <->
                       (k, v) ∈ collected /\ k ∉ SAFE_END_KEYS).
Proof.
  intros Hno Hret.
  destruct (buildFalInput_returned _ _ Hno Hret) as (collected & Hrun & ->).
  exists collected. split; [exact Hrun|].
  destruct (endFrameSent model unified); split; try discriminate;
    try reflexivity.
  intros _. split.
  - intros key Hkey Hin.
    apply list_elem_of_fmap in Hin as ([k v] & -> & Hin).
    apply stripEndKeys_elem in Hin as [_ Hnot]. contradiction.
  - intros k v. apply stripEndKeys_elem.
Qed.

(** X19.  For a model without adapter, [buildFalInput] returns an input when
    every required parameter has something to send; otherwise it throws for
    the first required parameter that has nothing, with the message that
    names it, and it throws for no other reason. *)
Theorem buildFalInput_reports_first_missing_parameter (model : ModelSpec) :
  adapter model = None ->
  (Forall (fun entry => unprovided unified entry = false) (params model) ->
   exists input, buildFalInput model unified = Attempt.Returned input)
  /\ (forall before paramKey definition after,
        params model = before ++ (paramKey, Some definition) :: after ->
        Forall (fun entry => unprovided unified entry = false) before ->
        unprovided unified (paramKey, Some definition) = true ->
        buildFalInput model unified
        = Attempt.Threw
            (Js.ErrorObject (missingMessage paramKey definition)))
  /\ (forall e,
        buildFalInput model unified = Attempt.Threw e ->
        exists paramKey definition,
          (paramKey, Some definition) ∈ params model
          /\ unprovided unified (paramKey, Some definition) = true
          /\ e = Js.ErrorObject (missingMessage paramKey definition)).
Proof.
  intros Hno. unfold buildFalInput. rewrite Hno. split; [|split].
  - intros Hall.
    destruct (collectParams_provided _ [] Hall) as [out ->].
    destruct (negb _); [eauto|]. destruct (negb _); eauto.
  - intros before paramKey definition after -> Hbefore Hmiss.
    rewrite (collectParams_first_missing _ _ _ _ _ Hbefore Hmiss).
    reflexivity.
  - intros e.
    destruct (collectParams unified (params model) []) as [out|e'] eqn:Hrun.
    { destruct (negb _); [discriminate|]. destruct (negb _); discriminate. }
    intros [= <-]. revert Hrun. generalize (@nil (string * Value)).
    induction (params model) as [|[k o] rest IH]; intros input; simpl;
      [discriminate|].
    destruct (collectParam unified (k, o) input) as [input'|e0] eqn:Hturn.
    + intros Hrest. destruct (IH _ Hrest) as (pk & d & Hin & Hmiss & He).
      exists pk, d. split; [apply list_elem_of_further, Hin|auto].
    + intros [= <-]. destruct o as [definition|]; [|discriminate].
      rewrite collectParam_cases in Hturn.
      destruct (chosen unified k definition) eqn:Hc; [discriminate|].
      destruct (isRequired definition) eqn:Hreq; [|discriminate].
      injection Hturn as <-.
      exists k, definition. split; [apply list_elem_of_here|].
      split; [|reflexivity].
      unfold unprovided. simpl. rewrite Hreq, Hc.
      rewrite bool_decide_eq_false_2 by (intros [? ?]; discriminate).
      reflexivity.
Qed.

End ModelsProofs.

(** ** The provider call *)

Section RunFalProofs.
Import Models ModelsSpec.

Lemma walk_nest segments leaf :
  walk segments (Some (nest segments leaf)) = Some (Some leaf).
Proof.
  induction segments as [|segment rest IH]; [reflexivity|].
  simpl. rewrite String.eqb_refl. exact IH.
Qed.

Lemma splitDots_segments path :
  Forall (fun segment => JsMore.includes "." segment = false)
         (splitDots path).
Proof.
  induction path as [|c rest IH]; simpl; [repeat constructor|].
  destruct (Ascii.eqb_spec c ".") as [->|Hne].
  - constructor; [reflexivity|exact IH].
  - destruct (splitDots rest) as [|first others].
    + constructor; [|constructor].
      cbn [JsMore.includes String.prefix].
      destruct (ascii_dec "." c); [congruence|reflexivity].
    + apply Forall_cons in IH as [Hfirst Hothers].
      constructor; [|exact Hothers].
      cbn [JsMore.includes String.prefix].
      destruct (ascii_dec "." c); [congruence|]. exact Hfirst.
Qed.

(** X20.  For a model without adapter, the segments of [videoPath] are
    non-empty and free of dots; a response that nests a value under these
    segments yields that value if it is a string and nothing otherwise, and
    when there is at least one segment a response that is not an object
    yields nothing. *)
Theorem extractVideoUrl_reads_the_configured_path (model : ModelSpec) :
  adapter model = None ->
  let segments := getPathSegments (videoPath model) in
  Forall (fun segment => segment <> ""
                         /\ JsMore.includes "." segment = false)
         segments
  /\ (forall leaf,
        extractVideoUrl model (nest segments leaf) = Js.asString (Some leaf))
  /\ (forall url,
        extractVideoUrl model (nest segments (Js.JStr url)) = Some url)
  /\ (forall data,
        segments <> [] -> Js.isObjectLike data = false ->
        extractVideoUrl model data = None).
Proof.
  intros Hno segments. split; [|split; [|split]].
  - unfold segments, getPathSegments. apply Forall_forall.
    intros segment Hin. apply list_elem_of_filter in Hin as [Hne Hin].
    split; [exact Hne|].
    pose proof (splitDots_segments (videoPath model)) as Hall.
    rewrite Forall_forall in Hall. apply Hall, Hin.
  - intros leaf. unfold extractVideoUrl. rewrite Hno.
    fold segments. rewrite walk_nest. reflexivity.
  - intros url. unfold extractVideoUrl. rewrite Hno.
    fold segments. rewrite walk_nest. reflexivity.
  - intros data Hsome Hdata. unfold extractVideoUrl. rewrite Hno.
    fold segments. destruct segments as [|segment rest]; [contradiction|].
    destruct data; try reflexivity; discriminate Hdata.
Qed.

Variable noObject : Js.Thrown.
Variable catalogue : list ModelSpec.
Variable answer : string -> Input -> SubscribeOutcome.

(** The three outcomes of the lookup of a model id. *)
Lemma MODEL_SPEC_MAP_cases modelId :
  (forall spec,
     MODEL_SPEC_MAP catalogue modelId = Some (Registered spec) ->
     spec ∈ catalogue /\ id spec = modelId)
  /\ (MODEL_SPEC_MAP catalogue modelId = Some Inherited <->
      (forall spec, spec ∈ catalogue -> id spec <> modelId)
      /\ modelId ∈ OBJECT_PROTOTYPE_KEYS)
  /\ (MODEL_SPEC_MAP catalogue modelId = None <->
      (forall spec, spec ∈ catalogue -> id spec <> modelId)
      /\ modelId ∉ OBJECT_PROTOTYPE_KEYS).
Proof.
  unfold MODEL_SPEC_MAP.
  assert (Hkeys : existsb (String.eqb modelId) OBJECT_PROTOTYPE_KEYS = true
                  <-> modelId ∈ OBJECT_PROTOTYPE_KEYS).
  { rewrite existsb_exists. split.
    - intros (key & Hin & Heq). apply String.eqb_eq in Heq. subst key.
      apply list_elem_of_In, Hin.
    - intros Hin. exists modelId. split; [apply list_elem_of_In, Hin|].
      apply String.eqb_refl. }
  destruct (last (filter (fun spec => id spec = modelId) catalogue))
    as [found|] eqn:Hlast.
  - assert (Hfound : found ∈ catalogue /\ id found = modelId).
    { apply last_Some in Hlast as [l Hl].
      assert (Hin : found ∈ filter (fun spec => id spec = modelId) catalogue)
        by (rewrite Hl; apply elem_of_app; right; apply list_elem_of_here).
      apply list_elem_of_filter in Hin. tauto. }
    split; [intros spec [= <-]; exact Hfound|].
    split; (split; [discriminate|]); intros [Hnone _]; exfalso;
      destruct Hfound as [Hin Hid]; exact (Hnone found Hin Hid).
  - assert (Hnone : forall spec, spec ∈ catalogue -> id spec <> modelId).
    { intros spec Hin Hid.
      assert (Hf : spec ∈ filter (fun spec => id spec = modelId) catalogue)
        by (apply list_elem_of_filter; auto).
      apply last_None in Hlast. rewrite Hlast in Hf. inversion Hf. }
    destruct (existsb (String.eqb modelId) OBJECT_PROTOTYPE_KEYS) eqn:Hk.
    + split; [discriminate|]. split.
      * split; [intros _; split; [exact Hnone|apply Hkeys; reflexivity]
               |reflexivity].
      * split; [discriminate|]. intros [_ Hnot]. exfalso.
        apply Hnot, Hkeys. reflexivity.
    + split; [discriminate|]. split.
      * split; [discriminate|]. intros [_ Hin].
        apply Hkeys in Hin. discriminate.
      * split; [|reflexivity]. intros _. split; [exact Hnone|].
        intros Hin. apply Hkeys in Hin. discriminate.
Qed.

(** X21.  [runFal] resolves only with a non-empty URL: the one that
    [extractVideoUrl] finds in the response to its single [subscribe] call,
    made to the endpoint of the spec registered for the model id and with the
    input built from the payload.  It throws without calling [subscribe]
    when the input cannot be built and when the catalogue has no spec with
    the model id: then the error is ["Unknown model id"], unless the id
    names a member that the map inherits from [Object.prototype] (such as
    ["constructor"]), for which the lookup succeeds and building the input
    throws a [TypeError].  It never calls [subscribe] twice. *)
Theorem runFal_resolves_with_the_video_url
    (modelId : string) (payload : Payload.UnifiedPayload) :
  let run := runFal noObject catalogue answer modelId payload in
  (forall url raw,
     snd run = Attempt.Returned (url, raw) ->
     url <> ""
     /\ exists spec input,
          MODEL_SPEC_MAP catalogue modelId = Some (Registered spec)
          /\ spec ∈ catalogue
          /\ id spec = modelId
          /\ buildFalInput spec payload = Attempt.Returned input
          /\ fst run = [CallSubscribe (endpoint spec) input]
          /\ answer (endpoint spec) input = SubscribeResolved raw
          /\ extractVideoUrl spec raw = Some url)
  /\ ((forall spec, spec ∈ catalogue -> id spec <> modelId) ->
      (modelId ∉ OBJECT_PROTOTYPE_KEYS ->
       run = ([], Attempt.Threw
                    (Js.ErrorObject ("Unknown model id: " ++ modelId))))
      /\ (modelId ∈ OBJECT_PROTOTYPE_KEYS ->
          run = ([], Attempt.Threw noObject)))
  /\ (forall spec e,
        MODEL_SPEC_MAP catalogue modelId = Some (Registered spec) ->
        buildFalInput spec payload = Attempt.Threw e ->
        run = ([], Attempt.Threw e))
  /\ (length (fst run) <= 1)%nat.
Proof.
  intros run.
  destruct (MODEL_SPEC_MAP_cases modelId) as (Hregistered & Hinherited & Hnone).
  unfold run, runFal, getModelSpec.
  unfold mbind, attempt_mbind, Attempt.bind, lift, subscribe, Attempt.call,
    requireVideoUrl, Attempt.throw, mret, attempt_mret, Attempt.ret.
  destruct (MODEL_SPEC_MAP catalogue modelId) as [[spec|]|] eqn:Hspec.
  - destruct (Hregistered spec eq_refl) as [Hin Hid].
    assert (Hknown : (forall spec', spec' ∈ catalogue -> id spec' <> modelId)
                     -> False)
      by (intros Hno; exact (Hno spec Hin Hid)).
    destruct (buildFalInput spec payload) as [input|e] eqn:Hinput.
    + destruct (answer (endpoint spec) input) as [e|data] eqn:Hanswer;
        simpl.
      * split; [discriminate|]. split; [intros Hno; contradiction|].
        split; [intros spec' e' [= <-] He; rewrite Hinput in He; discriminate He
             |simpl; lia].
      * destruct (extractVideoUrl spec data) as [u|] eqn:Hurl; simpl.
        -- unfold Js.truthy.
           destruct (String.eqb_spec u "") as [Hu|Hu]; simpl.
           ++ split; [discriminate|]. split; [intros Hno; contradiction|].
              split; [intros spec' e' [= <-] He; rewrite Hinput in He; discriminate He
             |simpl; lia].
           ++ split.
              { intros url raw [= <- <-]. split; [exact Hu|].
                exists spec, input. auto 10. }
              split; [intros Hno; contradiction|].
              split; [intros spec' e' [= <-] He; rewrite Hinput in He; discriminate He
             |simpl; lia].
        -- split; [discriminate|]. split; [intros Hno; contradiction|].
           split; [intros spec' e' [= <-] He; rewrite Hinput in He; discriminate He
             |simpl; lia].
    + simpl. split; [discriminate|]. split; [intros Hno; contradiction|].
      split; [|simpl; lia].
      intros spec' e' [= <-] He. rewrite Hinput in He.
      injection He as <-. reflexivity.
  - simpl. split; [discriminate|]. split; [|split; [discriminate|simpl; lia]].
    intros _. split; [|reflexivity].
    intros Hnot. exfalso.
    destruct Hinherited as [Hin _]. destruct (Hin eq_refl) as [_ Hkey].
    exact (Hnot Hkey).
  - simpl. split; [discriminate|]. split; [|split; [discriminate|simpl; lia]].
    intros _. split; [reflexivity|].
    intros Hkey. exfalso.
    destruct Hnone as [Hn _]. destruct (Hn eq_refl) as [_ Hnot].
    exact (Hnot Hkey).
Qed.

End RunFalProofs.

(** ** The image models *)

Section ImageModelsProofs.
Import ImageModels.
Variable notAFunction : Js.Thrown.

Lemma references_app (a b : Input) :
  referencesSent (a ++ b) = referencesSent a ++ referencesSent b.
Proof. unfold referencesSent. apply flat_map_app. Qed.

Lemma whenDefined_references {A} key inject (value : option A) :
  key <> "image_urls" -> (forall v url, inject v <> VText url) ->
  referencesSent (whenDefined key inject value) = [].
Proof.
  intros Hkey Hinj. destruct value as [v|]; [|reflexivity].
  unfold referencesSent. simpl.
  destruct (inject v) eqn:Hv; try reflexivity.
  - exfalso. eapply Hinj, Hv.
  - destruct (String.eqb_spec key "image_urls"); [contradiction|reflexivity].
Qed.

Lemma aspectEntry_references size : referencesSent (aspectEntry size) = [].
Proof.
  unfold aspectEntry. destruct (Aspect.resolveAspectRatio size) as [r|];
    [|reflexivity].
  destruct (Js.truthy r); reflexivity.
Qed.

Lemma sizeEntry_references size : referencesSent (sizeEntry size) = [].
Proof.
  unfold sizeEntry. destruct size as [[name|w h]|]; try reflexivity.
  destruct (Js.truthy name); reflexivity.
Qed.

Lemma whenDefined_keys {A} key inject (value : option A) :
  map fst (whenDefined key inject value)
  = match value with Some _ => [key] | None => [] end.
Proof. destruct value; reflexivity. Qed.

Lemma aspectEntry_keys size :
  map fst (aspectEntry size) = [] \/ map fst (aspectEntry size) = ["aspect_ratio"].
Proof.
  unfold aspectEntry. destruct (Aspect.resolveAspectRatio size) as [r|];
    [|auto].
  destruct (Js.truthy r); auto.
Qed.

Lemma sizeEntry_keys size :
  map fst (sizeEntry size) = [] \/ map fst (sizeEntry size) = ["image_size"].
Proof.
  unfold sizeEntry. destruct size as [[name|w h]|]; auto.
  destruct (Js.truthy name); auto.
Qed.

Lemma take_four_all (urls : list string) :
  (length urls <= 4)%nat -> take 4 urls = urls.
Proof. intros Hlen. apply take_ge. exact Hlen. Qed.

Ltac seed_free :=
  rewrite ?references_app, ?aspectEntry_references, ?sizeEntry_references,
    ?(whenDefined_references "seed"), ?(whenDefined_references "num_inference_steps")
    by (discriminate || (intros; discriminate)).

Ltac keys_of job :=
  rewrite ?map_app, ?whenDefined_keys; cbn [map fst];
  try (destruct (aspectEntry_keys (size job)) as [-> | ->]);
  try (destruct (sizeEntry_keys (size job)) as [-> | ->]);
  destruct (seed job); try destruct (steps job);
  try destruct (0 <? length (imageUrls job))%nat;
  cbn [app map fst];
  apply (bool_decide_unpack _); vm_compute; exact I.

(** X22.  For every model of [IMAGE_MODELS] and every job, the reference
    images that the input names are a prefix of the job's [imageUrls] of
    length at most [maxRefs], and all of them when the model takes references
    and the job has at most [maxRefs]; the first key of the input is
    [prompt], with the prompt of the job, and no key occurs twice. *)
Theorem image_inputs_respect_the_reference_limit
    (spec : ImageModelSpec) (job : ImageJob) :
  spec ∈ IMAGE_MODELS notAFunction ->
  let sent := referencesSent (mapInput spec job) in
  sent `prefix_of` imageUrls job
  /\ (length sent <= maxRefs spec)%nat
  /\ ((0 < maxRefs spec)%nat ->
      (length (imageUrls job) <= maxRefs spec)%nat ->
      sent = imageUrls job)
  /\ head (mapInput spec job) = Some ("prompt", VText (prompt job))
  /\ NoDup (map fst (mapInput spec job)).
Proof.
  intros Hspec. cbv zeta. unfold IMAGE_MODELS in Hspec.
  repeat (apply elem_of_cons in Hspec as [->|Hspec]);
    [| | | | | |inversion Hspec];
    cbn [mapInput maxRefs].
  - (* flux-kontext-pro *)
    split; [|split; [|split; [|split]]]; [| | |reflexivity|keys_of job].
    + seed_free.
      destruct (0 <? length (imageUrls job))%nat; cbn;
        [rewrite !app_nil_r; apply prefix_take|apply prefix_nil].
    + seed_free.
      destruct (0 <? length (imageUrls job))%nat; cbn;
        [rewrite !app_nil_r, length_take; lia|lia].
    + intros _ Hlen. seed_free.
      destruct (0 <? length (imageUrls job))%nat eqn:Hsome; cbn.
      * rewrite !app_nil_r. apply take_four_all, Hlen.
      * apply Nat.ltb_ge in Hsome.
        destruct (imageUrls job); [reflexivity|simpl in Hsome; lia].
  - (* nano-banana-edit *)
    split; [|split; [|split; [|split]]]; [| | |reflexivity|keys_of job].
    + seed_free. cbn. rewrite !app_nil_r. apply prefix_take.
    + seed_free. cbn. rewrite !app_nil_r, length_take. lia.
    + intros _ Hlen. seed_free. cbn. rewrite !app_nil_r.
      apply take_four_all, Hlen.
  - (* nano-banana *)
    split; [|split; [|split; [|split]]]; [| | |reflexivity|keys_of job].
    + seed_free. cbn. apply prefix_nil.
    + seed_free. cbn. lia.
    + intros Hpos. lia.
  - (* qwen-image-edit-plus *)
    split; [|split; [|split; [|split]]]; [| | |reflexivity|keys_of job].
    + seed_free. cbn. rewrite !app_nil_r. apply prefix_take.
    + seed_free. cbn. rewrite !app_nil_r, length_take. lia.
    + intros _ Hlen. seed_free. cbn. rewrite !app_nil_r.
      apply take_four_all, Hlen.
  - (* seedream-v4-edit *)
    split; [|split; [|split; [|split]]]; [| | |reflexivity|keys_of job].
    + seed_free. cbn. rewrite !app_nil_r. apply prefix_take.
    + seed_free. cbn. rewrite !app_nil_r, length_take. lia.
    + intros _ Hlen. seed_free. cbn. rewrite !app_nil_r.
      apply take_four_all, Hlen.
  - (* chrono-edit *)
    split; [|split; [|split; [|split]]]; [| | |reflexivity|keys_of job].
    + seed_free. cbn.
      destruct (imageUrls job) as [|url rest]; cbn;
        [apply prefix_nil|apply (prefix_cons url [] rest), prefix_nil].
    + seed_free. cbn. destruct (imageUrls job); cbn; lia.
    + intros _ Hlen. seed_free. cbn.
      destruct (imageUrls job) as [|url [|? ?]]; cbn in *;
        [reflexivity|reflexivity|lia].
Qed.

Lemma omap_urls (urls : list string) :
  omap (Js.get "url") (map (fun url => Js.JObj [("url", Js.JStr url)]) urls)
  = map Js.JStr urls.
Proof. induction urls as [|u l IH]; [reflexivity|]. cbn. f_equal. exact IH. Qed.

(** X23.  [getUrls] returns truthy [url] values of the entries of
    [output.images] only, in their order; when every entry carries a string
    these are the non-empty URLs.  Without [images] (or with [null]) it
    returns the empty list, and it throws exactly when [images] is neither
    absent, [null] nor an array; what it throws is then the error of
    calling [map] on a value that has none. *)
Theorem getUrls_keeps_the_usable_urls (output : option Js.JSON) :
  (forall urls,
     getUrlsOf notAFunction output = Attempt.Returned urls ->
     Forall (fun url => JsMore.truthyValue url = true) urls
     /\ (urls <> [] ->
         exists images,
           output ≫= Js.get "images" = Some (Js.JArr images)
           /\ urls `sublist_of` omap (Js.get "url") images))
  /\ (forall others urls,
        output = Some (Js.JObj
                         (("images",
                           Js.JArr (map (fun url =>
                                           Js.JObj [("url", Js.JStr url)])
                                        urls)) :: others)) ->
        getUrlsOf notAFunction output
        = Attempt.Returned (map Js.JStr (filter (fun url => url <> "") urls)))
  /\ (output ≫= Js.get "images" = None
      \/ output ≫= Js.get "images" = Some Js.JNull ->
      getUrlsOf notAFunction output = Attempt.Returned [])
  /\ ((exists e, getUrlsOf notAFunction output = Attempt.Threw e)
      <-> exists images,
            output ≫= Js.get "images" = Some images
            /\ images <> Js.JNull
            /\ forall items, images <> Js.JArr items)
  /\ (forall e,
        getUrlsOf notAFunction output = Attempt.Threw e -> e = notAFunction)
  /\ (forall items,
        output ≫= Js.get "images" = Some (Js.JArr items) ->
        getUrlsOf notAFunction output
        = Attempt.Returned
            (filter (fun url => JsMore.truthyValue url = true)
                    (omap (Js.get "url") items))).
Proof.
  unfold getUrlsOf. split; [|split; [|split; [|split; [|split]]]].
  - intros urls.
    destruct (output ≫= Js.get "images") as [[| | | |images|]|];
      try discriminate; intros [= <-];
      try (split; [constructor|intros Hne; contradiction]).
    split.
    + apply Forall_forall. intros url Hin.
      apply list_elem_of_filter in Hin. tauto.
    + intros _. exists images. split; [reflexivity|apply sublist_filter].
  - intros others urls ->. cbn. rewrite omap_urls. f_equal.
    induction urls as [|u l IH]; [reflexivity|].
    cbn [map].
    assert (Ht : JsMore.truthyValue (Js.JStr u) = negb (String.eqb u ""))
      by reflexivity.
    destruct (String.eqb u "") eqn:He.
    + apply String.eqb_eq in He.
      rewrite filter_cons_False by (rewrite Ht; discriminate).
      rewrite filter_cons_False by (intros Hne; apply Hne, He).
      exact IH.
    + apply String.eqb_neq in He.
      rewrite filter_cons_True by exact Ht.
      rewrite filter_cons_True by exact He.
      cbn [map]. f_equal. exact IH.
  - intros [-> | ->]; reflexivity.
  - split.
    + intros [e He].
      destruct (output ≫= Js.get "images") as [[| | | |images|]|];
        try discriminate;
        eexists; (split; [reflexivity|]); split; discriminate.
    + intros (images & -> & Hnull & Harr).
      destruct images as [| | | |items|];
        try (exists notAFunction; reflexivity).
      * contradiction.
      * exfalso. exact (Harr items eq_refl).
  - intros e.
    destruct (output ≫= Js.get "images") as [[| | | |images|]|];
      try discriminate; intros [= <-]; reflexivity.
  - intros items ->. reflexivity.
Qed.

End ImageModelsProofs.

(** ** The image tab *)

Section ImageTabProofs.
Import ImageTab ImageTabSpec.
Variable h : Host.

Ltac run_monad :=
  unfold storeOne, readType, Persist.fetch, Persist.requireOk, mbind,
    attempt_mbind, Attempt.bind, Attempt.call, Attempt.throw, mret,
    attempt_mret, Attempt.ret; simpl.

(** One asset, by cases on the answers. *)
Lemma storeOrFallBack_cases name url run :
  match storedType run with
  | Some blobType =>
      let stored := (name ++ "." ++ extensionOf blobType)%string in
      storeOrFallBack h name url run
      = ([Persist.CallFetch url; Persist.CallReadBody;
          Persist.CallStore stored],
         localAsset h stored)
  | None =>
      snd (storeOrFallBack h name url run)
      = {| previewUrl := url; downloadUrl := url;
           fileName := (name ++ ".jpg")%string |}
      /\ exists rest,
           fst (storeOrFallBack h name url run)
           = Persist.CallFetch url :: rest
           /\ (rest = [] \/ rest = [Persist.CallReadBody]
               \/ exists stored,
                    rest = [Persist.CallReadBody; Persist.CallStore stored])
  end.
Proof.
  unfold storedType, storeOrFallBack. destruct run as [dl body st]. simpl.
  run_monad.
  destruct dl as [e|[|] status]; simpl; eauto 10.
  destruct body as [blobType|e]; simpl; eauto 10.
  destruct st as [e|[|] status']; simpl; eauto 10.
Qed.

(** X24.  [storeAssetsOnDisk] returns one asset per URL, in order, and never
    throws.  When the download, the reading of the body and the store request
    all succeed, the asset points to ["/assets/" + encodeURIComponent(name)]
    for the name with the extension of the blob type, which was sent to the
    store; otherwise the asset falls back to the remote URL and a [.jpg]
    name.  Each URL is requested first, at most three requests are made for
    it, and a non-empty URL always gives an asset with non-empty URLs. *)
Theorem storeAssetsOnDisk_keeps_every_url
    (runs : nat -> AssetRun) (urls : list string) (renderId : string)
    (createdAt : Z) :
  let stored := storeAssetsOnDisk h runs urls renderId createdAt in
  let stamp := formatCompactTimestamp h createdAt in
  length stored = length urls
  /\ forall i url,
       urls !! i = Some url ->
       exists log asset,
         stored !! i = Some (log, asset)
         /\ head log = Some (Persist.CallFetch url)
         /\ (length log <= 3)%nat
         /\ (forall blobType,
               storedType (runs i) = Some blobType ->
               let name := (assetName renderId stamp i ++ "."
                              ++ extensionOf blobType)%string in
               fileName asset = name
               /\ previewUrl asset
                  = ("/assets/" ++ encodeURIComponent h name)%string
               /\ downloadUrl asset = previewUrl asset
               /\ Persist.CallStore name ∈ log)
         /\ (storedType (runs i) = None ->
             previewUrl asset = url /\ downloadUrl asset = url
             /\ fileName asset
                = (assetName renderId stamp i ++ ".jpg")%string)
         /\ (url <> "" -> usable asset).
Proof.
  intros stored stamp. unfold stored, storeAssetsOnDisk. fold stamp.
  split; [apply length_imap|].
  intros i url Hurl. rewrite list_lookup_imap, Hurl. simpl.
  set (name := assetName renderId stamp i).
  pose proof (storeOrFallBack_cases name url (runs i)) as Hcases.
  destruct (storeOrFallBack h name url (runs i)) as [log asset].
  exists log, asset. split; [reflexivity|].
  destruct (storedType (runs i)) as [blobType|].
  - cbv zeta in Hcases. injection Hcases as -> ->.
    split; [reflexivity|]. split; [simpl; lia|].
    split; [|split; [discriminate|]].
    + intros blobType' [= <-]. cbv zeta. repeat split.
      apply list_elem_of_further, list_elem_of_further, list_elem_of_here.
    + intros _. split; discriminate.
  - destruct Hcases as [Hasset (rest & Hlog & Hrest)].
    simpl in Hasset, Hlog. subst asset log.
    split; [reflexivity|].
    split; [destruct Hrest as [->|[->|[? ->]]]; simpl; lia|].
    split; [discriminate|]. split; [auto|].
    intros Hne. split; exact Hne.
Qed.




Variable createLocalId : nat -> string.
Variable defaultModelId : string.



Lemma loadAsset_usable id i asset a :
  loadAsset id i asset = Some a -> usable a.
Proof.
  unfold loadAsset. destruct (negb (Js.isObjectLike asset)); [discriminate|].
  destruct (Js.asString (Js.get "previewUrl" asset)) as [p|]; [|discriminate].
  destruct (Js.asString (Js.get "downloadUrl" asset)) as [d|].
  - unfold Js.truthy.
    destruct (String.eqb_spec p ""); [discriminate|].
    destruct (String.eqb_spec d ""); [discriminate|].
    intros [= <-]. split; assumption.
  - unfold Js.truthy.
    destruct (String.eqb_spec p ""); [discriminate|].
    intros [= <-]. split; assumption.
Qed.

Lemma loadEntry_spec i entry :
  match loadEntry h createLocalId defaultModelId i entry with
  | None => Js.isObjectLike entry = false
  | Some render =>
      Js.isObjectLike entry = true
      /\ id render
         = default (id render) (Js.asString (Js.get "id" entry))
      /\ raw render = None
      /\ ((forall urls, Js.get "urls" entry <> Some (Js.JArr urls)) ->
          Forall usable (assets render))
  end.
Proof.
  unfold loadEntry. destruct (Js.isObjectLike entry); [|reflexivity].
  cbn. split; [reflexivity|].
  split; [destruct (Js.asString (Js.get "id" entry)); reflexivity|].
  split; [reflexivity|]. intros Hno.
  set (rid := default (createLocalId i) (Js.asString (Js.get "id" entry))).
  assert (Hlisted : Forall usable
            match Js.get "assets" entry with
            | Some (Js.JArr assetsInput) =>
                omap (fun x => x) (imap (loadAsset rid) assetsInput)
            | _ => []
            end).
  { destruct (Js.get "assets" entry) as [[| | | |assetsInput|]|];
      try constructor.
    apply Forall_forall. intros a Ha.
    apply list_elem_of_omap in Ha as (o & Ho & Heq). simpl in Heq. subst o.
    apply elem_of_lookup_imap in Ho as (k & asset & Hk & _).
    symmetry in Hk. eapply loadAsset_usable, Hk. }
  destruct (match Js.get "assets" entry with
            | Some (Js.JArr assetsInput) =>
                omap (fun x => x) (imap (loadAsset rid) assetsInput)
            | _ => []
            end) as [|a l]; [|exact Hlisted].
  destruct (Js.get "urls" entry) as [[| | | |urls|]|]; try constructor.
  exfalso. eapply Hno. reflexivity.
Qed.

(** X26.  [loadStoredRenders] returns one render for each object-like entry of
    the parsed array, in order: with the id of the entry when that is a
    string, without [raw], and, unless the entry has a [urls] array, with
    assets that all have non-empty URLs.  When the item is absent, empty or
    unparseable, or holds a value that is not an array, it returns the empty
    list. *)
Theorem loadStoredRenders_keeps_every_record (stored : option string) :
  (forall text data,
     stored = Some text -> text <> "" ->
     JSON_parse h text = Some (Js.JArr data) ->
     Forall2 (fun entry render =>
                id render
                = default (id render) (Js.asString (Js.get "id" entry))
                /\ raw render = None
                /\ ((forall urls, Js.get "urls" entry <> Some (Js.JArr urls)) ->
                    Forall usable (assets render)))
             (filter (fun entry => Js.isObjectLike entry = true) data)
             (loadStoredRenders h createLocalId defaultModelId stored))
  /\ (stored = None \/ stored = Some ""
      \/ (exists text, stored = Some text /\ JSON_parse h text = None)
      \/ (exists text v, stored = Some text /\ JSON_parse h text = Some v
                         /\ forall data, v <> Js.JArr data) ->
      loadStoredRenders h createLocalId defaultModelId stored = []).
Proof.
  split.
  - intros text data -> Hne Hparse. unfold loadStoredRenders.
    unfold Js.truthy.
    destruct (String.eqb_spec text "") as [|_]; [contradiction|].
    cbn. rewrite Hparse. clear Hne Hparse.
    generalize (loadEntry h createLocalId defaultModelId) loadEntry_spec.
    induction data as [|entry rest IH]; intros load Hload; [constructor|].
    change (omap (fun x => x) (imap load (entry :: rest)))
      with (match load 0%nat entry with
            | Some r => r :: omap (fun x => x) (imap (fun i => load (S i)) rest)
            | None => omap (fun x => x) (imap (fun i => load (S i)) rest)
            end).
    specialize (Hload 0%nat entry) as Hentry.
    destruct (load 0%nat entry) as [render|].
    + destruct Hentry as (Hobj & Hid & Hraw & Hassets).
      rewrite filter_cons_True by exact Hobj.
      constructor.
      * split; [exact Hid|split; assumption].
      * apply (IH (fun i => load (S i))). intros i e. apply Hload.
    + rewrite filter_cons_False by congruence.
      apply (IH (fun i => load (S i))). intros i e. apply Hload.
  - intros [->|[->|[(text & -> & Hp)|(text & v & -> & Hp & Hv)]]];
      try reflexivity; unfold loadStoredRenders; rewrite Hp;
      destruct (negb (Js.truthy text)); try reflexivity.
    destruct v; try reflexivity. exfalso. eapply Hv. reflexivity.
Qed.

End ImageTabProofs.

Section UploadProofs.
Import ImageTab.
Context {File : Type}.
Variable storage_upload : File -> Prepare.UploadOutcome.
Variable nameOf : File -> string.

Lemma uploadOne_uploaded file :
  uploaded (uploadOne storage_upload nameOf file)
  = Props.uploadedUrl storage_upload file.
Proof.
  unfold uploadOne, Props.uploadedUrl.
  destruct (storage_upload file) as [e|result]; [reflexivity|].
  destruct (Prepare.extractUploadUrl result) as [url|]; [|reflexivity].
  destruct (Js.truthy url); reflexivity.
Qed.

Lemma uploadOne_failure file :
  failure (uploadOne storage_upload nameOf file) = None
  <-> is_Some (Props.uploadedUrl storage_upload file).
Proof.
  rewrite <- uploadOne_uploaded.
  destruct (uploadOne storage_upload nameOf file) as [url|e]; simpl.
  - split; [intros _; eauto|reflexivity].
  - split; [discriminate|intros [? ?]; discriminate].
Qed.

Lemma failures_none (results : list (string + Js.Thrown)) order :
  Forall (fun r => failure r = None) results ->
  omap (fun i => results !! i ≫= failure) order = [].
Proof.
  intros Hall. induction order as [|i order IH]; [reflexivity|].
  cbn. destruct (results !! i) as [r|] eqn:Hi; cbn; [|exact IH].
  rewrite Forall_forall in Hall.
  rewrite (Hall r (list_elem_of_lookup_2 _ _ _ Hi)). exact IH.
Qed.

Lemma failures_some (results : list (string + Js.Thrown)) order i r e :
  results !! i = Some r -> failure r = Some e -> i ∈ order ->
  omap (fun i => results !! i ≫= failure) order <> [].
Proof.
  intros Hi He Hin Hnil.
  assert (Hmem : e ∈ omap (fun i => results !! i ≫= failure) order).
  { apply list_elem_of_omap. exists i. split; [exact Hin|].
    rewrite Hi. exact He. }
  rewrite Hnil in Hmem. inversion Hmem.
Qed.

(** X27.  [uploadFiles] does nothing without files or when the model takes no
    references.  Otherwise it hands every file to the client, and the
    reference list changes only if every upload yields a URL: the URLs are
    appended and the list is cut to [maxRefs], so references already within
    the limit stay in place; if any upload fails it alerts and leaves the
    list as it was. *)
Theorem uploadFiles_adds_all_or_nothing
    (maxRefs : nat) (settled : list nat) (files : list File)
    (prev : list string) :
  let result := uploadFiles storage_upload nameOf maxRefs settled files prev in
  (files = [] \/ maxRefs = 0%nat ->
   requested result = [] /\ alerted result = None
   /\ references result = prev)
  /\ (files <> [] -> (0 < maxRefs)%nat ->
      requested result = files
      /\ (Forall (fun file => is_Some (Props.uploadedUrl storage_upload file))
                 files ->
          alerted result = None
          /\ references result
             = take maxRefs
                 (prev ++ omap (Props.uploadedUrl storage_upload) files)
          /\ (length (references result) <= maxRefs)%nat
          /\ ((length prev <= maxRefs)%nat ->
              prev `prefix_of` references result))
      /\ (Exists (fun file => Props.uploadedUrl storage_upload file = None)
                 files ->
          is_Some (alerted result) /\ references result = prev)).
Proof.
  intros result. unfold result, uploadFiles. split.
  - intros [-> | ->]; [cbn; auto|].
    change (0 =? 0)%nat with true. rewrite orb_true_r. cbn. auto.
  - intros Hfiles Hmax.
    destruct files as [|file rest]; [contradiction|].
    destruct maxRefs as [|m]; [lia|].
    set (fs := file :: rest) in *.
    change ((length fs =? 0)%nat || (S m =? 0)%nat) with false.
    cbv iota.
    set (results := map (uploadOne storage_upload nameOf) fs).
    assert (Hup : omap uploaded results
                  = omap (Props.uploadedUrl storage_upload) fs).
    { unfold results. clear. induction fs as [|f l IH]; [reflexivity|].
      cbn. rewrite uploadOne_uploaded, IH. reflexivity. }
    split; [|split].
    + destruct (omap _ (settled ++ seq 0 (length fs))); reflexivity.
    + intros Hall.
      rewrite failures_none.
      2:{ unfold results. apply Forall_fmap.
          eapply Forall_impl; [exact Hall|].
          intros f Hf. apply uploadOne_failure, Hf. }
      cbn [alerted references]. rewrite Hup.
      split; [reflexivity|]. split; [reflexivity|].
      split; [rewrite length_take; lia|].
      intros Hlen. rewrite take_app_ge by exact Hlen.
      eexists. reflexivity.
    + intros Hbad. apply Exists_exists in Hbad as (bad & Hin & Hnone).
      apply list_elem_of_lookup_1 in Hin as [i Hi].
      assert (Hr : results !! i
                   = Some (uploadOne storage_upload nameOf bad))
        by (unfold results; rewrite list_lookup_fmap, Hi; reflexivity).
      destruct (failure (uploadOne storage_upload nameOf bad)) as [e|] eqn:He.
      2:{ apply uploadOne_failure in He as [url Hurl]. congruence. }
      assert (Hsome : omap (fun i => results !! i ≫= failure)
                           (settled ++ seq 0 (length fs)) <> []).
      { apply (failures_some results _ i _ e Hr He).
        apply elem_of_app. right. apply elem_of_seq.
        apply lookup_lt_Some in Hi. lia. }
      destruct (omap _ (settled ++ seq 0 (length fs))) as [|e' rest'];
        [contradiction|].
      cbn [alerted references]. split; [eauto|reflexivity].
Qed.

End UploadProofs.

(** ** The requests of [persistVideoAsset] *)

Section PersistRequests.

(** X28.  [persistVideoAsset] first requests the video, reads and encodes the
    body only after an ok response and posts to the store only after the body
    was read; each request is made at most once.  It succeeds exactly when
    all three do; a download that is not ok fails with
    ["Failed to fetch video (status)"] and a store that is not ok with
    ["Failed to persist video locally."]. *)
Theorem storeAsset_requests_in_order
    (run : Persist.Run) (fileName url : string) :
  let log := fst (Persist.storeAsset run fileName url) in
  let outcome := snd (Persist.storeAsset run fileName url) in
  log `prefix_of` [Persist.CallFetch url; Persist.CallReadBody;
                   Persist.CallStore fileName]
  /\ head log = Some (Persist.CallFetch url)
  /\ (Persist.CallReadBody ∈ log <->
      exists status, Persist.download run = Persist.FetchResponse true status)
  /\ (Persist.CallStore fileName ∈ log <->
      (exists status,
         Persist.download run = Persist.FetchResponse true status)
      /\ Persist.readBody run = None)
  /\ (outcome = Attempt.Returned tt <-> Props.persistSucceeds run = true)
  /\ (forall status,
        Persist.download run = Persist.FetchResponse false status ->
        outcome = Attempt.Threw
                    (Js.ErrorObject
                       ("Failed to fetch video ("
                          ++ Js.numberToString status ++ ")")%string))
  /\ (forall status status',
        Persist.download run = Persist.FetchResponse true status ->
        Persist.readBody run = None ->
        Persist.store run = Persist.FetchResponse false status' ->
        outcome = Attempt.Threw
                    (Js.ErrorObject "Failed to persist video locally.")).
Proof.
  destruct run as [dl body st]. unfold Props.persistSucceeds.
  unfold Persist.storeAsset, Persist.fetch, Persist.requireOk,
    Persist.encodeBody, mbind, attempt_mbind, Attempt.bind, Attempt.call,
    Attempt.throw, mret, attempt_mret, Attempt.ret.
  cbn [Persist.download Persist.readBody Persist.store].
  assert (Hno2 : forall c : Persist.Call,
             c ∈ [Persist.CallFetch url] -> c = Persist.CallFetch url)
    by (intros c Hc; apply list_elem_of_singleton in Hc; exact Hc).
  destruct dl as [e|[|] status]; cbn.
  - split; [eexists; reflexivity|]. split; [reflexivity|].
    split; [split; [intros H; apply Hno2 in H; discriminate
                   |intros [? ?]; discriminate]|].
    split; [split; [intros H; apply Hno2 in H; discriminate
                   |intros [[? ?] _]; discriminate]|].
    split; [split; discriminate|]. split; discriminate.
  - destruct body as [e|]; cbn.
    + split; [eexists; reflexivity|]. split; [reflexivity|].
      split; [split; [eauto|intros _; set_solver]|].
      split; [split; [intros H; set_solver|intros [_ ?]; discriminate]|].
      split; [split; discriminate|]. split; discriminate.
    + destruct st as [e|[|] status']; cbn.
      * split; [eexists; reflexivity|]. split; [reflexivity|].
        split; [split; [eauto|intros _; set_solver]|].
        split; [split; [eauto|intros _; set_solver]|].
        split; [split; discriminate|]. split; discriminate.
      * split; [exists []; reflexivity|]. split; [reflexivity|].
        split; [split; [eauto|intros _; set_solver]|].
        split; [split; [eauto|intros _; set_solver]|].
        split; [split; reflexivity|]. split; discriminate.
      * split; [exists []; reflexivity|]. split; [reflexivity|].
        split; [split; [eauto|intros _; set_solver]|].
        split; [split; [eauto|intros _; set_solver]|].
        split; [split; discriminate|]. split; [discriminate|].
        intros ? ? _ _ _. reflexivity.
  - split; [eexists; reflexivity|]. split; [reflexivity|].
    split; [split; [intros H; apply Hno2 in H; discriminate
                   |intros [? ?]; discriminate]|].
    split; [split; [intros H; apply Hno2 in H; discriminate
                   |intros [[? ?] _]; discriminate]|].
    split; [split; discriminate|].
    split; [intros ? [= <-]; reflexivity|discriminate].
Qed.

End PersistRequests.

(** ** The further properties on sample data *)

Section MoreWitnesses.
Import Jobs Scheduler SchedulerSpec Lifecycle Saving Samples MoreSamples.

Ltac by_computation := apply (bool_decide_unpack _); vm_compute; exact I.

Lemma samplePrepared_uiReachable :
  uiReachable sampleHost (Store.loadStoredJobs sampleHost (Some "index"))
    samplePrepared.
Proof.
  refine (ui_step _ _ _ _ (ui_step _ _ _ _
            (ui_initial _ _) (ui_submit _ _ _ _ _ _ _ _ _))
            (ui_prepared _ _ _ _ _ _ _ _ _ _));
    by_computation.
Qed.

Lemma sampleRunning_uiReachable :
  uiReachable sampleHost (Store.loadStoredJobs sampleHost (Some "index"))
    sampleRunning.
Proof.
  exact (ui_step _ _ samplePrepared _ samplePrepared_uiReachable
           (ui_tick _ _)).
Qed.

Lemma sampleRunning_executing :
  executing sampleRunning !! id sampleQueuedJob
  = Some (AwaitRun sampleQueuedJob).
Proof. vm_compute. reflexivity. Qed.

Lemma sampleResolved_uiReachable :
  uiReachable sampleHost (Store.loadStoredJobs sampleHost (Some "index"))
    sampleResolved.
Proof.
  exact (ui_step _ _ sampleRunning _ sampleRunning_uiReachable
           (ui_runResolved _ _ sampleQueuedJob sampleVideoUrl None
              sampleRunning_executing)).
Qed.

Lemma sampleResolved_executing :
  executing sampleResolved !! id sampleQueuedJob
  = Some (AwaitPersist sampleFileName sampleVideoUrl).
Proof. vm_compute. reflexivity. Qed.

Lemma sampleSaved_uiReachable :
  uiReachable sampleHost (Store.loadStoredJobs sampleHost (Some "index"))
    sampleSaved.
Proof.
  exact (ui_step _ _ sampleResolved _ sampleResolved_uiReachable
           (ui_persistSettled _ _ (id sampleQueuedJob) sampleFileName
              sampleVideoUrl sampleOkPersist sampleResolved_executing)).
Qed.

Lemma sampleQueuedJob_listed : sampleQueuedJob ∈ jobs samplePrepared.
Proof.
  apply (list_elem_of_lookup_2 _ 0%nat). vm_compute. reflexivity.
Qed.

Lemma sampleSavedJob_listed : sampleSavedJob ∈ jobs sampleSaved.
Proof.
  apply (list_elem_of_lookup_2 _ 0%nat). vm_compute. reflexivity.
Qed.

Example sampleSaved_jobs :
  map (fun job => (status job, saved job, localKey job, localUrl job))
      (jobs sampleSaved)
  = [(success, Some true,
      Some "downloads-kling-1700000001000-new001.mp4",
      Some "/assets/downloads-kling-1700000001000-new001.mp4");
     (success, Some true, Some "downloads-kling-1-abc123.mp4",
      Some "/assets/downloads-kling-1-abc123.mp4")].
Proof. vm_compute. reflexivity. Qed.

Lemma status_moves_along_lifecycle_witness :
  uiReachable sampleHost (Store.loadStoredJobs sampleHost (Some "index"))
    samplePrepared
  /\ uiStep sampleHost samplePrepared sampleRunning
  /\ related advances (jobs samplePrepared) (jobs sampleRunning).
Proof.
  split; [exact samplePrepared_uiReachable|].
  split; [apply ui_tick|].
  apply (status_moves_along_lifecycle sampleHost (Some "index")
           samplePrepared sampleRunning samplePrepared_uiReachable
           (ui_tick _ _)).
Defined.

Lemma jobs_keep_identity_and_place_witness :
  step sampleHost samplePrepared sampleRunning
  /\ related keeps (jobs samplePrepared) (jobs sampleRunning)
  /\ (length (jobs samplePrepared) <= length (jobs sampleRunning))%nat.
Proof.
  assert (Hstep : step sampleHost samplePrepared sampleRunning)
    by apply step_tick.
  destruct (jobs_keep_identity_and_place sampleHost samplePrepared
              sampleRunning Hstep) as (Hsame & Hlen & _).
  split; [exact Hstep|]. split; [exact Hsame|exact Hlen].
Defined.

Lemma payload_follows_status_witness :
  uiReachable sampleHost (Store.loadStoredJobs sampleHost (Some "index"))
    samplePrepared
  /\ sampleQueuedJob ∈ jobs samplePrepared
  /\ status sampleQueuedJob = queued
  /\ is_Some (payload sampleQueuedJob).
Proof.
  assert (Hq : status sampleQueuedJob = queued) by reflexivity.
  destruct (payload_follows_status sampleHost (Some "index") samplePrepared
              samplePrepared_uiReachable sampleQueuedJob
              sampleQueuedJob_listed) as [_ Hpay].
  split; [exact samplePrepared_uiReachable|].
  split; [exact sampleQueuedJob_listed|]. split; [exact Hq|].
  apply Hpay. left. exact Hq.
Defined.

Lemma job_ids_stay_unique_witness :
  NoDup (map id (Store.loadStoredJobs sampleHost (Some "index")))
  /\ reachable sampleHost (Store.loadStoredJobs sampleHost (Some "index"))
       sampleRunning
  /\ NoDup (map id (jobs sampleRunning)).
Proof.
  assert (Hstored : NoDup (map id (Store.loadStoredJobs sampleHost
                                     (Some "index"))))
    by by_computation.
  assert (Hreach := uiReachable_reachable _ _ _ sampleRunning_uiReachable).
  split; [exact Hstored|]. split; [exact Hreach|].
  apply (job_ids_stay_unique sampleHost (Some "index") sampleRunning
           Hstored Hreach).
Defined.

Lemma slots_are_held_by_running_or_saving_jobs_witness :
  uiReachable sampleHost (Store.loadStoredJobs sampleHost (Some "index"))
    sampleRunning
  /\ id sampleQueuedJob ∈ runningJobs sampleRunning
  /\ exists j, j ∈ jobs sampleRunning /\ id j = id sampleQueuedJob.
Proof.
  assert (Hin : id sampleQueuedJob ∈ runningJobs sampleRunning)
    by by_computation.
  destruct (slots_are_held_by_running_or_saving_jobs sampleHost
              (Some "index") sampleRunning sampleRunning_uiReachable)
    as (Hheld & _).
  destruct (Hheld _ Hin) as [Hjob _].
  split; [exact sampleRunning_uiReachable|]. split; [exact Hin|exact Hjob].
Defined.

Lemma tick_starts_the_first_queued_job_witness :
  uiReachable sampleHost (Store.loadStoredJobs sampleHost (Some "index"))
    samplePrepared
  /\ (size (runningJobs samplePrepared) < MAX_CONCURRENT_JOBS)%nat
  /\ sampleQueuedJob ∈ jobs samplePrepared
  /\ status sampleQueuedJob = queued
  /\ exists next,
       status next = queued
       /\ executing (tick samplePrepared) !! id next = Some (AwaitRun next).
Proof.
  assert (Hroom : (size (runningJobs samplePrepared)
                   < MAX_CONCURRENT_JOBS)%nat) by by_computation.
  assert (Hq : status sampleQueuedJob = queued) by reflexivity.
  destruct (tick_starts_the_first_queued_job sampleHost (Some "index")
              samplePrepared sampleQueuedJob samplePrepared_uiReachable
              Hroom sampleQueuedJob_listed Hq)
    as (before & next & after & _ & Hnext & _ & _ & _ & Hexec & _).
  split; [exact samplePrepared_uiReachable|]. split; [exact Hroom|].
  split; [exact sampleQueuedJob_listed|]. split; [exact Hq|].
  exists next. split; [exact Hnext|exact Hexec].
Defined.

Lemma saved_jobs_are_the_indexed_jobs_witness :
  uiReachable sampleHost (Store.loadStoredJobs sampleHost (Some "index"))
    sampleSaved
  /\ Store.persistedIndex (jobs sampleSaved)
     = map Store.storedRecord
         (filter (fun j => saved j = Some true) (jobs sampleSaved)).
Proof.
  split; [exact sampleSaved_uiReachable|].
  apply (saved_jobs_are_the_indexed_jobs sampleHost (Some "index")
           sampleSaved sampleSaved_uiReachable).
Defined.

Lemma download_follows_the_local_copy_witness :
  uiReachable sampleHost (Store.loadStoredJobs sampleHost (Some "index"))
    sampleSaved
  /\ sampleSavedJob ∈ jobs sampleSaved
  /\ saved sampleSavedJob = Some true
  /\ exists key url,
       localKey sampleSavedJob = Some key
       /\ localUrl sampleSavedJob = Some url
       /\ handleDownload sampleHost sampleDownload sampleSavedJob
          = Offered url key.
Proof.
  assert (Hsaved : saved sampleSavedJob = Some true) by reflexivity.
  destruct (download_follows_the_local_copy sampleHost (Some "index")
              sampleSaved sampleSavedJob sampleSaved_uiReachable
              sampleSavedJob_listed) as [_ Hcopy].
  destruct (Hcopy Hsaved) as (key & url & Hkey & Hurl & Hrun).
  destruct (Hrun sampleDownload) as [_ Hoffer].
  split; [exact sampleSaved_uiReachable|].
  split; [exact sampleSavedJob_listed|]. split; [exact Hsaved|].
  exists key, url. split; [exact Hkey|]. split; [exact Hurl|].
  apply Hoffer; [reflexivity|]. exists 200%Z. reflexivity.
Defined.

Lemma stored_copy_is_named_after_its_job_witness :
  uiReachable sampleHost (Store.loadStoredJobs sampleHost (Some "index"))
    sampleResolved
  /\ executing sampleResolved !! id sampleQueuedJob
     = Some (AwaitPersist sampleFileName sampleVideoUrl)
  /\ Props.persistSucceeds sampleOkPersist = true
  /\ exists j, j ∈ jobs sampleSaved /\ id j = id sampleQueuedJob.
Proof.
  assert (Hok : Props.persistSucceeds sampleOkPersist = true)
    by reflexivity.
  destruct (stored_copy_is_named_after_its_job sampleHost (Some "index")
              sampleResolved (id sampleQueuedJob) sampleFileName
              sampleVideoUrl sampleOkPersist sampleResolved_uiReachable
              sampleResolved_executing Hok) as [Hjob _].
  split; [exact sampleResolved_uiReachable|].
  split; [exact sampleResolved_executing|]. split; [exact Hok|exact Hjob].
Defined.

Lemma finished_runs_free_their_slot_witness :
  reachable sampleHost (Store.loadStoredJobs sampleHost (Some "index"))
    sampleRunning
  /\ executing sampleRunning !! id sampleQueuedJob
     = Some (AwaitRun sampleQueuedJob)
  /\ (id sampleQueuedJob
      ∉ runningJobs (runRejected sampleQueuedJob Js.NotAnError sampleRunning))
  /\ S (size (runningJobs
                (runRejected sampleQueuedJob Js.NotAnError sampleRunning)))
     = size (runningJobs sampleRunning).
Proof.
  assert (Hreach := uiReachable_reachable _ _ _ sampleRunning_uiReachable).
  destruct (finished_runs_free_their_slot sampleHost (Some "index")
              sampleRunning Hreach) as (Hrejected & _).
  destruct (Hrejected sampleQueuedJob Js.NotAnError sampleRunning_executing)
    as (_ & Hout & Hsize & _).
  split; [exact Hreach|]. split; [exact sampleRunning_executing|].
  split; [exact Hout|exact Hsize].
Defined.

End MoreWitnesses.

Section SegmentWitnesses.
Import FileName Segment.

Lemma sanitizeFileSegment_shape_witness :
  isAsciiText " My Clips / 2024 " = true
  /\ sanitizeFileSegment " My Clips / 2024 " = "my-clips-2024"
  /\ head (list_ascii_of_string (sanitizeFileSegment " My Clips / 2024 "))
     <> Some hyphen
  /\ (sanitizeFileSegment " My Clips / 2024 " = ""
      <-> Forall (fun c => isTokenChar c = false)
                 (map lowerChar (list_ascii_of_string " My Clips / 2024 "))).
Proof.
  assert (Hascii : isAsciiText " My Clips / 2024 " = true) by reflexivity.
  destruct (sanitizeFileSegment_shape " My Clips / 2024 " Hascii)
    as (Hhead & _ & _ & _ & Hempty).
  split; [exact Hascii|]. split; [reflexivity|].
  split; [exact Hhead|exact Hempty].
Defined.

End SegmentWitnesses.

Section ServerWitnesses.
Import JsMore AssetServer Samples MoreSamples.

Lemma samplePost_stored :
  handler sampleNode noFaults ∅ samplePost = (Reply 200 "ok", sampleDisk).
Proof. vm_compute. reflexivity. Qed.

Lemma sampleGet_served :
  handler sampleNode noFaults sampleDisk sampleGet
  = (Stream "application/octet-stream" [Byte.x41; Byte.x42; Byte.x43],
     sampleDisk).
Proof. vm_compute. reflexivity. Qed.


Lemma assets_are_served_from_checked_paths_witness :
  method sampleGet = "GET"
  /\ handler sampleNode noFaults sampleDisk sampleGet
     = (Stream "application/octet-stream" [Byte.x41; Byte.x42; Byte.x43],
        sampleDisk)
  /\ exists relative,
       includes ".." relative = false
       /\ path_isAbsolute sampleNode relative = false
       /\ fileAt sampleDisk (path_join sampleNode relative)
          = Some [Byte.x41; Byte.x42; Byte.x43].
Proof.
  destruct (assets_are_served_from_checked_paths sampleNode noFaults
              sampleDisk sampleDisk sampleGet _ eq_refl sampleGet_served)
    as (_ & Hstream & _).
  destruct (Hstream _ _ eq_refl)
    as (encoded & relative & _ & _ & _ & Hdots & _ & Habs & Hfile & _).
  split; [reflexivity|]. split; [exact sampleGet_served|].
  exists relative. auto.
Defined.

Lemma stored_asset_is_served_witness :
  handler sampleNode noFaults ∅ samplePost = (Reply 200 "ok", sampleDisk)
  /\ parse sampleNode "clip" = inl sampleBody
  /\ Js.get "name" sampleBody = Some (Js.JStr "clip.mp4")
  /\ decodeURIComponent sampleNode "clip.mp4" = inl "clip.mp4"
  /\ includes "?" "clip.mp4" = false
  /\ path_isAbsolute sampleNode "clip.mp4" = false
  /\ mkdirThrows noFaults = None
  /\ exists buffer,
       handler sampleNode noFaults sampleDisk
         {| method := "GET"; url := Some "/assets/clip.mp4"; body := "" |}
       = (Stream (getMimeType sampleNode
                    (path_join sampleNode "clip.mp4")) buffer,
          sampleDisk).
Proof.
  destruct (stored_asset_is_served sampleNode noFaults noFaults ∅ sampleDisk
              "clip" sampleBody "clip.mp4" "clip.mp4" ""
              samplePost_stored eq_refl eq_refl eq_refl eq_refl eq_refl
              eq_refl) as (data & buffer & _ & _ & Hget).
  repeat (split; [first [exact samplePost_stored|reflexivity]|]).
  exists buffer. exact Hget.
Defined.

Lemma built_file_names_pass_the_store_check_witness :
  Forall plainChar
    (list_ascii_of_string
       (formatCompactTimestamp sampleHost (FileName.createdAt sampleClips)))
  /\ FileName.sanitizeFileSegment (FileName.id sampleClips) <> ""
  /\ includes ".." (FileName.buildVideoFileName sampleHost sampleClips)
     = false
  /\ receiveAsset sampleNode noFaults ∅ "video"
     = (Reply 200 "ok",
        <[ path_join sampleNode
             (FileName.buildVideoFileName sampleHost sampleClips)
           := File [Byte.x41; Byte.x42; Byte.x43] ]>
          (ensureOutDir sampleNode ∅)).
Proof.
  assert (Hstamp : Forall plainChar
            (list_ascii_of_string
               (formatCompactTimestamp sampleHost
                  (FileName.createdAt sampleClips))))
    by (apply literal_plain; vm_compute; reflexivity).
  assert (Hid : FileName.sanitizeFileSegment (FileName.id sampleClips) <> "")
    by (vm_compute; discriminate).
  destruct (built_file_names_pass_the_store_check sampleHost sampleClips
              Hstamp (or_introl Hid)) as [(_ & Hdots & _ & _) Hstore].
  split; [exact Hstamp|]. split; [exact Hid|]. split; [exact Hdots|].
  apply (Hstore sampleNode noFaults ∅ "video" "QUJD");
    [reflexivity|discriminate|reflexivity|reflexivity|reflexivity].
Defined.

End ServerWitnesses.

Section HistoryWitnesses.
Import Jobs Samples MoreSamples.

Lemma history_survives_reload_witness :
  (filter (fun job => Store.isCompleted job = true)
          [sampleRehydrated; sampleFailed] <> [] ->
   JSON_stringify sampleHistoryHost
     (Js.JArr (Store.persistedIndex [sampleRehydrated; sampleFailed])) <> ""
   /\ JSON_parse sampleHistoryHost
        (JSON_stringify sampleHistoryHost
           (Js.JArr (Store.persistedIndex [sampleRehydrated; sampleFailed])))
      = Some (Js.JArr (Store.persistedIndex
                         [sampleRehydrated; sampleFailed])))
  /\ Store.loadStoredJobs sampleHistoryHost
       (History.itemAfter Store.VIDEO_JOBS_STORAGE_KEY
          (Store.persistStoredJobs sampleHistoryHost
             [sampleRehydrated; sampleFailed]) History.Done None)
     = map Props.rehydrate
         (filter (fun job => Store.isCompleted job = true)
                 [sampleRehydrated; sampleFailed])
  /\ Store.loadStoredJobs sampleHistoryHost
       (History.itemAfter Store.VIDEO_JOBS_STORAGE_KEY
          (Store.persistStoredJobs sampleHistoryHost
             [sampleRehydrated; sampleFailed])
          (History.Refused (Js.ErrorObject "QuotaExceededError")) None)
     = [].
Proof.
  assert (Hhost :
    filter (fun job => Store.isCompleted job = true)
           [sampleRehydrated; sampleFailed] <> [] ->
    JSON_stringify sampleHistoryHost
      (Js.JArr (Store.persistedIndex [sampleRehydrated; sampleFailed])) <> ""
    /\ JSON_parse sampleHistoryHost
         (JSON_stringify sampleHistoryHost
            (Js.JArr (Store.persistedIndex
                        [sampleRehydrated; sampleFailed])))
       = Some (Js.JArr (Store.persistedIndex
                          [sampleRehydrated; sampleFailed]))).
  { intros _. split; [discriminate|reflexivity]. }
  split; [exact Hhost|]. split.
  - destruct (history_survives_reload sampleHistoryHost
                [sampleRehydrated; sampleFailed] History.Done None Hhost)
      as [Hdone _].
    destruct (Hdone eq_refl) as [Hreloaded _]. exact Hreloaded.
  - destruct (history_survives_reload sampleHistoryHost
                [sampleRehydrated; sampleFailed]
                (History.Refused (Js.ErrorObject "QuotaExceededError")) None
                Hhost)
      as [_ Hrefused].
    destruct (Hrefused _ eq_refl) as [_ Hreloaded]. exact Hreloaded.
Defined.


End HistoryWitnesses.

Section ModelWitnesses.
Import Models ModelsSpec MoreSamples.

Lemma sampleInput_built :
  buildFalInput sampleVideoModel sampleUnified = Attempt.Returned sampleInput.
Proof. vm_compute. reflexivity. Qed.

Lemma buildFalInput_sends_declared_parameters_witness :
  adapter sampleVideoModel = None
  /\ buildFalInput sampleVideoModel sampleUnified
     = Attempt.Returned sampleInput
  /\ map fst sampleInput `sublist_of` map fst (params sampleVideoModel).
Proof.
  split; [reflexivity|]. split; [exact sampleInput_built|].
  apply (buildFalInput_sends_declared_parameters sampleUnified
           sampleVideoModel sampleInput eq_refl sampleInput_built).
Defined.

Lemma buildFalInput_gates_end_frame_keys_witness :
  adapter sampleVideoModel = None
  /\ buildFalInput sampleVideoModel sampleUnified
     = Attempt.Returned sampleInput
  /\ endFrameSent sampleVideoModel sampleUnified = false
  /\ "tail_image_url" ∉ map fst sampleInput.
Proof.
  destruct (buildFalInput_gates_end_frame_keys sampleUnified
              sampleVideoModel sampleInput eq_refl sampleInput_built)
    as (collected & _ & _ & Hstrip).
  destruct (Hstrip eq_refl) as [Hkeys _].
  split; [reflexivity|]. split; [exact sampleInput_built|].
  split; [reflexivity|]. apply Hkeys. apply list_elem_of_here.
Defined.

Lemma buildFalInput_reports_first_missing_parameter_witness :
  adapter sampleVideoModel = None
  /\ Forall (fun entry => unprovided sampleUnified entry = false)
            (params sampleVideoModel)
  /\ exists input,
       buildFalInput sampleVideoModel sampleUnified = Attempt.Returned input.
Proof.
  assert (Hall : Forall (fun entry => unprovided sampleUnified entry = false)
                        (params sampleVideoModel))
    by (repeat constructor).
  destruct (buildFalInput_reports_first_missing_parameter sampleUnified
              sampleVideoModel eq_refl) as [Hret _].
  split; [reflexivity|]. split; [exact Hall|]. apply Hret, Hall.
Defined.

Lemma extractVideoUrl_reads_the_configured_path_witness :
  adapter sampleVideoModel = None
  /\ extractVideoUrl sampleVideoModel
       (Js.JObj [("video", Js.JObj [("url", Js.JStr sampleVideoUrl)])])
     = Some sampleVideoUrl.
Proof.
  destruct (extractVideoUrl_reads_the_configured_path sampleVideoModel
              eq_refl) as (_ & _ & Hurl & _).
  split; [reflexivity|]. exact (Hurl sampleVideoUrl).
Defined.

Lemma image_inputs_respect_the_reference_limit_witness :
  sampleImageModel ∈ ImageModels.IMAGE_MODELS Js.NotAnError
  /\ (length (ImageModels.referencesSent
                (ImageModels.mapInput sampleImageModel sampleImageJob))
      <= ImageModels.maxRefs sampleImageModel)%nat.
Proof.
  assert (Hin : sampleImageModel ∈ ImageModels.IMAGE_MODELS Js.NotAnError)
    by (unfold sampleImageModel, ImageModels.IMAGE_MODELS;
        apply list_elem_of_here).
  destruct (image_inputs_respect_the_reference_limit Js.NotAnError
              sampleImageModel sampleImageJob Hin) as (_ & Hlen & _).
  split; [exact Hin|exact Hlen].
Defined.

Example sampleImageJob_references :
  ImageModels.referencesSent
    (ImageModels.mapInput sampleImageModel sampleImageJob)
  = ["https://cdn.example/1.png"; "https://cdn.example/2.png";
     "https://cdn.example/3.png"; "https://cdn.example/4.png"].
Proof. vm_compute. reflexivity. Qed.

End ModelWitnesses.
